(** * The adaptive Huffman engine of the SVC library (huffman.cpp)

    A shallow embedding of [libraries/svc/source/huffman.cpp]: the code tree
    lives in an arena of [HFnode] records addressed by handles, pointers are
    optional handles, and every function that dereferences a pointer returns
    in [option], [None] standing for a null dereference or for a loop that
    does not end. *)

From Stdlib Require Import ZArith NArith Lia.
From stdpp Require Import base option list strings.

Set Default Proof Using "Type".
Set Warnings "-register-all".

(** ** Terms *)

Record function_symbol := mk_function_symbol { fs_name : string; fs_arity : nat }.

(** [atermpp::aterm]: the default-constructed term has a null address. *)
Inductive aterm : Type :=
| aterm_null : aterm
| aterm_int (value : Z) : aterm
| aterm_appl (f : function_symbol) (args : list aterm) : aterm.

Definition fs_eqb (f g : function_symbol) : bool :=
  String.eqb (fs_name f) (fs_name g) && Nat.eqb (fs_arity f) (fs_arity g).

(** Terms are maximally shared, so [==] on terms is structural equality. *)
Fixpoint aterm_eqb (a b : aterm) : bool :=
  match a, b with
  | aterm_null, aterm_null => true
  | aterm_int x, aterm_int y => Z.eqb x y
  | aterm_appl f xs, aterm_appl g ys =>
      fs_eqb f g &&
      (fix all2 (xs ys : list aterm) : bool :=
         match xs, ys with
         | [], [] => true
         | x :: xs', y :: ys' => aterm_eqb x y && all2 xs' ys'
         | _, _ => false
         end) xs ys
  | _, _ => false
  end.

Definition ESCAPE_SEQUENCE : aterm :=
  aterm_appl (mk_function_symbol "ESC" 1) [aterm_appl (mk_function_symbol "NEW" 0) []].
Definition NO_ATERM : aterm :=
  aterm_appl (mk_function_symbol "ESC" 1) [aterm_appl (mk_function_symbol "NIL" 0) []].

(** ** Nodes, pointers and the arena *)

Abbreviation ptr := (option nat) (only parsing).

Definition ptr_eqb (p q : ptr) : bool :=
  match p, q with
  | None, None => true
  | Some a, Some b => Nat.eqb a b
  | _, _ => false
  end.

Record HFnode := mk_HFnode {
  high : ptr;
  low : ptr;
  parent : ptr;
  frequency : N;
  term : aterm
}.

Definition set_high (v : ptr) (n : HFnode) : HFnode :=
  mk_HFnode v (low n) (parent n) (frequency n) (term n).
Definition set_low (v : ptr) (n : HFnode) : HFnode :=
  mk_HFnode (high n) v (parent n) (frequency n) (term n).
Definition set_parent (v : ptr) (n : HFnode) : HFnode :=
  mk_HFnode (high n) (low n) v (frequency n) (term n).
Definition set_frequency (v : N) (n : HFnode) : HFnode :=
  mk_HFnode (high n) (low n) (parent n) v (term n).

Abbreviation Heap := (list HFnode) (only parsing).

(** [p->field = v] through a handle; a dangling handle is an error. *)
Definition store (h : Heap) (n : nat) (f : HFnode → HFnode) : option Heap :=
  nd ← h !! n; Some (<[n := f nd]> h).

Definition weight (h : Heap) (n : nat) : N :=
  match h !! n with Some nd => frequency nd | None => 0%N end.

(** ** Bit streams *)

Abbreviation Bit := bool (only parsing).
Abbreviation BitStream := (list bool) (only parsing).

(** Modelled from the spec: [BSwriteBit] and [BSreadBit] are not among the
    sources. The spec's BitStream appends one bit and consumes one bit in
    the order produced, reporting the end of the input. *)
Definition BSwriteBit (fp : BitStream) (b : Bit) : BitStream := fp ++ [b].
Definition BSreadBit (fp : BitStream) : option (Bit * BitStream) :=
  match fp with
  | [] => None
  | b :: fp' => Some (b, fp')
  end.

(** ** Symbol table *)

(** Modelled from the spec: the hash table ([HTmember], [HTgetPtr],
    [HTsetPtr], [HTinsert]) is not among the sources. The spec's SymbolTable
    maps a symbol identity to its leaf, with lookup and overwrite; entries
    are addressed by the index at which they were inserted. *)
Abbreviation HTable := (list (aterm * option nat)) (only parsing).

Fixpoint HTmember_from (i : nat) (t : HTable) (a : aterm) : option nat :=
  match t with
  | [] => None
  | (k, _) :: t' => if aterm_eqb k a then Some i else HTmember_from (S i) t' a
  end.
Definition HTmember (t : HTable) (a : aterm) : option nat := HTmember_from 0 t a.
Definition HTgetPtr (t : HTable) (i : nat) : ptr :=
  match t !! i with Some (_, p) => p | None => None end.
Definition HTsetPtr (t : HTable) (i : nat) (p : ptr) : HTable :=
  match t !! i with Some (k, _) => <[i := (k, p)]> t | None => t end.
Definition HTinsert (t : HTable) (a : aterm) (p : ptr) : HTable := t ++ [(a, p)].

(** ** Sibling index (block list) *)

Abbreviation BList := (list nat) (only parsing).

(** Modelled from the spec: the block list ([BLinit], [BLinsert], [BLswap],
    [Blast], [Bprevious]) is not among the sources. The spec's SiblingIndex
    is a flat order of all nodes; a block is a maximal contiguous run of
    equal weight; a new node is registered immediately after the escape
    leaf, which is the first node of the order; swap exchanges the positions
    of two nodes; the weight of the current node is incremented after the
    swap. *)
Definition BLinit : BList := [].

Definition BLinsert (bl : BList) (node : nat) : BList :=
  match bl with
  | [] => [node]
  | first :: rest => first :: node :: rest
  end.

Definition exchange (a b : nat) (x : nat) : nat :=
  if Nat.eqb x a then b else if Nat.eqb x b then a else x.

Definition BLswap (h : Heap) (bl : BList) (node1 : nat) (node2 : ptr)
  : option (Heap * BList) :=
  let bl' := match node2 with
             | Some n2 => map (exchange node1 n2) bl
             | None => bl
             end in
  h' ← store h node1 (λ nd, set_frequency (frequency nd + 1)%N nd);
  Some (h', bl').

(** Last node of the run of weight [w] that continues [prev] through [l]. *)
Fixpoint run_end (h : Heap) (w : N) (prev : nat) (l : BList) : nat :=
  match l with
  | [] => prev
  | x :: l' => if N.eqb (weight h x) w then run_end h w x l' else prev
  end.

(** [Blast(current->block)]: the last node of the block holding [current]. *)
Fixpoint Blast (h : Heap) (bl : BList) (current : nat) : option nat :=
  match bl with
  | [] => None
  | x :: bl' =>
      if Nat.eqb x current then Some (run_end h (weight h current) current bl')
      else Blast h bl' current
  end.

Fixpoint Bprevious_from (prev : nat) (bl : BList) (node : nat) : ptr :=
  match bl with
  | [] => None
  | x :: bl' => if Nat.eqb x node then Some prev else Bprevious_from x bl' node
  end.

(** [Bprevious(node)]: the node before [node] in the order, null at the front. *)
Definition Bprevious (bl : BList) (node : nat) : ptr :=
  match bl with
  | [] => None
  | x :: bl' => if Nat.eqb x node then None else Bprevious_from x bl' node
  end.

(** ** Literal coder *)

(** Modelled from the spec: the LZ coder ([LZinit], [LZwriteATerm],
    [LZreadATerm], [LZwriteInt], [LZreadInt]) and the constant [NO_INT] are
    not among the sources. The spec's LiteralCoder is a black box that
    writes a symbol's bits and reads them back; a reader gets the incoming
    value of its output parameter and returns the outgoing one. *)
Record LiteralCoder := mk_LiteralCoder {
  LZbuffer : Type;
  LZinit : LZbuffer;
  LZwriteATerm : LZbuffer → aterm → BitStream * LZbuffer;
  LZreadATerm : BitStream → LZbuffer → aterm → bool * aterm * LZbuffer * BitStream;
  LZwriteInt : LZbuffer → Z → BitStream * LZbuffer;
  LZreadInt : BitStream → LZbuffer → Z → bool * Z * LZbuffer * BitStream;
  NO_INT : Z
}.

(** ** The engine *)

Section Engine.

Variable lz : LiteralCoder.

Record HFtree := mk_HFtree {
  heap : Heap;
  codes : ptr;
  top : ptr;
  terms : HTable;
  blockList : BList;
  buffer : LZbuffer lz
}.

Definition with_heap (tree : HFtree) (h : Heap) : HFtree :=
  mk_HFtree h (codes tree) (top tree) (terms tree) (blockList tree) (buffer tree).
Definition with_codes (tree : HFtree) (c : ptr) : HFtree :=
  mk_HFtree (heap tree) c (top tree) (terms tree) (blockList tree) (buffer tree).
Definition with_terms (tree : HFtree) (t : HTable) : HFtree :=
  mk_HFtree (heap tree) (codes tree) (top tree) t (blockList tree) (buffer tree).
Definition with_blockList (tree : HFtree) (bl : BList) : HFtree :=
  mk_HFtree (heap tree) (codes tree) (top tree) (terms tree) bl (buffer tree).
Definition with_buffer (tree : HFtree) (b : LZbuffer lz) : HFtree :=
  mk_HFtree (heap tree) (codes tree) (top tree) (terms tree) (blockList tree) b.

(** [HFinit]: the root is allocated first, the escape leaf second; the
    escape leaf is registered before the root. *)
Definition HFinit (terms0 : HTable) : HFtree :=
  let root := mk_HFnode None (Some 1) None 0%N aterm_null in
  let escape := mk_HFnode None None (Some 0) 0%N ESCAPE_SEQUENCE in
  mk_HFtree [root; escape] (Some 0) (Some 1) terms0
    (BLinsert (BLinsert BLinit 1) 0) (LZinit lz).

(** [a->parent==b || b->parent==a], the second test made only when the
    first fails. *)
Definition linked (h : Heap) (a b : nat) : option bool :=
  an ← h !! a;
  if ptr_eqb (parent an) (Some b) then Some true
  else bn ← h !! b; Some (ptr_eqb (parent bn) (Some a)).

Definition last_unless_linked (h : Heap) (current last : nat) : option ptr :=
  b ← linked h current last;
  Some (if b : bool then @None nat else Some last).

(** [current->parent==prelast || (prelast && prelast->parent==current)] *)
Definition linked_to_prelast (h : Heap) (current : nat) (prelast : ptr) : option bool :=
  cur ← h !! current;
  if ptr_eqb (parent cur) prelast then Some true
  else
    match prelast with
    | None => Some false
    | Some p => pn ← h !! p; Some (ptr_eqb (parent pn) (Some current))
    end.

Definition HFsuccessor (tree : HFtree) (current : nat) : option ptr :=
  last ← Blast (heap tree) (blockList tree) current;
  let prelast := Bprevious (blockList tree) last in
  if Nat.eqb last current then Some None
  else if ptr_eqb (Some current) prelast then
    last_unless_linked (heap tree) current last
  else
    b ← linked_to_prelast (heap tree) current prelast;
    if b : bool then last_unless_linked (heap tree) current last
    else Some prelast.

(** The location [HFswap] writes through: [root], [&p->low] or [&p->high]. *)
Inductive slot := slot_root | slot_low (p : nat) | slot_high (p : nat).

Definition parent_slot (tree : HFtree) (node : nat) : option slot :=
  if ptr_eqb (codes tree) (Some node) then Some slot_root
  else
    nd ← heap tree !! node;
    p ← parent nd;
    pn ← heap tree !! p;
    if ptr_eqb (Some node) (low pn) then Some (slot_low p) else Some (slot_high p).

Definition write_slot (tree : HFtree) (s : slot) (v : ptr) : option HFtree :=
  match s with
  | slot_root => Some (with_codes tree v)
  | slot_low p => h ← store (heap tree) p (set_low v); Some (with_heap tree h)
  | slot_high p => h ← store (heap tree) p (set_high v); Some (with_heap tree h)
  end.

Definition HFswap (tree : HFtree) (node1 node2 : nat) : option HFtree :=
  parent1Ptr ← parent_slot tree node1;
  parent2Ptr ← parent_slot tree node2;
  t1 ← write_slot tree parent1Ptr (Some node2);
  t2 ← write_slot t1 parent2Ptr (Some node1);
  n2 ← heap t2 !! node2;
  let tmp := parent n2 in
  n1 ← heap t2 !! node1;
  h3 ← store (heap t2) node2 (set_parent (parent n1));
  h4 ← store h3 node1 (set_parent tmp);
  Some (with_heap t2 h4).

(** One pass of the body of the loop of [HFupdate]. *)
Definition HFupdate_step (tree : HFtree) (current : nat) : option HFtree :=
  successor ← HFsuccessor tree current;
  '(h, bl) ← BLswap (heap tree) (blockList tree) current successor;
  let tree1 := with_blockList (with_heap tree h) bl in
  match successor with
  | None => Some tree1
  | Some s => HFswap tree1 current s
  end.

Fixpoint HFupdate_loop (fuel : nat) (tree : HFtree) (current : ptr) : option HFtree :=
  match current with
  | None => Some tree
  | Some c =>
      match fuel with
      | 0 => None
      | S fuel' =>
          tree' ← HFupdate_step tree c;
          nd ← heap tree' !! c;
          HFupdate_loop fuel' tree' (parent nd)
      end
  end.

(** The loop climbs one parent link per pass, so a tree of [n] nodes needs
    at most [n] passes. *)
Definition HFupdate (tree : HFtree) (current : ptr) : option HFtree :=
  HFupdate_loop (length (heap tree)) tree current.

Fixpoint HFwriteCode_rec (fuel : nat) (h : Heap) (fp : BitStream) (node : nat)
  : option BitStream :=
  match fuel with
  | 0 => None
  | S fuel' =>
      nd ← h !! node;
      match parent nd with
      | None => Some fp
      | Some p =>
          fp' ← HFwriteCode_rec fuel' h fp p;
          pn ← h !! p;
          Some (BSwriteBit fp' (ptr_eqb (Some node) (high pn)))
      end
  end.

Definition HFwriteCode (tree : HFtree) (fp : BitStream) (node : nat) : option BitStream :=
  HFwriteCode_rec (length (heap tree)) (heap tree) fp node.

(** [if (HTmember(..)) HTsetPtr(..) else HTinsert(..)] *)
Definition HTbind (t : HTable) (a : aterm) (p : ptr) : HTable :=
  match HTmember t a with
  | Some index => HTsetPtr t index p
  | None => HTinsert t a p
  end.

Definition HFadd (tree : HFtree) (t : aterm) : option (HFtree * nat) :=
  tmp ← top tree;
  tmpn ← heap tree !! tmp;
  p ← parent tmpn;
  pn ← heap tree !! p;
  match high pn with
  | None =>
      let newNode := length (heap tree) in
      let h1 := heap tree ++ [mk_HFnode None None (Some p) 0%N t] in
      h2 ← store h1 p (set_high (Some newNode));
      Some (mk_HFtree h2 (codes tree) (top tree) (HTbind (terms tree) t (Some newNode))
              (BLinsert (blockList tree) newNode) (buffer tree), newNode)
  | Some _ =>
      let newNode := length (heap tree) in
      let leaf := S newNode in
      let h1 := heap tree ++ [mk_HFnode None None (Some p) (frequency tmpn) aterm_null] in
      h2 ← store h1 p (if ptr_eqb (low pn) (Some tmp) then set_low (Some newNode)
                       else set_high (Some newNode));
      h3 ← store h2 newNode (set_low (Some tmp));
      h4 ← store h3 tmp (set_parent (Some newNode));
      let h5 := h4 ++ [mk_HFnode None None (Some newNode) 0%N t] in
      h6 ← store h5 newNode (set_high (Some leaf));
      Some (mk_HFtree h6 (codes tree) (top tree) (HTbind (terms tree) t (Some leaf))
              (BLinsert (BLinsert (blockList tree) newNode) leaf) (buffer tree), leaf)
  end.

(** [HTmember(terms,term,&index) && HTgetPtr(terms,index)] *)
Definition HTknown (t : HTable) (a : aterm) : ptr :=
  match HTmember t a with
  | Some index => HTgetPtr t index
  | None => None
  end.

Definition known_leaf (tree : HFtree) (t : aterm) : ptr := HTknown (terms tree) t.

Definition is_leaf (nd : HFnode) : bool :=
  ptr_eqb (high nd) None && ptr_eqb (low nd) None.

(** The escape branch shared by the two encoders, after the literal has
    been written. *)
Definition encode_new (tree : HFtree) (bs : BitStream) (t : aterm)
  : option (Z * BitStream * HFtree) :=
  '(tree2, tmp) ← HFadd tree t;
  tree3 ← HFupdate tree2 (Some tmp);
  Some (0%Z, bs, tree3).

Definition HFencodeATerm (bs : BitStream) (tree : HFtree) (t : aterm)
  : option (Z * BitStream * HFtree) :=
  let t := if aterm_eqb t aterm_null then NO_ATERM else t in
  match known_leaf tree t with
  | Some tmp =>
      bs1 ← HFwriteCode tree bs tmp;
      tree1 ← HFupdate tree (Some tmp);
      Some (1%Z, bs1, tree1)
  | None =>
      tmp ← top tree;
      bs1 ← HFwriteCode tree bs tmp;
      let '(lit, buf) := LZwriteATerm lz (buffer tree) t in
      encode_new (with_buffer tree buf) (bs1 ++ lit) t
  end.

Definition HFencodeIndex (bs : BitStream) (tree : HFtree) (index : Z)
  : option (Z * BitStream * HFtree) :=
  let t := aterm_int index in
  match known_leaf tree t with
  | Some tmp =>
      bs1 ← HFwriteCode tree bs tmp;
      tree1 ← HFupdate tree (Some tmp);
      Some (1%Z, bs1, tree1)
  | None =>
      tmp ← top tree;
      bs1 ← HFwriteCode tree bs tmp;
      let '(lit, buf) := LZwriteInt lz (buffer tree) index in
      encode_new (with_buffer tree buf) (bs1 ++ lit) t
  end.

(** What a decoder hands back: the return value, the output parameter, the
    tree and the rest of the stream. *)
Record decoded (A : Type) := mk_decoded {
  d_ret : Z;
  d_out : A;
  d_tree : HFtree;
  d_rest : BitStream
}.
Arguments mk_decoded {A} _ _ _ _.
Arguments d_ret {A} _.
Arguments d_out {A} _.
Arguments d_tree {A} _.
Arguments d_rest {A} _.

(** The leaf case of [HFdecodeATerm]; [*term] has been set to the leaf's term. *)
Definition decode_leaf_ATerm (fp : BitStream) (tree : HFtree) (current : nat)
  (nd : HFnode) : option (decoded aterm) :=
  let t := term nd in
  if aterm_eqb t ESCAPE_SEQUENCE then
    match LZreadATerm lz fp (buffer tree) t with
    | (true, t', buf, fp') =>
        '(tree2, leaf) ← HFadd (with_buffer tree buf) t';
        tree3 ← HFupdate tree2 (Some leaf);
        if aterm_eqb t' NO_ATERM then Some (mk_decoded 0%Z aterm_null tree3 fp')
        else Some (mk_decoded 1%Z t' tree3 fp')
    | (false, t', buf, fp') =>
        Some (mk_decoded 0%Z t' (with_buffer tree buf) fp')
    end
  else
    tree1 ← HFupdate tree (Some current);
    if aterm_eqb t NO_ATERM then Some (mk_decoded 0%Z aterm_null tree1 fp)
    else Some (mk_decoded 1%Z t tree1 fp).

Fixpoint HFdecodeATerm_loop (fp : BitStream) (tree : HFtree) (current : ptr)
  (t : aterm) : option (decoded aterm) :=
  match current with
  | None => Some (mk_decoded 1%Z t tree fp)
  | Some c =>
      nd ← heap tree !! c;
      if is_leaf nd then decode_leaf_ATerm fp tree c nd
      else
        match fp with
        | [] => Some (mk_decoded 0%Z t tree fp)
        | bit :: fp' =>
            HFdecodeATerm_loop fp' tree (if bit then high nd else low nd) t
        end
  end.

(** [t] is the value [*term] holds when the caller makes the call. *)
Definition HFdecodeATerm (fp : BitStream) (tree : HFtree) (t : aterm)
  : option (decoded aterm) :=
  HFdecodeATerm_loop fp tree (codes tree) t.

(** [((aterm_int)term).value()] *)
Definition aterm_int_value (t : aterm) : option Z :=
  match t with aterm_int v => Some v | _ => None end.

Definition int_of_bool (b : bool) : Z := if b then 1%Z else 0%Z.

Definition decode_leaf_Index (fp : BitStream) (tree : HFtree) (current : nat)
  (nd : HFnode) (index : Z) : option (decoded Z) :=
  let t := term nd in
  if aterm_eqb t ESCAPE_SEQUENCE then
    match LZreadInt lz fp (buffer tree) index with
    | (true, index', buf, fp') =>
        '(tree2, leaf) ← HFadd (with_buffer tree buf) (aterm_int index');
        tree3 ← HFupdate tree2 (Some leaf);
        Some (mk_decoded (int_of_bool (negb (Z.eqb index' (NO_INT lz)))) index' tree3 fp')
    | (false, index', buf, fp') =>
        Some (mk_decoded 0%Z index' (with_buffer tree buf) fp')
    end
  else
    tree1 ← HFupdate tree (Some current);
    index' ← aterm_int_value t;
    Some (mk_decoded (int_of_bool (negb (Z.eqb index' (NO_INT lz)))) index' tree1 fp).

Fixpoint HFdecodeIndex_loop (fp : BitStream) (tree : HFtree) (current : ptr)
  (index : Z) : option (decoded Z) :=
  match current with
  | None => Some (mk_decoded 1%Z index tree fp)
  | Some c =>
      nd ← heap tree !! c;
      if is_leaf nd then decode_leaf_Index fp tree c nd index
      else
        match fp with
        | [] => Some (mk_decoded 0%Z index tree fp)
        | bit :: fp' =>
            HFdecodeIndex_loop fp' tree (if bit then high nd else low nd) index
        end
  end.

Definition HFdecodeIndex (fp : BitStream) (tree : HFtree) (index : Z)
  : option (decoded Z) :=
  HFdecodeIndex_loop fp tree (codes tree) index.

End Engine.

Arguments heap {lz} _.
Arguments codes {lz} _.
Arguments top {lz} _.
Arguments terms {lz} _.
Arguments blockList {lz} _.
Arguments buffer {lz} _.
Arguments mk_decoded {lz A} _ _ _ _.
Arguments d_ret {lz A} _.
Arguments d_out {lz A} _.
Arguments d_tree {lz A} _.
Arguments d_rest {lz A} _.

(** ** A literal coder to run the engine with

    Terms are written as their position in a dictionary both sides know,
    in unary; integers as a sign bit and their magnitude in unary. Reading
    fails when the stream ends inside a literal or the position is not in
    the dictionary. *)

Fixpoint unary (n : nat) : BitStream :=
  match n with
  | 0 => [false]
  | S n' => true :: unary n'
  end.

Fixpoint read_unary (fp : BitStream) : option (nat * BitStream) :=
  match fp with
  | [] => None
  | false :: fp' => Some (0, fp')
  | true :: fp' =>
      match read_unary fp' with
      | Some (n, rest) => Some (S n, rest)
      | None => None
      end
  end.

Fixpoint index_of (d : list aterm) (t : aterm) : nat :=
  match d with
  | [] => 0
  | x :: d' => if aterm_eqb x t then 0 else S (index_of d' t)
  end.

Definition dict_readATerm (d : list aterm) (fp : BitStream) (t0 : aterm)
  : bool * aterm * unit * BitStream :=
  match read_unary fp with
  | Some (n, rest) =>
      match d !! n with
      | Some t => (true, t, tt, rest)
      | None => (false, t0, tt, rest)
      end
  | None => (false, t0, tt, fp)
  end.

Definition dict_readInt (fp : BitStream) (z0 : Z) : bool * Z * unit * BitStream :=
  match fp with
  | [] => (false, z0, tt, fp)
  | sign :: fp' =>
      match read_unary fp' with
      | Some (n, rest) => (true, if sign then (- Z.of_nat n)%Z else Z.of_nat n, tt, rest)
      | None => (false, z0, tt, fp)
      end
  end.

Definition dict_coder (d : list aterm) (no_int : Z) : LiteralCoder :=
  mk_LiteralCoder unit tt
    (λ _ t, (unary (index_of d t), tt))
    (λ fp _ t0, dict_readATerm d fp t0)
    (λ _ z, (Z.ltb z 0 :: unary (Z.abs_nat z), tt))
    (λ fp _ z0, dict_readInt fp z0)
    no_int.

(** ** The descent of the decoders *)

Inductive walk :=
| walk_leaf (c : nat) (nd : HFnode) (fp : BitStream)
| walk_exhausted
| walk_null (fp : BitStream).

(** Where the loop of the decoders goes: it stops at a leaf, at the end of
    the stream, or on a null child. *)
Fixpoint descend (h : Heap) (fp : BitStream) (current : ptr) : option walk :=
  match current with
  | None => Some (walk_null fp)
  | Some c =>
      nd ← h !! c;
      if is_leaf nd then Some (walk_leaf c nd fp)
      else
        match fp with
        | [] => Some walk_exhausted
        | bit :: fp' => descend h fp' (if bit then high nd else low nd)
        end
  end.

(** ** Streams of symbols *)

Inductive symbol := sym_term (t : aterm) | sym_index (i : Z).
Inductive variant := as_term | as_index.

Definition variant_of (s : symbol) : variant :=
  match s with sym_term _ => as_term | sym_index _ => as_index end.

Section Streams.

Variable lz : LiteralCoder.

Definition HFencode (bs : BitStream) (tree : HFtree lz) (s : symbol)
  : option (Z * BitStream * HFtree lz) :=
  match s with
  | sym_term t => HFencodeATerm lz bs tree t
  | sym_index i => HFencodeIndex lz bs tree i
  end.

Fixpoint encode_all (bs : BitStream) (tree : HFtree lz) (l : list symbol)
  : option (BitStream * HFtree lz) :=
  match l with
  | [] => Some (bs, tree)
  | s :: l' =>
      '(_, bs', tree') ← HFencode bs tree s;
      encode_all bs' tree' l'
  end.

(** A call of a decoder by a caller whose output variable is fresh: a null
    term, or zero. *)
Definition HFdecode (fp : BitStream) (tree : HFtree lz) (v : variant)
  : option (decoded lz symbol) :=
  match v with
  | as_term =>
      r ← HFdecodeATerm lz fp tree aterm_null;
      Some (mk_decoded (d_ret r) (sym_term (d_out r)) (d_tree r) (d_rest r))
  | as_index =>
      r ← HFdecodeIndex lz fp tree 0%Z;
      Some (mk_decoded (d_ret r) (sym_index (d_out r)) (d_tree r) (d_rest r))
  end.

(** One call per expected symbol; every call's return value and output are
    recorded. *)
Fixpoint decode_all (fp : BitStream) (tree : HFtree lz) (vs : list variant)
  : option (list (Z * symbol) * HFtree lz * BitStream) :=
  match vs with
  | [] => Some ([], tree, fp)
  | v :: vs' =>
      r ← HFdecode fp tree v;
      '(out, tree', fp') ← decode_all (d_rest r) (d_tree r) vs';
      Some ((d_ret r, d_out r) :: out, tree', fp')
  end.

End Streams.

(** ** A small alphabet to run the engine on *)

Definition sym (name : string) : aterm := aterm_appl (mk_function_symbol name 0) [].

Definition demo_dict : list aterm :=
  [sym "A"; sym "B"; sym "C"; NO_ATERM; ESCAPE_SEQUENCE].

Definition demo_lz : LiteralCoder := dict_coder demo_dict (-1).

(** ** Induction on terms *)

Fixpoint aterm_nested_ind (P : aterm → Prop) (Hnull : P aterm_null)
  (Hint : ∀ v, P (aterm_int v))
  (Happl : ∀ f args, Forall P args → P (aterm_appl f args)) (a : aterm) : P a :=
  match a with
  | aterm_null => Hnull
  | aterm_int v => Hint v
  | aterm_appl f args =>
      Happl f args
        ((fix all (l : list aterm) : Forall P l :=
            match l with
            | [] => @List.Forall_nil _ P
            | x :: l' => @List.Forall_cons _ P x l' (aterm_nested_ind P Hnull Hint Happl x) (all l')
            end) args)
  end.


(** ** States and relations the statements use *)

(** The engine once a first symbol [t] went through it. *)
Definition after_first (lz : LiteralCoder) (t : aterm) (buf : LZbuffer lz) : HFtree lz :=
  mk_HFtree lz
    [mk_HFnode (Some 2) (Some 1) None 1%N aterm_null;
     mk_HFnode None None (Some 0) 0%N ESCAPE_SEQUENCE;
     mk_HFnode None None (Some 0) 1%N t]
    (Some 0) (Some 1) [(t, Some 2)] [1; 2; 0] buf.

(** Every node of [h] keeps its weight in [h']. *)
Definition same_weights (h h' : Heap) : Prop :=
  ∀ n, n < length h → weight h' n = weight h n.

(** The tree, the sibling index and the symbol table are the same. *)
Definition same_model {lz : LiteralCoder} (tree tree' : HFtree lz) : Prop :=
  heap tree' = heap tree ∧ codes tree' = codes tree ∧ top tree' = top tree
  ∧ terms tree' = terms tree ∧ blockList tree' = blockList tree.

(** The insertion of a new symbol followed by the update from its leaf. *)
Definition add_then_update (lz : LiteralCoder) (tree : HFtree lz) (t : aterm)
  : option (HFtree lz) :=
  '(tree2, leaf) ← HFadd lz tree t;
  HFupdate lz tree2 (Some leaf).



Definition parent_of (h : Heap) (n : nat) : ptr :=
  match h !! n with Some nd => parent nd | None => None end.
Definition low_of (h : Heap) (n : nat) : ptr :=
  match h !! n with Some nd => low nd | None => None end.
Definition high_of (h : Heap) (n : nat) : ptr :=
  match h !! n with Some nd => high nd | None => None end.
Definition term_of (h : Heap) (n : nat) : option aterm :=
  match h !! n with Some nd => Some (term nd) | None => None end.

(** The engine after the terms [A], [B] and [C] were encoded in that order. *)
Definition demo_after_ABC : HFtree demo_lz :=
  mk_HFtree demo_lz
    [mk_HFnode (Some 3) (Some 2) None 3%N aterm_null;
     mk_HFnode None None (Some 5) 0%N ESCAPE_SEQUENCE;
     mk_HFnode None None (Some 0) 1%N (sym "A");
     mk_HFnode (Some 4) (Some 5) (Some 0) 2%N aterm_null;
     mk_HFnode None None (Some 3) 1%N (sym "B");
     mk_HFnode (Some 6) (Some 1) (Some 3) 1%N aterm_null;
     mk_HFnode None None (Some 5) 1%N (sym "C")]
    (Some 0) (Some 1)
    [(sym "A", Some 2); (sym "B", Some 4); (sym "C", Some 6)]
    [1; 6; 5; 4; 2; 3; 0] tt.

(** ** The shape the engine keeps

    [tree_ok]: the parent and child links agree, every node has two children
    or none, and only the root has no parent. *)
Record tree_ok (h : Heap) (r : nat) : Prop := mk_tree_ok {
  ok_root_valid : r < length h;
  ok_root : ∀ n, n < length h → (parent_of h n = None ↔ n = r);
  ok_parent : ∀ n p, parent_of h n = Some p → low_of h p = Some n ∨ high_of h p = Some n;
  ok_child : ∀ p x, low_of h p = Some x ∨ high_of h p = Some x → parent_of h x = Some p;
  ok_binary : ∀ n, low_of h n = None ↔ high_of h n = None;
  ok_distinct : ∀ n a, low_of h n = Some a → high_of h n ≠ Some a
}.

(** [order_ok]: the sibling order lists every node once, a node before its
    parent, and two nodes with the same parent next to each other. *)
Record order_ok (h : Heap) (bl : BList) : Prop := mk_order_ok {
  ord_nodup : NoDup bl;
  ord_all : ∀ n, n ∈ bl ↔ n < length h;
  ord_parent_later : ∀ n p i j,
    parent_of h n = Some p → bl !! i = Some n → bl !! j = Some p → i < j;
  ord_siblings : ∀ a b p i j,
    a ≠ b → parent_of h a = Some p → parent_of h b = Some p →
    bl !! i = Some a → bl !! j = Some b → i = S j ∨ j = S i
}.

(** The order starts with the escape leaf, its sibling and their parent. *)
Definition prefix_ok (h : Heap) (bl : BList) (e : nat) : Prop :=
  ∃ m pe rest, bl = e :: m :: pe :: rest
               ∧ parent_of h e = Some pe ∧ parent_of h m = Some pe.

(** [weights_ok h e c]: every internal node weighs what its children weigh
    together, but for the node [c] the update is about to increment, which
    is one short; the escape leaf weighs 0, and so do at most [c] and its
    parent besides. With [c] null the tree is at rest. *)
Definition weights_ok (h : Heap) (e : nat) (c : ptr) : Prop :=
  (∀ n a b, low_of h n = Some a → high_of h n = Some b →
            (weight h n + (if decide (c = Some n) then 1 else 0) = weight h a + weight h b)%N)
  ∧ weight h e = 0%N
  ∧ (∀ n, n < length h → weight h n = 0%N →
          n = e ∨ c = Some n ∨ ∃ x, c = Some x ∧ parent_of h x = Some n).

(** The escape leaf is a leaf holding the escape marker, and the table sends
    a term to a leaf that holds it. *)
Definition table_ok (h : Heap) (tbl : HTable) (e : nat) : Prop :=
  e < length h ∧ low_of h e = None ∧ high_of h e = None
  ∧ term_of h e = Some ESCAPE_SEQUENCE
  ∧ ∀ t n, HTknown tbl t = Some n →
           low_of h n = None ∧ high_of h n = None ∧ term_of h n = Some t
           ∧ t ≠ ESCAPE_SEQUENCE.

(** What holds of the node [c] the update is at: it is not the escape leaf,
    and when it is the parent of the escape leaf its block ends with it. *)
Definition current_ok (h : Heap) (bl : BList) (e : nat) (c : ptr) : Prop :=
  match c with
  | None => True
  | Some x =>
      x < length h ∧ x ≠ e
      ∧ (parent_of h e = Some x → ∀ y, bl !! 3 = Some y → weight h y ≠ weight h x)
  end.

(** The invariant of the engine: at rest when [c] is null, at the head of
    the loop of [HFupdate] when it is the current node. *)
Definition engine_ok {lz : LiteralCoder} (tree : HFtree lz) (c : ptr) : Prop :=
  ∃ r e, codes tree = Some r ∧ top tree = Some e
         ∧ tree_ok (heap tree) r
         ∧ order_ok (heap tree) (blockList tree)
         ∧ prefix_ok (heap tree) (blockList tree) e
         ∧ weights_ok (heap tree) e c
         ∧ table_ok (heap tree) (terms tree) e
         ∧ current_ok (heap tree) (blockList tree) e c.

(** [h'] is [h] with the nodes [c] and [s] exchanged, parents included, and
    the weight of [c] incremented; with [s = c] nothing is exchanged. *)
Definition swapped_from (h h' : Heap) (c s : nat) : Prop :=
  length h' = length h
  ∧ (∀ q, low_of h' q = exchange c s <$> low_of h q)
  ∧ (∀ q, high_of h' q = exchange c s <$> high_of h q)
  ∧ (∀ q, parent_of h' q =
          if decide (q = c) then parent_of h s
          else if decide (q = s) then parent_of h c else parent_of h q)
  ∧ (∀ q, weight h' q = if decide (q = c) then (weight h q + 1)%N else weight h q)
  ∧ (∀ q, term_of h' q = term_of h q).

Definition slot_valid (h : Heap) (sl : slot) : Prop :=
  match sl with
  | slot_root => True
  | slot_low p | slot_high p => p < length h
  end.

(** [h2] is [h] after the escape leaf [e] went under a new internal node
    [n], next to a new leaf [S n] holding [t]. *)
Definition inserted_from (h h2 : Heap) (e pe : nat) (t : aterm) : Prop :=
  let n := length h in
  let rn := λ x, if decide (x = e) then n else x in
  length h2 = S (S n)
  ∧ (∀ q, parent_of h2 q =
          if decide (q = e) then Some n
          else if decide (q = n) then Some pe
          else if decide (q = S n) then Some n else parent_of h q)
  ∧ (∀ q, low_of h2 q = if decide (q = n) then Some e else rn <$> low_of h q)
  ∧ (∀ q, high_of h2 q = if decide (q = n) then Some (S n) else rn <$> high_of h q)
  ∧ (∀ q, weight h2 q = weight h q)
  ∧ (∀ q, term_of h2 q =
          if decide (q = n) then Some aterm_null
          else if decide (q = S n) then Some t else term_of h q).

(** ** Symbols a stream can carry

    A term is ordinary when it is not null and is neither the escape marker
    nor the end-of-stream sentinel; an index when it is not [NO_INT]. *)
Definition ordinary (lz : LiteralCoder) (s : symbol) : Prop :=
  match s with
  | sym_term t => t ≠ aterm_null ∧ t ≠ ESCAPE_SEQUENCE ∧ t ≠ NO_ATERM
  | sym_index i => i ≠ NO_INT lz
  end.

(** The literal coder reads back what it wrote for the symbol, from any
    buffer, leaving what follows in the stream and the buffer as the writer
    left it. *)
Definition reads_back (lz : LiteralCoder) (s : symbol) : Prop :=
  match s with
  | sym_term t =>
      ∀ buf t0 rest,
        LZreadATerm lz ((LZwriteATerm lz buf t).1 ++ rest) buf t0
        = (true, t, (LZwriteATerm lz buf t).2, rest)
  | sym_index i =>
      ∀ buf i0 rest,
        LZreadInt lz ((LZwriteInt lz buf i).1 ++ rest) buf i0
        = (true, i, (LZwriteInt lz buf i).2, rest)
  end.

(** The term a symbol is in the tree. *)
Definition term_of_symbol (s : symbol) : aterm :=
  match s with sym_term t => t | sym_index i => aterm_int i end.

(** What remains of the sibling property: the order lists every node once,
    starting with the escape leaf, a node before its parent, which is at
    least as heavy, and two nodes with the same parent next to each other. *)
Definition sibling_order_ok {lz : LiteralCoder} (tree : HFtree lz) : Prop :=
  order_ok (heap tree) (blockList tree)
  ∧ head (blockList tree) = top tree
  ∧ ∀ n p, parent_of (heap tree) n = Some p →
           (weight (heap tree) n ≤ weight (heap tree) p)%N.



From Stdlib Require Import Ascii.

(** ** Debug output and teardown *)

(** [HFdumpCode]: the code of a node as the characters 0 and 1 on a file,
    here the characters written so far. *)
Fixpoint HFdumpCode_rec (fuel : nat) (h : Heap) (fp : list ascii) (node : nat)
  : option (list ascii) :=
  match fuel with
  | 0 => None
  | S fuel' =>
      nd ← h !! node;
      match parent nd with
      | None => Some fp
      | Some p =>
          fp' ← HFdumpCode_rec fuel' h fp p;
          pn ← h !! p;
          Some (fp' ++ [if ptr_eqb (Some node) (high pn) then "1"%char else "0"%char])
      end
  end.

Definition HFdumpCode {lz : LiteralCoder} (tree : HFtree lz) (fp : list ascii) (node : nat)
  : option (list ascii) :=
  HFdumpCode_rec (length (heap tree)) (heap tree) fp node.

(** [HFfreeLoop]: the nodes in the order they are deleted, the low subtree
    first, the high subtree next, the node last. *)
Fixpoint HFfreeLoop (fuel : nat) (h : Heap) (node : ptr) : option (list nat) :=
  match node with
  | None => Some []
  | Some n =>
      match fuel with
      | 0 => None
      | S fuel' =>
          nd ← h !! n;
          l ← HFfreeLoop fuel' h (low nd);
          r ← HFfreeLoop fuel' h (high nd);
          Some (l ++ r ++ [n])
      end
  end.

(** [HFfree]: the nodes deleted, in order. The recursion of [HFfreeLoop]
    goes one level down per call, so a tree of [n] nodes needs a depth of at
    most [n].

    Modelled from the spec: [BLfree], called first, is not among the
    sources; the teardown of the spec releases the sibling index apart from
    the tree, so it deletes no node. *)
Definition HFfree {lz : LiteralCoder} (tree : HFtree lz) : option (list nat) :=
  HFfreeLoop (length (heap tree)) (heap tree) (codes tree).

(** [HFstats] computes with [long], [unsigned long] and [int]; their sizes
    are those of the platform. *)
Record CInts := mk_CInts { long_bits : Z; int_max : Z }.

(** The value of an [unsigned long], and the [long] with the same bits. *)
Definition to_ulong (p : CInts) (z : Z) : Z := (z mod 2 ^ long_bits p)%Z.
Definition to_long (p : CInts) (z : Z) : Z :=
  let u := (z mod 2 ^ long_bits p)%Z in
  if (u <? 2 ^ (long_bits p - 1))%Z then u else (u - 2 ^ long_bits p)%Z.

(** [HFstats]: the sum after the call and the averages printed. A leaf adds
    [tree->frequency*level], a product of [unsigned long], to [*sum]; the
    other nodes pass [level+1] to their children, the low one first; the
    node without parent prints [*sum/tree->frequency], a quotient of
    [unsigned long] printed as a [long]. An overflow of [level+1] and a
    division by zero have no defined result. *)
Fixpoint HFstats_rec (p : CInts) (fuel : nat) (h : Heap) (tree : ptr) (level sum : Z)
  : option (Z * list Z) :=
  match tree with
  | None => Some (sum, [])
  | Some n =>
      match fuel with
      | 0 => None
      | S fuel' =>
          nd ← h !! n;
          '(sum1, out1) ←
            (if ptr_eqb (low nd) None && ptr_eqb (high nd) None then
               Some (to_long p (to_ulong p sum
                                + to_ulong p (to_ulong p (Z.of_N (frequency nd))
                                              * to_ulong p level)), [])
             else if (level <? int_max p)%Z then
               '(s1, o1) ← HFstats_rec p fuel' h (low nd) (level + 1) sum;
               '(s2, o2) ← HFstats_rec p fuel' h (high nd) (level + 1) s1;
               Some (s2, o1 ++ o2)
             else None);
          match parent nd with
          | Some _ => Some (sum1, out1)
          | None =>
              if (to_ulong p (Z.of_N (frequency nd)) =? 0)%Z then None
              else Some (sum1,
                         out1 ++ [to_long p (to_ulong p sum1
                                             / to_ulong p (Z.of_N (frequency nd)))])
          end
      end
  end.

Definition HFstats {lz : LiteralCoder} (p : CInts) (tree : HFtree lz) (node : ptr)
  (level sum : Z) : option (Z * list Z) :=
  HFstats_rec p (length (heap tree)) (heap tree) node level sum.

(** ** Notions the further statements use *)

(** The characters of a code. *)
Definition code_chars (bits : BitStream) : list ascii :=
  map (λ b : bool, if b then "1"%char else "0"%char) bits.

(** [y] is [x] or is met below [x]: the parent links lead from [y] to [x]. *)
Inductive below (h : Heap) (x : nat) : nat → Prop :=
| below_refl : below h x x
| below_step (y p : nat) : parent_of h y = Some p → below h x p → below h x y.

(** The number of bits of the code of a node. *)
Definition code_length (h : Heap) (q : nat) : Z :=
  match HFwriteCode_rec (length h) h [] q with
  | Some code => Z.of_nat (length code)
  | None => 0%Z
  end.

(** What a node adds to the sum of [HFstats]: a leaf its weight times the
    length of its code, another node nothing. *)
Definition path_weight (h : Heap) (q : nat) : Z :=
  match low_of h q, high_of h q with
  | None, None => (Z.of_N (weight h q) * code_length h q)%Z
  | _, _ => 0%Z
  end.

(** The weights of the leaves, each times the length of its code, added up
    over the nodes [l]. *)
Definition path_weights (h : Heap) (l : list nat) : Z :=
  foldr (λ q acc, (path_weight h q + acc)%Z) 0%Z l.

Definition weighted_path_length {lz : LiteralCoder} (tree : HFtree lz) : Z :=
  path_weights (heap tree) (seq 0 (length (heap tree))).

(** How often the term [t] stands in a stream. *)
Fixpoint occurrences (t : aterm) (syms : list symbol) : nat :=
  match syms with
  | [] => 0
  | s :: l => (if aterm_eqb (term_of_symbol s) t then 1 else 0) + occurrences t l
  end.

(** How many different terms stand in a stream. *)
Fixpoint distinct_terms (syms : list symbol) : nat :=
  match syms with
  | [] => 0
  | s :: l =>
      if Nat.eqb (occurrences (term_of_symbol s) l) 0 then S (distinct_terms l)
      else distinct_terms l
  end.

(** What the engine has kept of the stream [syms] it encoded: the table
    knows the terms of the stream and no other, the leaf of a term weighs
    the number of its occurrences, the root weighs the length of the stream,
    there are two nodes for every different term and one more, the two
    nodes of the fresh tree when the stream is empty, and every leaf is the
    escape leaf or the leaf of a term the table knows. *)
Definition history {lz : LiteralCoder} (tree : HFtree lz) (syms : list symbol) : Prop :=
  (∀ t, match known_leaf lz tree t with
        | Some n => weight (heap tree) n = N.of_nat (occurrences t syms)
                    ∧ 0 < occurrences t syms
        | None => occurrences t syms = 0
        end)
  ∧ (∀ r, codes tree = Some r → weight (heap tree) r = N.of_nat (length syms))
  ∧ length (heap tree) = Nat.max 2 (2 * distinct_terms syms + 1)
  ∧ (∀ q, q < length (heap tree) → low_of (heap tree) q = None →
          top tree = Some q ∨ ∃ t, known_leaf lz tree t = Some q).

(** A short stream over the small alphabet: a term, an index, the term
    again, another term. *)
Definition demo_stream : list symbol :=
  [sym_term (sym "A"); sym_index 2; sym_term (sym "A"); sym_term (sym "B")].

(** ** Streams that carry the sentinels

    Every symbol but the escape marker can be sent. A null term is sent as
    the sentinel; the decoder answers a sentinel with 0 and a null term, an
    index equal to [NO_INT] with 0 and that index, anything else with 1. *)
Definition sendable (s : symbol) : Prop := term_of_symbol s ≠ ESCAPE_SEQUENCE.

Definition literal_of (s : symbol) : symbol :=
  match s with
  | sym_term t => sym_term (if aterm_eqb t aterm_null then NO_ATERM else t)
  | sym_index i => sym_index i
  end.

Definition received (lz : LiteralCoder) (s : symbol) : Z * symbol :=
  match s with
  | sym_term t =>
      if aterm_eqb t aterm_null || aterm_eqb t NO_ATERM then (0%Z, sym_term aterm_null)
      else (1%Z, sym_term t)
  | sym_index i => (if Z.eqb i (NO_INT lz) then 0%Z else 1%Z, sym_index i)
  end.

(** The literal coder never reads the escape marker. *)
Definition never_reads_escape (lz : LiteralCoder) : Prop :=
  ∀ fp buf t0 t buf' fp',
    LZreadATerm lz fp buf t0 = (true, t, buf', fp') → t ≠ ESCAPE_SEQUENCE.

(** A dictionary without the reserved terms. *)
Definition plain_lz : LiteralCoder := dict_coder [sym "A"; sym "B"] (-1).

(** Every leaf holds the escape marker or an integer. *)
Definition ints_only {lz : LiteralCoder} (tree : HFtree lz) : Prop :=
  ∀ q t, low_of (heap tree) q = None → term_of (heap tree) q = Some t →
         t = ESCAPE_SEQUENCE ∨ ∃ i, t = aterm_int i.
(** ** Equality of terms and pointers *)

Lemma fs_eqb_eq (f g : function_symbol) : fs_eqb f g = true ↔ f = g.
Proof.
  destruct f as [n1 a1], g as [n2 a2]. unfold fs_eqb. simpl.
  rewrite andb_true_iff, String.eqb_eq, Nat.eqb_eq.
  split; [intros [-> ->]; reflexivity | intros H; injection H; auto].
Qed.

Lemma aterm_eqb_eq (a b : aterm) : aterm_eqb a b = true ↔ a = b.
Proof.
  revert b. induction a as [| v | f args IH] using aterm_nested_ind; intros [| w | g brgs];
    simpl; try (split; [discriminate | discriminate]); try tauto.
  - rewrite Z.eqb_eq. split; [intros ->; reflexivity | intros H; injection H; auto].
  - rewrite andb_true_iff, fs_eqb_eq.
    assert (Hl : ∀ ys,
      (fix all2 (xs ys : list aterm) : bool :=
         match xs, ys with
         | [], [] => true
         | x :: xs', y :: ys' => aterm_eqb x y && all2 xs' ys'
         | _, _ => false
         end) args ys = true ↔ args = ys).
    { induction IH as [| x xs Hx _ IHxs]; intros [| y ys]; simpl;
        try (split; [discriminate | discriminate]); try tauto.
      rewrite andb_true_iff, Hx, IHxs.
      split; [intros [-> ->]; reflexivity | intros H; injection H; auto]. }
    rewrite Hl. split; [intros [-> ->]; reflexivity | intros H; injection H; auto].
Qed.

Lemma aterm_eqb_refl (a : aterm) : aterm_eqb a a = true.
Proof. apply aterm_eqb_eq. reflexivity. Qed.

Lemma aterm_eqb_neq (a b : aterm) : a ≠ b → aterm_eqb a b = false.
Proof.
  intros H. destruct (aterm_eqb a b) eqn:E; [| reflexivity].
  apply aterm_eqb_eq in E. contradiction.
Qed.

Lemma ptr_eqb_eq (p q : ptr) : ptr_eqb p q = true ↔ p = q.
Proof.
  destruct p, q; simpl; try (split; [discriminate | discriminate]); try tauto.
  rewrite Nat.eqb_eq. split; [intros ->; reflexivity | intros H; injection H; auto].
Qed.

Lemma ptr_eqb_refl (p : ptr) : ptr_eqb p p = true.
Proof. apply ptr_eqb_eq. reflexivity. Qed.

Lemma ptr_eqb_neq (p q : ptr) : p ≠ q → ptr_eqb p q = false.
Proof.
  intros H. destruct (ptr_eqb p q) eqn:E; [| reflexivity].
  apply ptr_eqb_eq in E. contradiction.
Qed.

(** ** Stores and lookups *)

Lemma store_Some (h : Heap) (n : nat) (f : HFnode → HFnode) (nd : HFnode) :
  h !! n = Some nd → store h n f = Some (<[n := f nd]> h).
Proof. intros H. unfold store. rewrite H. reflexivity. Qed.

Lemma store_inv (h h' : Heap) (n : nat) (f : HFnode → HFnode) :
  store h n f = Some h' → ∃ nd, h !! n = Some nd ∧ h' = <[n := f nd]> h.
Proof.
  unfold store. destruct (h !! n) as [nd |] eqn:E; simpl; [| discriminate].
  intros H. injection H as <-. eauto.
Qed.

Lemma store_length (h h' : Heap) (n : nat) (f : HFnode → HFnode) :
  store h n f = Some h' → length h' = length h.
Proof. intros (nd & _ & ->)%store_inv. apply length_insert. Qed.

Lemma store_lookup_eq (h h' : Heap) (n : nat) (f : HFnode → HFnode) :
  store h n f = Some h' → ∃ nd, h !! n = Some nd ∧ h' !! n = Some (f nd).
Proof.
  intros (nd & Hn & ->)%store_inv. exists nd. split; [assumption |].
  apply list_lookup_insert_eq. eapply lookup_lt_Some, Hn.
Qed.

Lemma store_lookup_ne (h h' : Heap) (n m : nat) (f : HFnode → HFnode) :
  store h n f = Some h' → n ≠ m → h' !! m = h !! m.
Proof. intros (nd & _ & ->)%store_inv Hne. apply list_lookup_insert_ne, Hne. Qed.

(** ** The descent of the decoders, factored out of the loops *)

Section Descent.

Variable lz : LiteralCoder.

Lemma HFdecodeATerm_loop_descend (fp : BitStream) (tree : HFtree lz) (cur : ptr) (t : aterm) :
  HFdecodeATerm_loop lz fp tree cur t =
  w ← descend (heap tree) fp cur;
  match w with
  | walk_leaf c nd fp' => decode_leaf_ATerm lz fp' tree c nd
  | walk_exhausted => Some (mk_decoded 0%Z t tree [])
  | walk_null fp' => Some (mk_decoded 1%Z t tree fp')
  end.
Proof.
  revert cur. induction fp as [| b fp IH]; intros [c |]; simpl; try reflexivity.
  - destruct (heap tree !! c) as [nd |]; simpl; [| reflexivity].
    destruct (is_leaf nd); reflexivity.
  - destruct (heap tree !! c) as [nd |]; simpl; [| reflexivity].
    destruct (is_leaf nd); [reflexivity | apply IH].
Qed.

Lemma HFdecodeIndex_loop_descend (fp : BitStream) (tree : HFtree lz) (cur : ptr) (i : Z) :
  HFdecodeIndex_loop lz fp tree cur i =
  w ← descend (heap tree) fp cur;
  match w with
  | walk_leaf c nd fp' => decode_leaf_Index lz fp' tree c nd i
  | walk_exhausted => Some (mk_decoded 0%Z i tree [])
  | walk_null fp' => Some (mk_decoded 1%Z i tree fp')
  end.
Proof.
  revert cur. induction fp as [| b fp IH]; intros [c |]; simpl; try reflexivity.
  - destruct (heap tree !! c) as [nd |]; simpl; [| reflexivity].
    destruct (is_leaf nd); reflexivity.
  - destruct (heap tree !! c) as [nd |]; simpl; [| reflexivity].
    destruct (is_leaf nd); [reflexivity | apply IH].
Qed.

End Descent.

(** ** The first symbols of a stream *)

Section FirstSymbols.

Variable lz : LiteralCoder.

Lemma encode_new_fresh (bs : BitStream) (t : aterm) (buf : LZbuffer lz) :
  encode_new lz (with_buffer lz (HFinit lz []) buf) bs t
  = Some (0%Z, bs, after_first lz t buf).
Proof. reflexivity. Qed.

Lemma HFencodeATerm_fresh (bs : BitStream) (t : aterm) :
  let t' := if aterm_eqb t aterm_null then NO_ATERM else t in
  HFencodeATerm lz bs (HFinit lz []) t
  = Some (0%Z, bs ++ [false] ++ (LZwriteATerm lz (LZinit lz) t').1,
          after_first lz t' (LZwriteATerm lz (LZinit lz) t').2).
Proof.
  intros t'. unfold HFencodeATerm. fold t'. simpl.
  destruct (LZwriteATerm lz (LZinit lz) t') as [lit buf]. simpl.
  rewrite encode_new_fresh. unfold BSwriteBit. rewrite <- app_assoc. reflexivity.
Qed.

Lemma HFencodeIndex_fresh (bs : BitStream) (i : Z) :
  HFencodeIndex lz bs (HFinit lz []) i
  = Some (0%Z, bs ++ [false] ++ (LZwriteInt lz (LZinit lz) i).1,
          after_first lz (aterm_int i) (LZwriteInt lz (LZinit lz) i).2).
Proof.
  unfold HFencodeIndex. simpl.
  destruct (LZwriteInt lz (LZinit lz) i) as [lit buf]. simpl.
  rewrite encode_new_fresh. unfold BSwriteBit. rewrite <- app_assoc. reflexivity.
Qed.

Lemma known_leaf_after_first (t : aterm) (buf : LZbuffer lz) :
  known_leaf lz (after_first lz t buf) t = Some 2.
Proof. unfold known_leaf, HTknown, HTmember. simpl. rewrite aterm_eqb_refl. reflexivity. Qed.

Lemma encode_known_after_first (bs : BitStream) (t : aterm) (buf : LZbuffer lz) :
  ∃ tree2,
    HFwriteCode lz (after_first lz t buf) bs 2 = Some (bs ++ [true])
    ∧ HFupdate lz (after_first lz t buf) (Some 2) = Some tree2.
Proof. eexists. split; reflexivity. Qed.

(** C8: on a fresh engine the first symbol is written as the bit 0 followed
    by its literal, and the same symbol written again as the single bit 1,
    for terms (a null term counting as the sentinel it is replaced by) and
    for indices. *)
Theorem first_bits_on_the_wire (t : aterm) (i : Z) (bs bs2 : BitStream) :
  let t' := if aterm_eqb t aterm_null then NO_ATERM else t in
  (∃ tree1 tree2,
     HFencodeATerm lz bs (HFinit lz []) t
     = Some (0%Z, bs ++ [false] ++ (LZwriteATerm lz (LZinit lz) t').1, tree1)
     ∧ HFencodeATerm lz bs2 tree1 t = Some (1%Z, bs2 ++ [true], tree2))
  ∧ (∃ tree1 tree2,
     HFencodeIndex lz bs (HFinit lz []) i
     = Some (0%Z, bs ++ [false] ++ (LZwriteInt lz (LZinit lz) i).1, tree1)
     ∧ HFencodeIndex lz bs2 tree1 i = Some (1%Z, bs2 ++ [true], tree2)).
Proof.
  intros t'. split.
  - destruct (encode_known_after_first bs2 t' (LZwriteATerm lz (LZinit lz) t').2)
      as (tree2 & Hcode & Hupd).
    eexists _, tree2. split; [apply HFencodeATerm_fresh |].
    unfold HFencodeATerm. fold t'. rewrite known_leaf_after_first.
    rewrite Hcode. cbn [mbind option_bind]. rewrite Hupd. reflexivity.
  - destruct (encode_known_after_first bs2 (aterm_int i) (LZwriteInt lz (LZinit lz) i).2)
      as (tree2 & Hcode & Hupd).
    eexists _, tree2. split; [apply HFencodeIndex_fresh |].
    unfold HFencodeIndex. rewrite known_leaf_after_first.
    rewrite Hcode. cbn [mbind option_bind]. rewrite Hupd. reflexivity.
Qed.

(** C9: a null term given to [HFencodeATerm] is encoded exactly as the
    sentinel [NO_ATERM]; on a fresh engine that is the escape bit followed by
    the sentinel's literal, and the sentinel gets a leaf of its own. *)
Theorem HFencodeATerm_null_is_sentinel (bs : BitStream) (tree : HFtree lz) :
  HFencodeATerm lz bs tree aterm_null = HFencodeATerm lz bs tree NO_ATERM
  ∧ ∃ tree1,
      HFencodeATerm lz bs (HFinit lz []) aterm_null
      = Some (0%Z, bs ++ [false] ++ (LZwriteATerm lz (LZinit lz) NO_ATERM).1, tree1)
      ∧ known_leaf lz tree1 NO_ATERM = Some 2.
Proof.
  split; [reflexivity |].
  eexists. split; [apply (HFencodeATerm_fresh bs aterm_null) |].
  apply known_leaf_after_first.
Qed.

End FirstSymbols.

(** ** Insertion *)

Section Insertion.

Variable lz : LiteralCoder.

Lemma HFadd_normal (tree : HFtree lz) (t : aterm) (e p x : nat) (en pn : HFnode) :
  top tree = Some e → heap tree !! e = Some en → parent en = Some p →
  heap tree !! p = Some pn → high pn = Some x → p ≠ e →
  let n := length (heap tree) in
  HFadd lz tree t =
  Some (mk_HFtree lz
          (<[e := set_parent (Some n) en]>
             (<[p := (if ptr_eqb (low pn) (Some e) then set_low (Some n)
                      else set_high (Some n)) pn]> (heap tree))
           ++ [mk_HFnode (Some (S n)) (Some e) (Some p) (frequency en) aterm_null;
               mk_HFnode None None (Some n) 0%N t])
          (codes tree) (top tree) (HTbind (terms tree) t (Some (S n)))
          (BLinsert (BLinsert (blockList tree) n) (S n)) (buffer tree),
        S n).
Proof.
  intros Htop He Hpar Hp Hhigh Hne n.
  assert (Hlp : p < n) by (eapply lookup_lt_Some, Hp).
  assert (Hle : e < n) by (eapply lookup_lt_Some, He).
  unfold HFadd. rewrite Htop. cbn [mbind option_bind]. rewrite He. cbn [mbind option_bind].
  rewrite Hpar. cbn [mbind option_bind]. rewrite Hp. cbn [mbind option_bind].
  rewrite Hhigh. fold n.
  set (g := if ptr_eqb (low pn) (Some e) then set_low (Some n) else set_high (Some n)).
  set (N0 := mk_HFnode None None (Some p) (frequency en) aterm_null).
  rewrite (store_Some _ p g pn) by (rewrite lookup_app_l by exact Hlp; exact Hp).
  cbn [mbind option_bind].
  rewrite insert_app_l by exact Hlp.
  set (H1 := <[p := g pn]> (heap tree)).
  assert (Hlen1 : length H1 = n) by apply length_insert.
  rewrite (store_Some _ n _ N0) by (apply list_lookup_middle; symmetry; exact Hlen1).
  cbn [mbind option_bind].
  rewrite insert_app_r_alt by (rewrite Hlen1; reflexivity).
  rewrite Hlen1, Nat.sub_diag. cbn [insert list_insert].
  assert (He1 : H1 !! e = Some en).
  { unfold H1. rewrite list_lookup_insert_ne by exact Hne. exact He. }
  rewrite (store_Some _ e _ en) by (rewrite lookup_app_l by (rewrite Hlen1; exact Hle); exact He1).
  cbn [mbind option_bind].
  rewrite insert_app_l by (rewrite Hlen1; exact Hle).
  set (H2 := <[e := set_parent (Some n) en]> H1).
  assert (Hlen2 : length H2 = n) by (unfold H2; rewrite length_insert; exact Hlen1).
  rewrite <- app_assoc. cbn [app].
  rewrite (store_Some _ n _ (set_low (Some e) N0))
    by (apply list_lookup_middle; symmetry; exact Hlen2).
  cbn [mbind option_bind].
  rewrite insert_app_r_alt by (rewrite Hlen2; reflexivity).
  rewrite Hlen2, Nat.sub_diag. reflexivity.
Qed.

Lemma weight_app_l (h l : Heap) (n : nat) : n < length h → weight (h ++ l) n = weight h n.
Proof. intros H. unfold weight. rewrite lookup_app_l by exact H. reflexivity. Qed.

Lemma store_weight (h h' : Heap) (n m : nat) (f : HFnode → HFnode) :
  store h n f = Some h' → (∀ nd, frequency (f nd) = frequency nd) → weight h' m = weight h m.
Proof.
  intros (nd & Hn & ->)%store_inv Hf. unfold weight.
  destruct (decide (n = m)) as [<- | Hne].
  - rewrite list_lookup_insert_eq by (eapply lookup_lt_Some, Hn). rewrite Hn. apply Hf.
  - rewrite list_lookup_insert_ne by exact Hne. reflexivity.
Qed.

(** The table as a function from terms to leaves. *)
Lemma HTmember_from_shift (i : nat) (tbl : HTable) (a : aterm) :
  HTmember_from i tbl a = (λ j, i + j) <$> HTmember_from 0 tbl a.
Proof.
  revert i. induction tbl as [| [k p] tbl IH]; intros i; simpl; [reflexivity |].
  destruct (aterm_eqb k a); simpl.
  - f_equal. lia.
  - rewrite (IH (S i)), (IH 1). destruct (HTmember_from 0 tbl a); simpl; [f_equal; lia | reflexivity].
Qed.

Lemma HTknown_cons (k : aterm) (p : ptr) (tbl : HTable) (a : aterm) :
  HTknown ((k, p) :: tbl) a = if aterm_eqb k a then p else HTknown tbl a.
Proof.
  unfold HTknown, HTmember. simpl.
  destruct (aterm_eqb k a); [reflexivity |].
  rewrite HTmember_from_shift. destruct (HTmember_from 0 tbl a); reflexivity.
Qed.

Lemma HTbind_cons (k : aterm) (q : ptr) (tbl : HTable) (t : aterm) (p : ptr) :
  HTbind ((k, q) :: tbl) t p =
  if aterm_eqb k t then (k, p) :: tbl else (k, q) :: HTbind tbl t p.
Proof.
  unfold HTbind, HTmember. simpl. destruct (aterm_eqb k t); [reflexivity |].
  rewrite HTmember_from_shift. destruct (HTmember_from 0 tbl t) as [j |]; simpl; [| reflexivity].
  unfold HTsetPtr. simpl. destruct (tbl !! j) as [[k' q'] |]; reflexivity.
Qed.

Lemma HTknown_HTbind (tbl : HTable) (t a : aterm) (p : ptr) :
  HTknown (HTbind tbl t p) a = if aterm_eqb t a then p else HTknown tbl a.
Proof.
  induction tbl as [| [k q] tbl IH].
  - unfold HTknown, HTbind, HTmember, HTinsert. simpl.
    destruct (aterm_eqb t a); reflexivity.
  - rewrite HTbind_cons, HTknown_cons.
    destruct (aterm_eqb k t) eqn:Ekt.
    + apply aterm_eqb_eq in Ekt as ->. rewrite HTknown_cons.
      destruct (aterm_eqb t a); reflexivity.
    + rewrite HTknown_cons, IH.
      destruct (aterm_eqb k a) eqn:Eka; [| reflexivity].
      apply aterm_eqb_eq in Eka as ->.
      destruct (aterm_eqb t a) eqn:Eta; [| reflexivity].
      apply aterm_eqb_eq in Eta as ->. rewrite aterm_eqb_refl in Ekt. discriminate.
Qed.

(** [HFadd] allocates its nodes past the old ones and changes no weight. *)
Lemma HFadd_weights (tree tree2 : HFtree lz) (t : aterm) (leaf : nat) :
  HFadd lz tree t = Some (tree2, leaf) →
  same_weights (heap tree) (heap tree2) ∧ length (heap tree) ≤ leaf
  ∧ length (heap tree) < length (heap tree2)
  ∧ known_leaf lz tree2 t = Some leaf.
Proof.
  unfold HFadd. intros H.
  apply bind_Some in H as (tmp & Htop & H).
  apply bind_Some in H as (tmpn & Htmp & H).
  apply bind_Some in H as (p & Hpar & H).
  apply bind_Some in H as (pn & Hp & H).
  assert (Hk : ∀ h c tp bl buf q,
    known_leaf lz (mk_HFtree lz h c tp (HTbind (terms tree) t q) bl buf) t = q).
  { intros h c tp bl buf q. unfold known_leaf. simpl.
    rewrite HTknown_HTbind, aterm_eqb_refl. reflexivity. }
  destruct (high pn) as [x |].
  - apply bind_Some in H as (h2 & H2 & H).
    apply bind_Some in H as (h3 & H3 & H).
    apply bind_Some in H as (h4 & H4 & H).
    apply bind_Some in H as (h6 & H6 & H).
    injection H as <- <-. simpl.
    pose proof (store_length _ _ _ _ H2) as L2. pose proof (store_length _ _ _ _ H3) as L3.
    pose proof (store_length _ _ _ _ H4) as L4. pose proof (store_length _ _ _ _ H6) as L6.
    rewrite length_app in L2, L6. simpl in L2, L6.
    split; [| split; [lia | split; [lia | apply Hk]]].
    intros m Hm.
    rewrite (store_weight _ _ _ m _ H6) by (intros; reflexivity).
    rewrite weight_app_l by lia.
    rewrite (store_weight _ _ _ m _ H4) by (intros; reflexivity).
    rewrite (store_weight _ _ _ m _ H3) by (intros; reflexivity).
    rewrite (store_weight _ _ _ m _ H2) by (intros; destruct (ptr_eqb _ _); reflexivity).
    apply weight_app_l, Hm.
  - apply bind_Some in H as (h2 & H2 & H).
    injection H as <- <-. simpl.
    pose proof (store_length _ _ _ _ H2) as L2. rewrite length_app in L2. simpl in L2.
    split; [| split; [lia | split; [lia | apply Hk]]].
    intros m Hm.
    rewrite (store_weight _ _ _ m _ H2) by (intros; reflexivity).
    apply weight_app_l, Hm.
Qed.

End Insertion.

(** ** What an update leaves alone *)

Section UpdateFrame.

Variable lz : LiteralCoder.







Lemma encode_new_eq (tree : HFtree lz) (bs : BitStream) (t : aterm) :
  encode_new lz tree bs t = r ← add_then_update lz tree t; Some (0%Z, bs, r).
Proof.
  unfold encode_new, add_then_update.
  destruct (HFadd lz tree t) as [[tree2 leaf] |]; reflexivity.
Qed.

End UpdateFrame.

(** ** Insertion at the escape leaf, and the update that follows it *)

Section InsertionClaims.

Variable lz : LiteralCoder.

(** C4: when the parent of the escape leaf already has a high child,
    [HFadd] puts a fresh internal node, carrying the escape leaf's weight, in
    the slot of that parent which held the escape leaf, makes the escape leaf
    its low child and a fresh leaf of weight 0 for the new symbol its high
    child, registers the internal node and then the leaf in the sibling
    index, binds the symbol to the leaf and returns the leaf. *)
Theorem HFadd_normal_case (tree : HFtree lz) (t : aterm) (e p x : nat) (en pn : HFnode) :
  top tree = Some e → heap tree !! e = Some en → parent en = Some p →
  heap tree !! p = Some pn → high pn = Some x → p ≠ e →
  ∃ tree',
    let n := length (heap tree) in
    HFadd lz tree t = Some (tree', S n)
    ∧ heap tree' !! n
      = Some (mk_HFnode (Some (S n)) (Some e) (Some p) (frequency en) aterm_null)
    ∧ heap tree' !! S n = Some (mk_HFnode None None (Some n) 0%N t)
    ∧ heap tree' !! e = Some (set_parent (Some n) en)
    ∧ heap tree' !! p
      = Some (if ptr_eqb (low pn) (Some e) then set_low (Some n) pn
              else set_high (Some n) pn)
    ∧ (∀ m, m < n → m ≠ e → m ≠ p → heap tree' !! m = heap tree !! m)
    ∧ blockList tree' = BLinsert (BLinsert (blockList tree) n) (S n)
    ∧ known_leaf lz tree' t = Some (S n).
Proof.
  intros Htop He Hpar Hp Hhigh Hne.
  pose proof (HFadd_normal lz tree t e p x en pn Htop He Hpar Hp Hhigh Hne) as Hadd.
  cbv zeta in Hadd. eexists. cbv zeta. split; [exact Hadd |].
  assert (Hlp : p < length (heap tree)) by (eapply lookup_lt_Some, Hp).
  assert (Hle : e < length (heap tree)) by (eapply lookup_lt_Some, He).
  set (n := length (heap tree)) in *.
  set (g := if ptr_eqb (low pn) (Some e) then set_low (Some n) else set_high (Some n)).
  set (H2 := <[e := set_parent (Some n) en]> (<[p := g pn]> (heap tree))).
  assert (Hlen2 : length H2 = n) by (unfold H2; rewrite !length_insert; reflexivity).
  cbn [heap blockList].
  split; [| split; [| split; [| split; [| split; [| split]]]]].
  - apply list_lookup_middle. symmetry. exact Hlen2.
  - rewrite lookup_app_r by (rewrite Hlen2; lia).
    rewrite Hlen2. replace (S n - n) with 1 by lia. reflexivity.
  - rewrite lookup_app_l by (rewrite Hlen2; exact Hle).
    apply list_lookup_insert_eq. rewrite length_insert. exact Hle.
  - rewrite lookup_app_l by (rewrite Hlen2; exact Hlp).
    unfold H2. rewrite list_lookup_insert_ne by auto.
    rewrite list_lookup_insert_eq by exact Hlp.
    unfold g. destruct (ptr_eqb (low pn) (Some e)); reflexivity.
  - intros m Hm Hme Hmp. rewrite lookup_app_l by (rewrite Hlen2; exact Hm).
    unfold H2. rewrite !list_lookup_insert_ne by auto. reflexivity.
  - reflexivity.
  - apply (HFadd_weights lz _ _ _ _ Hadd).
Qed.

Lemma HFencodeATerm_new (bs bs1 : BitStream) (tree : HFtree lz) (t : aterm) (e : nat) :
  let t' := if aterm_eqb t aterm_null then NO_ATERM else t in
  known_leaf lz tree t' = None → top tree = Some e → HFwriteCode lz tree bs e = Some bs1 →
  HFencodeATerm lz bs tree t =
  r ← add_then_update lz (with_buffer lz tree (LZwriteATerm lz (buffer tree) t').2) t';
  Some (0%Z, bs1 ++ (LZwriteATerm lz (buffer tree) t').1, r).
Proof.
  intros t' Hk Htop Hcode. unfold HFencodeATerm. fold t'. rewrite Hk, Htop.
  cbn [mbind option_bind]. rewrite Hcode. cbn [mbind option_bind].
  destruct (LZwriteATerm lz (buffer tree) t') as [lit buf]. apply encode_new_eq.
Qed.

Lemma HFencodeIndex_new (bs bs1 : BitStream) (tree : HFtree lz) (i : Z) (e : nat) :
  known_leaf lz tree (aterm_int i) = None → top tree = Some e →
  HFwriteCode lz tree bs e = Some bs1 →
  HFencodeIndex lz bs tree i =
  r ← add_then_update lz (with_buffer lz tree (LZwriteInt lz (buffer tree) i).2) (aterm_int i);
  Some (0%Z, bs1 ++ (LZwriteInt lz (buffer tree) i).1, r).
Proof.
  intros Hk Htop Hcode. unfold HFencodeIndex. rewrite Hk, Htop.
  cbn [mbind option_bind]. rewrite Hcode. cbn [mbind option_bind].
  destruct (LZwriteInt lz (buffer tree) i) as [lit buf]. apply encode_new_eq.
Qed.

Lemma HFdecodeATerm_at_leaf (fp fp1 : BitStream) (tree : HFtree lz) (c : nat) (nd : HFnode)
  (t0 : aterm) :
  descend (heap tree) fp (codes tree) = Some (walk_leaf c nd fp1) →
  HFdecodeATerm lz fp tree t0 = decode_leaf_ATerm lz fp1 tree c nd.
Proof.
  intros H. unfold HFdecodeATerm. rewrite HFdecodeATerm_loop_descend, H. reflexivity.
Qed.

Lemma HFdecodeIndex_at_leaf (fp fp1 : BitStream) (tree : HFtree lz) (c : nat) (nd : HFnode)
  (i0 : Z) :
  descend (heap tree) fp (codes tree) = Some (walk_leaf c nd fp1) →
  HFdecodeIndex lz fp tree i0 = decode_leaf_Index lz fp1 tree c nd i0.
Proof.
  intros H. unfold HFdecodeIndex. rewrite HFdecodeIndex_loop_descend, H. reflexivity.
Qed.

Lemma decode_leaf_ATerm_new (fp1 fp2 : BitStream) (tree : HFtree lz) (c : nat) (nd : HFnode)
  (t1 : aterm) (buf : LZbuffer lz) :
  term nd = ESCAPE_SEQUENCE →
  LZreadATerm lz fp1 (buffer tree) ESCAPE_SEQUENCE = (true, t1, buf, fp2) →
  decode_leaf_ATerm lz fp1 tree c nd =
  r ← add_then_update lz (with_buffer lz tree buf) t1;
  Some (if aterm_eqb t1 NO_ATERM then mk_decoded 0%Z aterm_null r fp2
        else mk_decoded 1%Z t1 r fp2).
Proof.
  intros Ht Hread. unfold decode_leaf_ATerm, add_then_update. rewrite Ht.
  change (aterm_eqb ESCAPE_SEQUENCE ESCAPE_SEQUENCE) with true. cbv iota.
  rewrite Hread.
  destruct (HFadd lz (with_buffer lz tree buf) t1) as [[tree2 leaf] |];
    cbn [mbind option_bind]; [| reflexivity].
  destruct (HFupdate lz tree2 (Some leaf)); cbn [mbind option_bind]; [| reflexivity].
  destruct (aterm_eqb t1 NO_ATERM); reflexivity.
Qed.

Lemma decode_leaf_Index_new (fp1 fp2 : BitStream) (tree : HFtree lz) (c : nat) (nd : HFnode)
  (i0 i1 : Z) (buf : LZbuffer lz) :
  term nd = ESCAPE_SEQUENCE →
  LZreadInt lz fp1 (buffer tree) i0 = (true, i1, buf, fp2) →
  decode_leaf_Index lz fp1 tree c nd i0 =
  r ← add_then_update lz (with_buffer lz tree buf) (aterm_int i1);
  Some (mk_decoded (int_of_bool (negb (Z.eqb i1 (NO_INT lz)))) i1 r fp2).
Proof.
  intros Ht Hread. unfold decode_leaf_Index, add_then_update. rewrite Ht.
  change (aterm_eqb ESCAPE_SEQUENCE ESCAPE_SEQUENCE) with true. cbv iota.
  rewrite Hread.
  destruct (HFadd lz (with_buffer lz tree buf) (aterm_int i1)) as [[tree2 leaf] |];
    cbn [mbind option_bind]; [| reflexivity].
  destruct (HFupdate lz tree2 (Some leaf)); reflexivity.
Qed.

(** C5: an unknown symbol costs one update only, the one that starts at its
    new leaf. Each encoder, after the escape code and the literal, and each
    decoder, at the escape leaf, does exactly an insertion followed by the
    update from the inserted leaf; the insertion allocates that leaf past
    the old nodes and leaves every weight of the tree it was given, the
    escape path included, as it was. *)
Theorem no_update_on_escape_path (tree : HFtree lz) (e : nat) (bs bs1 : BitStream) :
  top tree = Some e → HFwriteCode lz tree bs e = Some bs1 →
  (∀ t, let t' := if aterm_eqb t aterm_null then NO_ATERM else t in
        known_leaf lz tree t' = None →
        HFencodeATerm lz bs tree t =
        r ← add_then_update lz (with_buffer lz tree (LZwriteATerm lz (buffer tree) t').2) t';
        Some (0%Z, bs1 ++ (LZwriteATerm lz (buffer tree) t').1, r))
  ∧ (∀ i, known_leaf lz tree (aterm_int i) = None →
          HFencodeIndex lz bs tree i =
          r ← add_then_update lz (with_buffer lz tree (LZwriteInt lz (buffer tree) i).2)
                (aterm_int i);
          Some (0%Z, bs1 ++ (LZwriteInt lz (buffer tree) i).1, r))
  ∧ (∀ fp c nd fp1 t0 t1 buf fp2,
        descend (heap tree) fp (codes tree) = Some (walk_leaf c nd fp1) →
        term nd = ESCAPE_SEQUENCE →
        LZreadATerm lz fp1 (buffer tree) ESCAPE_SEQUENCE = (true, t1, buf, fp2) →
        HFdecodeATerm lz fp tree t0 =
        r ← add_then_update lz (with_buffer lz tree buf) t1;
        Some (if aterm_eqb t1 NO_ATERM then mk_decoded 0%Z aterm_null r fp2
              else mk_decoded 1%Z t1 r fp2))
  ∧ (∀ fp c nd fp1 i0 i1 buf fp2,
        descend (heap tree) fp (codes tree) = Some (walk_leaf c nd fp1) →
        term nd = ESCAPE_SEQUENCE →
        LZreadInt lz fp1 (buffer tree) i0 = (true, i1, buf, fp2) →
        HFdecodeIndex lz fp tree i0 =
        r ← add_then_update lz (with_buffer lz tree buf) (aterm_int i1);
        Some (mk_decoded (int_of_bool (negb (Z.eqb i1 (NO_INT lz)))) i1 r fp2))
  ∧ (∀ buf t tree2 leaf,
        HFadd lz (with_buffer lz tree buf) t = Some (tree2, leaf) →
        same_weights (heap tree) (heap tree2) ∧ length (heap tree) ≤ leaf).
Proof.
  intros Htop Hcode. split; [| split; [| split; [| split]]].
  - intros t t' Hk. apply (HFencodeATerm_new bs bs1 tree t e Hk Htop Hcode).
  - intros i Hk. apply (HFencodeIndex_new bs bs1 tree i e Hk Htop Hcode).
  - intros fp c nd fp1 t0 t1 buf fp2 Hd Ht Hread.
    rewrite (HFdecodeATerm_at_leaf _ _ _ _ _ _ Hd).
    apply decode_leaf_ATerm_new; assumption.
  - intros fp c nd fp1 i0 i1 buf fp2 Hd Ht Hread.
    rewrite (HFdecodeIndex_at_leaf _ _ _ _ _ _ Hd).
    apply decode_leaf_Index_new; assumption.
  - intros buf t tree2 leaf Hadd.
    destruct (HFadd_weights lz _ _ _ _ Hadd) as (Hw & Hl & _). split; assumption.
Qed.

End InsertionClaims.

Lemma HFadd_normal_case_witness :
  ∃ tree', HFadd demo_lz (after_first demo_lz (sym "A") tt) (sym "B") = Some (tree', 4)
           ∧ heap tree' !! 3 = Some (mk_HFnode (Some 4) (Some 1) (Some 0) 0%N aterm_null)
           ∧ blockList tree' = [1; 4; 3; 2; 0].
Proof.
  destruct (HFadd_normal_case demo_lz (after_first demo_lz (sym "A") tt) (sym "B") 1 0 2
              (mk_HFnode None None (Some 0) 0%N ESCAPE_SEQUENCE)
              (mk_HFnode (Some 2) (Some 1) None 1%N aterm_null)
              eq_refl eq_refl eq_refl eq_refl eq_refl ltac:(discriminate))
    as (tree' & Hadd & Hn & _ & _ & _ & _ & Hbl & _).
  exists tree'. split; [exact Hadd | split; [exact Hn | exact Hbl]].
Defined.

Lemma no_update_on_escape_path_witness :
  HFencodeATerm demo_lz [] (HFinit demo_lz []) (sym "A")
  = Some (0%Z, [false; false], after_first demo_lz (sym "A") tt).
Proof.
  destruct (no_update_on_escape_path demo_lz (HFinit demo_lz []) 1 [] [false]
              eq_refl eq_refl) as (Henc & _).
  rewrite (Henc (sym "A") eq_refl). reflexivity.
Defined.

(** ** What the decoders hand back *)

Section DecoderOutcomes.

Variable lz : LiteralCoder.

Lemma decode_leaf_ATerm_failure (fp1 fp2 : BitStream) (tree : HFtree lz) (c : nat)
  (nd : HFnode) (t1 : aterm) (buf : LZbuffer lz) :
  term nd = ESCAPE_SEQUENCE →
  LZreadATerm lz fp1 (buffer tree) ESCAPE_SEQUENCE = (false, t1, buf, fp2) →
  decode_leaf_ATerm lz fp1 tree c nd = Some (mk_decoded 0%Z t1 (with_buffer lz tree buf) fp2).
Proof.
  intros Ht Hread. unfold decode_leaf_ATerm. rewrite Ht.
  change (aterm_eqb ESCAPE_SEQUENCE ESCAPE_SEQUENCE) with true. cbv iota.
  rewrite Hread. reflexivity.
Qed.

Lemma decode_leaf_Index_failure (fp1 fp2 : BitStream) (tree : HFtree lz) (c : nat)
  (nd : HFnode) (i0 i1 : Z) (buf : LZbuffer lz) :
  term nd = ESCAPE_SEQUENCE →
  LZreadInt lz fp1 (buffer tree) i0 = (false, i1, buf, fp2) →
  decode_leaf_Index lz fp1 tree c nd i0
  = Some (mk_decoded 0%Z i1 (with_buffer lz tree buf) fp2).
Proof.
  intros Ht Hread. unfold decode_leaf_Index. rewrite Ht.
  change (aterm_eqb ESCAPE_SEQUENCE ESCAPE_SEQUENCE) with true. cbv iota.
  rewrite Hread. reflexivity.
Qed.

Lemma same_model_with_buffer (tree : HFtree lz) (buf : LZbuffer lz) :
  same_model tree (with_buffer lz tree buf).
Proof. unfold same_model. simpl. auto. Qed.

(** C7: when the literal coder fails at the escape leaf, the decoders return
    0 and hand back the tree, the sibling index and the symbol table as they
    were: nothing is inserted and no weight is updated. *)
Theorem literal_read_failure_is_atomic (fp fp1 : BitStream) (tree : HFtree lz) (c : nat)
  (nd : HFnode) :
  descend (heap tree) fp (codes tree) = Some (walk_leaf c nd fp1) →
  term nd = ESCAPE_SEQUENCE →
  (∀ t0 t1 buf fp2,
     LZreadATerm lz fp1 (buffer tree) ESCAPE_SEQUENCE = (false, t1, buf, fp2) →
     ∃ r, HFdecodeATerm lz fp tree t0 = Some r ∧ d_ret r = 0%Z ∧ same_model tree (d_tree r))
  ∧ (∀ i0 i1 buf fp2,
     LZreadInt lz fp1 (buffer tree) i0 = (false, i1, buf, fp2) →
     ∃ r, HFdecodeIndex lz fp tree i0 = Some r ∧ d_ret r = 0%Z ∧ same_model tree (d_tree r)).
Proof.
  intros Hd Ht. split.
  - intros t0 t1 buf fp2 Hread. eexists. split; [| split].
    + rewrite (HFdecodeATerm_at_leaf lz _ _ _ _ _ _ Hd).
      apply decode_leaf_ATerm_failure; eassumption.
    + reflexivity.
    + apply same_model_with_buffer.
  - intros i0 i1 buf fp2 Hread. eexists. split; [| split].
    + rewrite (HFdecodeIndex_at_leaf lz _ _ _ _ _ _ Hd).
      apply decode_leaf_Index_failure; eassumption.
    + reflexivity.
    + apply same_model_with_buffer.
Qed.


Lemma decode_leaf_ATerm_sentinel_leaf (fp1 : BitStream) (tree : HFtree lz) (c : nat)
  (nd : HFnode) (r : decoded lz aterm) :
  term nd = NO_ATERM → decode_leaf_ATerm lz fp1 tree c nd = Some r →
  d_ret r = 0%Z ∧ d_out r = aterm_null.
Proof.
  intros Ht. unfold decode_leaf_ATerm. rewrite Ht.
  change (aterm_eqb NO_ATERM ESCAPE_SEQUENCE) with false.
  change (aterm_eqb NO_ATERM NO_ATERM) with true. cbv iota.
  intros (tree1 & _ & H)%bind_Some. injection H as <-. auto.
Qed.

(** C6, as the code has it: a decoded sentinel makes [HFdecodeATerm] return
    0 with the null term as output, and [HFdecodeIndex] return 0 with
    [NO_INT]; the errors return 0 too, the exhausted stream leaving the
    output as the caller passed it and the failed literal read as the literal
    coder left it. The output parameter alone tells the end of the stream
    from an error. *)
Theorem end_of_stream_outcome (fp : BitStream) (tree : HFtree lz) :
  (∀ c nd fp1 t0 r,
     descend (heap tree) fp (codes tree) = Some (walk_leaf c nd fp1) →
     HFdecodeATerm lz fp tree t0 = Some r →
     (term nd = NO_ATERM
      ∨ term nd = ESCAPE_SEQUENCE
        ∧ ∃ buf fp2, LZreadATerm lz fp1 (buffer tree) ESCAPE_SEQUENCE
                     = (true, NO_ATERM, buf, fp2)) →
     d_ret r = 0%Z ∧ d_out r = aterm_null)
  ∧ (∀ c nd fp1 i0 r,
     descend (heap tree) fp (codes tree) = Some (walk_leaf c nd fp1) →
     HFdecodeIndex lz fp tree i0 = Some r →
     (term nd = aterm_int (NO_INT lz)
      ∨ term nd = ESCAPE_SEQUENCE
        ∧ ∃ buf fp2, LZreadInt lz fp1 (buffer tree) i0 = (true, NO_INT lz, buf, fp2)) →
     d_ret r = 0%Z ∧ d_out r = NO_INT lz)
  ∧ (descend (heap tree) fp (codes tree) = Some walk_exhausted →
     (∀ t0, HFdecodeATerm lz fp tree t0 = Some (mk_decoded 0%Z t0 tree []))
     ∧ (∀ i0, HFdecodeIndex lz fp tree i0 = Some (mk_decoded 0%Z i0 tree [])))
  ∧ (∀ c nd fp1,
     descend (heap tree) fp (codes tree) = Some (walk_leaf c nd fp1) →
     term nd = ESCAPE_SEQUENCE →
     (∀ t0 t1 buf fp2,
        LZreadATerm lz fp1 (buffer tree) ESCAPE_SEQUENCE = (false, t1, buf, fp2) →
        ∃ r, HFdecodeATerm lz fp tree t0 = Some r ∧ d_ret r = 0%Z ∧ d_out r = t1)
     ∧ (∀ i0 i1 buf fp2,
        LZreadInt lz fp1 (buffer tree) i0 = (false, i1, buf, fp2) →
        ∃ r, HFdecodeIndex lz fp tree i0 = Some r ∧ d_ret r = 0%Z ∧ d_out r = i1)).
Proof.
  split; [| split; [| split]].
  - intros c nd fp1 t0 r Hd Hr [Ht | (Ht & buf & fp2 & Hread)].
    + rewrite (HFdecodeATerm_at_leaf lz _ _ _ _ _ _ Hd) in Hr.
      eapply decode_leaf_ATerm_sentinel_leaf; eassumption.
    + rewrite (HFdecodeATerm_at_leaf lz _ _ _ _ _ _ Hd) in Hr.
      rewrite (decode_leaf_ATerm_new lz _ _ _ _ _ _ _ Ht Hread) in Hr.
      apply bind_Some in Hr as (tree' & _ & Hr). injection Hr as <-. auto.
  - intros c nd fp1 i0 r Hd Hr [Ht | (Ht & buf & fp2 & Hread)].
    + rewrite (HFdecodeIndex_at_leaf lz _ _ _ _ _ _ Hd) in Hr.
      unfold decode_leaf_Index in Hr. rewrite Ht in Hr. simpl in Hr.
      apply bind_Some in Hr as (tree' & _ & Hr). rewrite Z.eqb_refl in Hr.
      injection Hr as <-. auto.
    + rewrite (HFdecodeIndex_at_leaf lz _ _ _ _ _ _ Hd) in Hr.
      rewrite (decode_leaf_Index_new lz _ _ _ _ _ _ _ _ Ht Hread) in Hr.
      apply bind_Some in Hr as (tree' & _ & Hr). rewrite Z.eqb_refl in Hr.
      injection Hr as <-. auto.
  - intros Hd. split.
    + intros t0. unfold HFdecodeATerm. rewrite HFdecodeATerm_loop_descend, Hd. reflexivity.
    + intros i0. unfold HFdecodeIndex. rewrite HFdecodeIndex_loop_descend, Hd. reflexivity.
  - intros c nd fp1 Hd Ht. split.
    + intros t0 t1 buf fp2 Hread. eexists. split; [| split].
      * rewrite (HFdecodeATerm_at_leaf lz _ _ _ _ _ _ Hd).
        apply decode_leaf_ATerm_failure; eassumption.
      * reflexivity.
      * reflexivity.
    + intros i0 i1 buf fp2 Hread. eexists. split; [| split].
      * rewrite (HFdecodeIndex_at_leaf lz _ _ _ _ _ _ Hd).
        apply decode_leaf_Index_failure; eassumption.
      * reflexivity.
      * reflexivity.
Qed.

End DecoderOutcomes.

Lemma literal_read_failure_is_atomic_witness :
  ∃ r, HFdecodeATerm demo_lz [false] (HFinit demo_lz []) aterm_null = Some r
       ∧ d_ret r = 0%Z ∧ same_model (HFinit demo_lz []) (d_tree r).
Proof.
  destruct (literal_read_failure_is_atomic demo_lz [false] [] (HFinit demo_lz []) 1
              (mk_HFnode None None (Some 0) 0%N ESCAPE_SEQUENCE) eq_refl eq_refl)
    as (Hterm & _).
  exact (Hterm aterm_null ESCAPE_SEQUENCE tt [] eq_refl).
Defined.


(** C6, as stated, fails: on a fresh engine whose caller passes a null term,
    the decoded sentinel and the exhausted stream give the same return value
    and the same output. *)
Lemma end_of_stream_like_exhaustion :
  LZreadATerm demo_lz [true; true; true; false] tt ESCAPE_SEQUENCE = (true, NO_ATERM, tt, [])
  ∧ ∃ r_eos r_err,
      HFdecodeATerm demo_lz [false; true; true; true; false] (HFinit demo_lz []) aterm_null
      = Some r_eos
      ∧ HFdecodeATerm demo_lz [] (HFinit demo_lz []) aterm_null = Some r_err
      ∧ descend (heap (HFinit demo_lz [])) [] (codes (HFinit demo_lz [])) = Some walk_exhausted
      ∧ d_ret r_eos = d_ret r_err ∧ d_out r_eos = d_out r_err.
Proof.
  split; [reflexivity |].
  eexists _, _. split; [reflexivity |]. split; [reflexivity |].
  split; [reflexivity |]. split; reflexivity.
Qed.

Lemma end_of_stream_outcome_witness :
  HFdecodeATerm demo_lz [] (HFinit demo_lz []) (sym "A")
  = Some (mk_decoded 0%Z (sym "A") (HFinit demo_lz []) []).
Proof.
  destruct (end_of_stream_outcome demo_lz [] (HFinit demo_lz [])) as (_ & _ & Hex & _).
  destruct (Hex eq_refl) as (Hterm & _). exact (Hterm (sym "A")).
Defined.

(** ** The node the update swaps with *)

Section Successor.

Variable lz : LiteralCoder.



Lemma last_unless_linked_inv (h : Heap) (current last : nat) (succ : ptr) :
  last_unless_linked h current last = Some succ →
  ∃ b, linked h current last = Some b ∧ succ = if b then None else Some last.
Proof.
  unfold last_unless_linked. intros (b & Hb & H)%bind_Some. injection H as <-. eauto.
Qed.


End Successor.




(** ** Reading fields through handles *)

Lemma store_lookup (h h' : Heap) (n m : nat) (f : HFnode → HFnode) :
  store h n f = Some h' →
  h' !! m = if decide (n = m) then f <$> h !! m else h !! m.
Proof.
  intros (nd & Hn & ->)%store_inv. destruct (decide (n = m)) as [<- | Hne].
  - rewrite list_lookup_insert_eq by (eapply lookup_lt_Some, Hn). rewrite Hn. reflexivity.
  - apply list_lookup_insert_ne, Hne.
Qed.

Lemma store_is_Some (h : Heap) (n : nat) (f : HFnode → HFnode) :
  n < length h → ∃ h', store h n f = Some h'.
Proof.
  intros H. apply lookup_lt_is_Some in H as [nd Hn].
  exists (<[n := f nd]> h). apply store_Some, Hn.
Qed.

Lemma parent_of_valid (h : Heap) (n p : nat) : parent_of h n = Some p → n < length h.
Proof.
  unfold parent_of. destruct (h !! n) eqn:E; [| discriminate].
  intros _. eapply lookup_lt_Some, E.
Qed.

Lemma low_of_valid (h : Heap) (n p : nat) : low_of h n = Some p → n < length h.
Proof.
  unfold low_of. destruct (h !! n) eqn:E; [| discriminate].
  intros _. eapply lookup_lt_Some, E.
Qed.

Lemma high_of_valid (h : Heap) (n p : nat) : high_of h n = Some p → n < length h.
Proof.
  unfold high_of. destruct (h !! n) eqn:E; [| discriminate].
  intros _. eapply lookup_lt_Some, E.
Qed.

Lemma term_of_valid (h : Heap) (n : nat) (t : aterm) : term_of h n = Some t → n < length h.
Proof.
  unfold term_of. destruct (h !! n) eqn:E; [| discriminate].
  intros _. eapply lookup_lt_Some, E.
Qed.

(** The fields after a store, one lemma per field written. *)
Lemma store_set_low (h h' : Heap) (n m : nat) (v : ptr) :
  store h n (set_low v) = Some h' →
  low_of h' m = (if decide (n = m) then v else low_of h m)
  ∧ high_of h' m = high_of h m ∧ parent_of h' m = parent_of h m
  ∧ weight h' m = weight h m ∧ term_of h' m = term_of h m.
Proof.
  intros H. pose proof (store_lookup_eq _ _ _ _ H) as (nd & Hn & _).
  unfold low_of, high_of, parent_of, weight, term_of.
  rewrite !(store_lookup _ _ _ m _ H).
  destruct (decide (n = m)) as [<- | Hne]; [rewrite Hn | destruct (h !! m)]; simpl; auto.
Qed.

Lemma store_set_high (h h' : Heap) (n m : nat) (v : ptr) :
  store h n (set_high v) = Some h' →
  high_of h' m = (if decide (n = m) then v else high_of h m)
  ∧ low_of h' m = low_of h m ∧ parent_of h' m = parent_of h m
  ∧ weight h' m = weight h m ∧ term_of h' m = term_of h m.
Proof.
  intros H. pose proof (store_lookup_eq _ _ _ _ H) as (nd & Hn & _).
  unfold low_of, high_of, parent_of, weight, term_of.
  rewrite !(store_lookup _ _ _ m _ H).
  destruct (decide (n = m)) as [<- | Hne]; [rewrite Hn | destruct (h !! m)]; simpl; auto.
Qed.

Lemma store_set_parent (h h' : Heap) (n m : nat) (v : ptr) :
  store h n (set_parent v) = Some h' →
  parent_of h' m = (if decide (n = m) then v else parent_of h m)
  ∧ low_of h' m = low_of h m ∧ high_of h' m = high_of h m
  ∧ weight h' m = weight h m ∧ term_of h' m = term_of h m.
Proof.
  intros H. pose proof (store_lookup_eq _ _ _ _ H) as (nd & Hn & _).
  unfold low_of, high_of, parent_of, weight, term_of.
  rewrite !(store_lookup _ _ _ m _ H).
  destruct (decide (n = m)) as [<- | Hne]; [rewrite Hn | destruct (h !! m)]; simpl; auto.
Qed.

Lemma store_increment (h h' : Heap) (n m : nat) :
  store h n (λ nd, set_frequency (frequency nd + 1)%N nd) = Some h' →
  weight h' m = (if decide (n = m) then (weight h m + 1)%N else weight h m)
  ∧ low_of h' m = low_of h m ∧ high_of h' m = high_of h m
  ∧ parent_of h' m = parent_of h m ∧ term_of h' m = term_of h m.
Proof.
  intros H. pose proof (store_lookup_eq _ _ _ _ H) as (nd & Hn & _).
  unfold low_of, high_of, parent_of, weight, term_of.
  rewrite !(store_lookup _ _ _ m _ H).
  destruct (decide (n = m)) as [<- | Hne]; [rewrite Hn | destruct (h !! m)]; simpl; auto.
Qed.

Lemma exchange_same (c x : nat) : exchange c c x = x.
Proof. unfold exchange. destruct (Nat.eqb x c) eqn:E; [apply Nat.eqb_eq in E; auto | reflexivity]. Qed.

Lemma exchange_left (c s : nat) : exchange c s c = s.
Proof. unfold exchange. rewrite Nat.eqb_refl. reflexivity. Qed.

Lemma exchange_right (c s : nat) : exchange c s s = c.
Proof.
  unfold exchange. rewrite Nat.eqb_refl.
  destruct (Nat.eqb s c) eqn:E; [apply Nat.eqb_eq in E; auto | reflexivity].
Qed.

Lemma exchange_other (c s x : nat) : x ≠ c → x ≠ s → exchange c s x = x.
Proof.
  intros Hc Hs. unfold exchange.
  apply Nat.eqb_neq in Hc, Hs. rewrite Hc, Hs. reflexivity.
Qed.

Lemma exchange_involutive (c s x : nat) : exchange c s (exchange c s x) = x.
Proof.
  destruct (decide (x = c)) as [-> | Hc].
  - rewrite exchange_left, exchange_right. reflexivity.
  - destruct (decide (x = s)) as [-> | Hs].
    + rewrite exchange_right, exchange_left. reflexivity.
    + rewrite (exchange_other c s x) by assumption.
      apply exchange_other; assumption.
Qed.

Lemma exchange_cases (c s x : nat) :
  (x = c ∧ exchange c s x = s) ∨ (x = s ∧ exchange c s x = c)
  ∨ (x ≠ c ∧ x ≠ s ∧ exchange c s x = x).
Proof.
  destruct (decide (x = c)) as [-> | Hc]; [left; split; [reflexivity | apply exchange_left] |].
  destruct (decide (x = s)) as [-> | Hs];
    [right; left; split; [reflexivity | apply exchange_right] |].
  right; right. repeat split; try assumption. apply exchange_other; assumption.
Qed.

#[global] Instance slot_eq_dec : EqDecision slot.
Proof. solve_decision. Defined.

(** ** The exchange of two nodes in the tree *)

Section Swap.

Variable lz : LiteralCoder.

Lemma tree_ok_parent_valid (h : Heap) (r n p : nat) :
  tree_ok h r → parent_of h n = Some p → p < length h.
Proof.
  intros Hok Hp. destruct (ok_parent _ _ Hok _ _ Hp) as [H | H];
    [eapply low_of_valid, H | eapply high_of_valid, H].
Qed.

Lemma tree_ok_child_valid (h : Heap) (r p x : nat) :
  tree_ok h r → low_of h p = Some x ∨ high_of h p = Some x → x < length h.
Proof. intros Hok H. eapply parent_of_valid, (ok_child _ _ Hok), H. Qed.

Lemma parent_slot_ok (tree : HFtree lz) (r n : nat) :
  codes tree = Some r → tree_ok (heap tree) r → n < length (heap tree) →
  ∃ sl, parent_slot lz tree n = Some sl ∧ slot_valid (heap tree) sl
        ∧ (sl = slot_root ↔ n = r)
        ∧ (∀ q, sl = slot_low q ↔ low_of (heap tree) q = Some n)
        ∧ (∀ q, sl = slot_high q ↔ high_of (heap tree) q = Some n).
Proof.
  intros Hc Hok Hn. unfold parent_slot. rewrite Hc.
  destruct (decide (n = r)) as [-> | Hnr].
  - rewrite ptr_eqb_refl. exists slot_root. split; [reflexivity |]. split; [exact I |].
    assert (Hr : parent_of (heap tree) r = None) by (apply (ok_root _ _ Hok); auto).
    split; [tauto |]. split; intros q; (split; [discriminate |]); intros Hq.
    + rewrite (ok_child _ _ Hok q r (or_introl Hq)) in Hr. discriminate.
    + rewrite (ok_child _ _ Hok q r (or_intror Hq)) in Hr. discriminate.
  - rewrite ptr_eqb_neq by congruence.
    destruct (parent_of (heap tree) n) as [p |] eqn:Hp;
      [| apply (ok_root _ _ Hok) in Hp; [contradiction | exact Hn]].
    pose proof (tree_ok_parent_valid _ _ _ _ Hok Hp) as Hpv.
    pose proof (ok_parent _ _ Hok _ _ Hp) as Hch.
    unfold parent_of in Hp. destruct (heap tree !! n) as [nd |] eqn:En; [| discriminate].
    cbn [mbind option_bind]. rewrite Hp. cbn [mbind option_bind].
    apply lookup_lt_is_Some in Hpv as [pn Epn]. rewrite Epn. cbn [mbind option_bind].
    assert (Hlow : low_of (heap tree) p = low pn) by (unfold low_of; rewrite Epn; reflexivity).
    assert (Hpar : ∀ q, low_of (heap tree) q = Some n ∨ high_of (heap tree) q = Some n → q = p).
    { intros q Hq. apply (ok_child _ _ Hok) in Hq. unfold parent_of in Hq.
      rewrite En in Hq. congruence. }
    destruct (ptr_eqb (Some n) (low pn)) eqn:El.
    + apply ptr_eqb_eq in El. eexists. split; [reflexivity |].
      split; [eapply lookup_lt_Some, Epn |]. split; [split; [discriminate | contradiction] |].
      split; intros q; split.
      * intros E. injection E as <-. congruence.
      * intros Hq. f_equal. symmetry. apply Hpar. auto.
      * discriminate.
      * intros Hq. pose proof (Hpar q (or_intror Hq)) as ->.
        exfalso. apply (ok_distinct _ _ Hok p n); congruence.
    + assert (Hnl : low_of (heap tree) p ≠ Some n).
      { intros E. rewrite Hlow in E. rewrite <- E, ptr_eqb_refl in El. discriminate. }
      eexists. split; [reflexivity |].
      split; [eapply lookup_lt_Some, Epn |]. split; [split; [discriminate | contradiction] |].
      split; intros q; split.
      * discriminate.
      * intros Hq. pose proof (Hpar q (or_introl Hq)) as ->. contradiction.
      * intros E. injection E as <-. destruct Hch; [contradiction | assumption].
      * intros Hq. f_equal. symmetry. apply Hpar. auto.
Qed.

Lemma write_slot_ok (tree : HFtree lz) (sl : slot) (v : ptr) :
  slot_valid (heap tree) sl →
  ∃ tree1, write_slot lz tree sl v = Some tree1
           ∧ length (heap tree1) = length (heap tree)
           ∧ codes tree1 = (if decide (sl = slot_root) then v else codes tree)
           ∧ top tree1 = top tree ∧ terms tree1 = terms tree
           ∧ blockList tree1 = blockList tree ∧ buffer tree1 = buffer tree
           ∧ ∀ q, low_of (heap tree1) q
                  = (if decide (sl = slot_low q) then v else low_of (heap tree) q)
                ∧ high_of (heap tree1) q
                  = (if decide (sl = slot_high q) then v else high_of (heap tree) q)
                ∧ parent_of (heap tree1) q = parent_of (heap tree) q
                ∧ weight (heap tree1) q = weight (heap tree) q
                ∧ term_of (heap tree1) q = term_of (heap tree) q.
Proof.
  destruct sl as [| p | p]; simpl; intros Hv.
  - eexists. split; [reflexivity |]. simpl. repeat split; reflexivity.
  - destruct (store_is_Some (heap tree) p (set_low v) Hv) as [h' Hst].
    rewrite Hst. eexists. split; [reflexivity |]. simpl.
    split; [apply (store_length _ _ _ _ Hst) |]. repeat (split; [reflexivity |]).
    intros q. destruct (store_set_low _ _ _ q _ Hst) as (Hl & Hh & Hp & Hw & Ht).
    rewrite Hl, Hh, Hp, Hw, Ht. repeat split.
    destruct (decide (p = q)) as [-> | Hne];
      [rewrite decide_True by reflexivity | rewrite decide_False by congruence]; reflexivity.
  - destruct (store_is_Some (heap tree) p (set_high v) Hv) as [h' Hst].
    rewrite Hst. eexists. split; [reflexivity |]. simpl.
    split; [apply (store_length _ _ _ _ Hst) |]. repeat (split; [reflexivity |]).
    intros q. destruct (store_set_high _ _ _ q _ Hst) as (Hh & Hl & Hp & Hw & Ht).
    rewrite Hl, Hh, Hp, Hw, Ht. repeat split.
    destruct (decide (p = q)) as [-> | Hne];
      [rewrite decide_True by reflexivity | rewrite decide_False by congruence]; reflexivity.
Qed.

Lemma exchange_slot (c s : nat) (p : ptr) (at_c at_s : Prop)
  `{Decision at_c, Decision at_s} :
  c ≠ s → (at_c ↔ p = Some c) → (at_s ↔ p = Some s) →
  (if decide at_s then Some c else if decide at_c then Some s else p) = exchange c s <$> p.
Proof.
  intros Hne Hc Hs. destruct (decide at_s) as [E | E].
  - apply Hs in E as ->. simpl. rewrite exchange_right. reflexivity.
  - destruct (decide at_c) as [E' | E'].
    + apply Hc in E' as ->. simpl. rewrite exchange_left. reflexivity.
    + destruct p as [x |]; [| reflexivity]. simpl. rewrite exchange_other; [reflexivity | |].
      * intros ->. apply E', Hc. reflexivity.
      * intros ->. apply E, Hs. reflexivity.
Qed.

(** [HFswap] on a well-formed tree exchanges the two nodes everywhere: in
    the child slots that hold them, in the root pointer, and by their
    parents. *)
Lemma HFswap_spec (tree : HFtree lz) (r c s : nat) :
  codes tree = Some r → tree_ok (heap tree) r →
  c < length (heap tree) → s < length (heap tree) → c ≠ s →
  ∃ tree', HFswap lz tree c s = Some tree'
           ∧ codes tree' = Some (exchange c s r)
           ∧ top tree' = top tree ∧ terms tree' = terms tree
           ∧ blockList tree' = blockList tree ∧ buffer tree' = buffer tree
           ∧ length (heap tree') = length (heap tree)
           ∧ (∀ q, low_of (heap tree') q = exchange c s <$> low_of (heap tree) q)
           ∧ (∀ q, high_of (heap tree') q = exchange c s <$> high_of (heap tree) q)
           ∧ (∀ q, parent_of (heap tree') q =
                   if decide (q = c) then parent_of (heap tree) s
                   else if decide (q = s) then parent_of (heap tree) c
                   else parent_of (heap tree) q)
           ∧ (∀ q, weight (heap tree') q = weight (heap tree) q)
           ∧ (∀ q, term_of (heap tree') q = term_of (heap tree) q).
Proof.
  intros Hc Hok Hcv Hsv Hne. unfold HFswap.
  destruct (parent_slot_ok tree r c Hc Hok Hcv) as (s1 & E1 & V1 & R1 & L1 & H1).
  destruct (parent_slot_ok tree r s Hc Hok Hsv) as (s2 & E2 & V2 & R2 & L2 & H2).
  rewrite E1, E2. cbn [mbind option_bind].
  destruct (write_slot_ok tree s1 (Some s) V1)
    as (t1 & W1 & Len1 & C1 & T1 & Tb1 & B1 & Bf1 & F1).
  rewrite W1. cbn [mbind option_bind].
  assert (V2' : slot_valid (heap t1) s2) by (destruct s2; simpl in *; lia).
  destruct (write_slot_ok t1 s2 (Some c) V2')
    as (t2 & W2 & Len2 & C2 & T2 & Tb2 & B2 & Bf2 & F2).
  rewrite W2. cbn [mbind option_bind].
  assert (Hs2 : s < length (heap t2)) by lia.
  assert (Hc2 : c < length (heap t2)) by lia.
  apply lookup_lt_is_Some in Hs2 as [n2 En2]. apply lookup_lt_is_Some in Hc2 as [n1 En1].
  rewrite En2. cbn [mbind option_bind]. rewrite En1. cbn [mbind option_bind].
  destruct (store_is_Some (heap t2) s (set_parent (parent n1))) as [h3 St3];
    [eapply lookup_lt_Some, En2 |].
  rewrite St3. cbn [mbind option_bind].
  destruct (store_is_Some h3 c (set_parent (parent n2))) as [h4 St4];
    [rewrite (store_length _ _ _ _ St3); eapply lookup_lt_Some, En1 |].
  rewrite St4. cbn [mbind option_bind].
  eexists. split; [reflexivity |]. cbn [codes top terms blockList buffer heap with_heap].
  assert (Pn1 : parent n1 = parent_of (heap tree) c).
  { destruct (F2 c) as (_ & _ & P2 & _). destruct (F1 c) as (_ & _ & P1 & _).
    rewrite <- P1, <- P2. unfold parent_of. rewrite En1. reflexivity. }
  assert (Pn2 : parent n2 = parent_of (heap tree) s).
  { destruct (F2 s) as (_ & _ & P2 & _). destruct (F1 s) as (_ & _ & P1 & _).
    rewrite <- P1, <- P2. unfold parent_of. rewrite En2. reflexivity. }
  split.
  { rewrite C2, C1, Hc.
    destruct (decide (s2 = slot_root)) as [E | E].
    - apply R2 in E as ->. rewrite exchange_right. reflexivity.
    - destruct (decide (s1 = slot_root)) as [E' | E'].
      + apply R1 in E' as ->. rewrite exchange_left. reflexivity.
      + rewrite exchange_other; [reflexivity | |]; intros ->; [apply E', R1 | apply E, R2];
          reflexivity. }
  split; [congruence |]. split; [congruence |]. split; [congruence |]. split; [congruence |].
  split; [rewrite (store_length _ _ _ _ St4), (store_length _ _ _ _ St3); lia |].
  split; [| split; [| split; [| split]]]; intros q;
    destruct (store_set_parent _ _ _ q _ St4) as (P4 & L4 & H4 & W4 & T4);
    destruct (store_set_parent _ _ _ q _ St3) as (P3 & L3 & H3 & W3 & T3);
    destruct (F2 q) as (FL2 & FH2 & FP2 & FW2 & FT2);
    destruct (F1 q) as (FL1 & FH1 & FP1 & FW1 & FT1).
  - rewrite L4, L3, FL2, FL1. apply exchange_slot; [exact Hne | apply L1 | apply L2].
  - rewrite H4, H3, FH2, FH1. apply exchange_slot; [exact Hne | apply H1 | apply H2].
  - rewrite P4, P3, FP2, FP1, Pn1, Pn2.
    destruct (decide (c = q)) as [<- | Hcq].
    + rewrite decide_True by reflexivity. reflexivity.
    + rewrite (decide_False (P := q = c)) by congruence.
      destruct (decide (s = q)) as [<- | Hsq].
      * rewrite decide_True by reflexivity. reflexivity.
      * rewrite decide_False by congruence. reflexivity.
  - congruence.
  - congruence.
Qed.

Lemma tree_ok_ext (h h' : Heap) (r : nat) :
  length h' = length h →
  (∀ q, low_of h' q = low_of h q) → (∀ q, high_of h' q = high_of h q) →
  (∀ q, parent_of h' q = parent_of h q) →
  tree_ok h r → tree_ok h' r.
Proof.
  intros Hlen Hl Hh Hp [V R P C B D]. split.
  - lia.
  - intros n Hn. rewrite Hp. apply R. lia.
  - intros n p. rewrite Hp, Hl, Hh. apply P.
  - intros p x. rewrite Hp, Hl, Hh. apply C.
  - intros n. rewrite Hl, Hh. apply B.
  - intros n a. rewrite Hl, Hh. apply D.
Qed.

Lemma map_exchange_same (c : nat) (bl : BList) : map (exchange c c) bl = bl.
Proof.
  induction bl as [| x bl IH]; simpl; [reflexivity |].
  rewrite exchange_same, IH. reflexivity.
Qed.

(** One pass of the loop, given the node [HFsuccessor] picked. *)
Lemma HFupdate_step_spec (tree : HFtree lz) (r c : nat) (succ : ptr) :
  codes tree = Some r → tree_ok (heap tree) r → c < length (heap tree) →
  HFsuccessor lz tree c = Some succ →
  (∀ s, succ = Some s → s < length (heap tree) ∧ s ≠ c) →
  let s := default c succ in
  ∃ tree', HFupdate_step lz tree c = Some tree'
           ∧ codes tree' = Some (exchange c s r)
           ∧ top tree' = top tree ∧ terms tree' = terms tree
           ∧ buffer tree' = buffer tree
           ∧ blockList tree' = map (exchange c s) (blockList tree)
           ∧ swapped_from (heap tree) (heap tree') c s.
Proof.
  intros Hc Hok Hcv Hsucc Hs s. unfold HFupdate_step. rewrite Hsucc.
  cbn [mbind option_bind]. unfold BLswap.
  destruct (store_is_Some (heap tree) c (λ nd, set_frequency (frequency nd + 1)%N nd) Hcv)
    as [h1 St]. rewrite St. cbn [mbind option_bind].
  pose proof (store_length _ _ _ _ St) as Len1.
  destruct succ as [x |]; simpl in s; subst s.
  - destruct (Hs x eq_refl) as [Hxv Hxc].
    set (tree1 := with_blockList lz (with_heap lz tree h1) (map (exchange c x) (blockList tree))).
    assert (Hok1 : tree_ok (heap tree1) r).
    { apply (tree_ok_ext (heap tree)); [exact Len1 | | | | exact Hok];
        intros q; apply (store_increment _ _ _ q St). }
    destruct (HFswap_spec tree1 r c x Hc Hok1) as
      (tree' & E & C' & T' & Tb' & B' & Bf' & Len' & L' & H' & P' & W' & Tm');
      [simpl; lia | simpl; lia | congruence |].
    exists tree'. split; [exact E |]. split; [exact C' |].
    split; [exact T' |]. split; [exact Tb' |]. split; [exact Bf' |]. split; [exact B' |].
    unfold swapped_from. simpl in *.
    split; [lia |]. split; [| split; [| split; [| split]]]; intros q;
      destruct (store_increment _ _ _ q St) as (Wq & Lq & Hq & Pq & Tq).
    + rewrite L', Lq. reflexivity.
    + rewrite H', Hq. reflexivity.
    + rewrite P'.
      destruct (store_increment _ _ _ x St) as (_ & _ & _ & Px & _).
      destruct (store_increment _ _ _ c St) as (_ & _ & _ & Pc & _).
      rewrite Px, Pc, Pq. reflexivity.
    + rewrite W', Wq. destruct (decide (c = q)) as [<- | Hne].
      * rewrite decide_True by reflexivity. reflexivity.
      * rewrite decide_False by congruence. reflexivity.
    + rewrite Tm', Tq. reflexivity.
  - eexists. split; [reflexivity |]. simpl. rewrite exchange_same, map_exchange_same.
    split; [exact Hc |]. repeat (split; [reflexivity |]). unfold swapped_from.
    split; [exact Len1 |]. split; [| split; [| split; [| split]]]; intros q;
      destruct (store_increment _ _ _ q St) as (Wq & Lq & Hq & Pq & Tq).
    + rewrite Lq. destruct (low_of (heap tree) q); simpl; [rewrite exchange_same |]; reflexivity.
    + rewrite Hq. destruct (high_of (heap tree) q); simpl; [rewrite exchange_same |]; reflexivity.
    + rewrite Pq. destruct (decide (q = c)) as [-> | _]; reflexivity.
    + rewrite Wq. destruct (decide (c = q)) as [<- | Hne].
      * rewrite decide_True by reflexivity. reflexivity.
      * rewrite decide_False by congruence. reflexivity.
    + exact Tq.
Qed.

End Swap.

(** ** Blocks of the sibling index *)

Lemma run_end_spec (h : Heap) (w : N) (prev : nat) (l : BList) :
  ∃ k, (prev :: l) !! k = Some (run_end h w prev l)
       ∧ (∀ m x, m < k → l !! m = Some x → weight h x = w)
       ∧ (∀ x, l !! k = Some x → weight h x ≠ w).
Proof.
  revert prev. induction l as [| x l IH]; intros prev; simpl.
  - exists 0. split; [reflexivity |]. split; [intros m x Hm; lia | intros x Hx; discriminate].
  - destruct (N.eqb (weight h x) w) eqn:E.
    + apply N.eqb_eq in E. destruct (IH x) as (k & Hk & Hrun & Hend).
      exists (S k). split; [exact Hk |]. split; [| exact Hend].
      intros [| m] y Hm Hy; simpl in Hy; [congruence | apply (Hrun m); [lia | exact Hy]].
    + apply N.eqb_neq in E. exists 0. split; [reflexivity |].
      split; [intros m y Hm; lia |]. intros y Hy. simpl in Hy. congruence.
Qed.

(** The block of [c] runs from [c] to [Blast], over nodes as heavy as [c],
    and the node after it, if any, weighs something else. *)
Lemma Blast_spec (h : Heap) (bl : BList) (c i : nat) :
  NoDup bl → bl !! i = Some c →
  ∃ j last, Blast h bl c = Some last ∧ i ≤ j ∧ bl !! j = Some last
            ∧ (∀ k x, i ≤ k ≤ j → bl !! k = Some x → weight h x = weight h c)
            ∧ (∀ x, bl !! S j = Some x → weight h x ≠ weight h c).
Proof.
  revert i. induction bl as [| x bl IH]; intros i Hnd Hi; [discriminate |].
  apply NoDup_cons in Hnd as [Hx Hnd]. simpl.
  destruct (Nat.eqb x c) eqn:E.
  - apply Nat.eqb_eq in E as ->.
    assert (i = 0) as ->.
    { destruct i as [| i]; [reflexivity |]. simpl in Hi.
      exfalso. apply Hx. eapply list_elem_of_lookup_2, Hi. }
    destruct (run_end_spec h (weight h c) c bl) as (k & Hk & Hrun & Hend).
    exists k, (run_end h (weight h c) c bl). split; [reflexivity |]. split; [lia |].
    split; [exact Hk |]. split; [| exact Hend].
    intros [| m] y Hm Hy; simpl in Hy; [congruence | apply (Hrun m); [lia | exact Hy]].
  - apply Nat.eqb_neq in E. destruct i as [| i]; simpl in Hi; [congruence |].
    destruct (IH i Hnd Hi) as (j & last & Hl & Hij & Hj & Hrun & Hend).
    exists (S j), last. split; [exact Hl |]. split; [lia |]. split; [exact Hj |].
    split; [| exact Hend].
    intros [| k] y Hk Hy; [lia |]. simpl in Hy. apply (Hrun k); [lia | exact Hy].
Qed.

Lemma Bprevious_from_spec (prev : nat) (l : BList) (x k : nat) :
  NoDup l → l !! k = Some x → Bprevious_from prev l x = (prev :: l) !! k.
Proof.
  revert prev k. induction l as [| y l IH]; intros prev k Hnd Hk; [discriminate |].
  apply NoDup_cons in Hnd as [Hy Hnd]. simpl.
  destruct (Nat.eqb y x) eqn:E.
  - apply Nat.eqb_eq in E as ->. destruct k as [| k]; [reflexivity |].
    simpl in Hk. exfalso. apply Hy. eapply list_elem_of_lookup_2, Hk.
  - apply Nat.eqb_neq in E. destruct k as [| k]; simpl in Hk; [congruence |].
    apply (IH y k Hnd Hk).
Qed.

Lemma Bprevious_spec (bl : BList) (x j : nat) :
  NoDup bl → bl !! j = Some x →
  Bprevious bl x = match j with 0 => None | S j' => bl !! j' end.
Proof.
  intros Hnd Hj. destruct bl as [| y l]; [discriminate |].
  apply NoDup_cons in Hnd as [Hy Hnd]. simpl.
  destruct (Nat.eqb y x) eqn:E.
  - apply Nat.eqb_eq in E as ->. destruct j as [| j]; [reflexivity |].
    simpl in Hj. exfalso. apply Hy. eapply list_elem_of_lookup_2, Hj.
  - apply Nat.eqb_neq in E. destruct j as [| j]; simpl in Hj; [congruence |].
    apply (Bprevious_from_spec y l x j Hnd Hj).
Qed.

Lemma linked_spec (h : Heap) (a b : nat) :
  a < length h → b < length h →
  ∃ v, linked h a b = Some v
       ∧ (v = true ↔ parent_of h a = Some b ∨ parent_of h b = Some a).
Proof.
  intros Ha Hb. unfold linked, parent_of.
  apply lookup_lt_is_Some in Ha as [an Ea]. apply lookup_lt_is_Some in Hb as [bn Eb].
  rewrite Ea, Eb. cbn [mbind option_bind].
  destruct (ptr_eqb (parent an) (Some b)) eqn:E1.
  - apply ptr_eqb_eq in E1. exists true. split; [reflexivity |]. tauto.
  - cbn [mbind option_bind]. eexists. split; [reflexivity |]. rewrite ptr_eqb_eq.
    split; [tauto |]. intros [E | E]; [| exact E].
    rewrite E, ptr_eqb_refl in E1. discriminate.
Qed.

Lemma linked_to_prelast_spec (h : Heap) (c pl : nat) :
  c < length h → pl < length h →
  ∃ v, linked_to_prelast h c (Some pl) = Some v
       ∧ (v = true ↔ parent_of h c = Some pl ∨ parent_of h pl = Some c).
Proof.
  intros Ha Hb. unfold linked_to_prelast, parent_of.
  apply lookup_lt_is_Some in Ha as [an Ea]. apply lookup_lt_is_Some in Hb as [bn Eb].
  rewrite Ea, Eb. cbn [mbind option_bind].
  destruct (ptr_eqb (parent an) (Some pl)) eqn:E1.
  - apply ptr_eqb_eq in E1. exists true. split; [reflexivity |]. tauto.
  - cbn [mbind option_bind]. eexists. split; [reflexivity |]. rewrite ptr_eqb_eq.
    split; [tauto |]. intros [E | E]; [| exact E].
    rewrite E, ptr_eqb_refl in E1. discriminate.
Qed.

Section SuccessorSpec.

Variable lz : LiteralCoder.

(** What [HFsuccessor] answers on a sibling index that lists every node
    once: a node further on in the block of [c] that no parent link joins to
    [c], or none, which happens when [c] ends its block or a parent link
    joins it to the end of its block; and it is none when [c] ends its
    block. *)
Lemma HFsuccessor_spec (tree : HFtree lz) (c i : nat) :
  NoDup (blockList tree) →
  (∀ n, n ∈ blockList tree → n < length (heap tree)) →
  blockList tree !! i = Some c →
  ∃ succ, HFsuccessor lz tree c = Some succ
    ∧ match succ with
      | Some s =>
          ∃ j, i < j ∧ blockList tree !! j = Some s
               ∧ (∀ k x, i ≤ k ≤ j → blockList tree !! k = Some x →
                         weight (heap tree) x = weight (heap tree) c)
               ∧ parent_of (heap tree) c ≠ Some s ∧ parent_of (heap tree) s ≠ Some c
      | None =>
          (∀ y, blockList tree !! S i = Some y → weight (heap tree) y ≠ weight (heap tree) c)
          ∨ ∃ j last, i < j ∧ blockList tree !! j = Some last
                      ∧ (∀ y, blockList tree !! S j = Some y →
                              weight (heap tree) y ≠ weight (heap tree) c)
                      ∧ (parent_of (heap tree) c = Some last
                         ∨ parent_of (heap tree) last = Some c)
      end
    ∧ ((∀ y, blockList tree !! S i = Some y → weight (heap tree) y ≠ weight (heap tree) c) →
       succ = None).
Proof.
  intros Hnd Hall Hi.
  destruct (Blast_spec (heap tree) (blockList tree) c i Hnd Hi)
    as (j & last & Hlast & Hij & Hj & Hrun & Hend).
  assert (Hcv : c < length (heap tree)) by (eapply Hall, list_elem_of_lookup_2, Hi).
  assert (Hlv : last < length (heap tree)) by (eapply Hall, list_elem_of_lookup_2, Hj).
  unfold HFsuccessor. rewrite Hlast. cbn [mbind option_bind].
  destruct (Nat.eqb last c) eqn:Elc.
  { apply Nat.eqb_eq in Elc as ->. pose proof (NoDup_lookup _ _ _ _ Hnd Hi Hj) as <-.
    exists None. split; [reflexivity |]. split; [left; exact Hend | reflexivity]. }
  apply Nat.eqb_neq in Elc.
  assert (Hlt : i < j).
  { destruct (decide (i = j)) as [<- | Hne]; [congruence | lia]. }
  assert (Hnotend : ¬ ∀ y, blockList tree !! S i = Some y →
                           weight (heap tree) y ≠ weight (heap tree) c).
  { intros Hc. destruct (lookup_lt_is_Some_2 (blockList tree) (S i)) as [y Hy].
    { apply lookup_lt_Some in Hj. lia. }
    apply (Hc y Hy). apply (Hrun (S i)); [lia | exact Hy]. }
  rewrite (Bprevious_spec _ _ _ Hnd Hj). destruct j as [| j]; [lia |].
  destruct (lookup_lt_is_Some_2 (blockList tree) j) as [pl Hpl].
  { apply lookup_lt_Some in Hj. lia. }
  assert (Hpv : pl < length (heap tree)) by (eapply Hall, list_elem_of_lookup_2, Hpl).
  rewrite Hpl.
  destruct (linked_spec (heap tree) c last Hcv Hlv) as (v & Hv & Hviff).
  assert (Hlul : ∃ succ, last_unless_linked (heap tree) c last = Some succ
    ∧ match succ with
      | Some s =>
          ∃ j0, i < j0 ∧ blockList tree !! j0 = Some s
               ∧ (∀ k x, i ≤ k ≤ j0 → blockList tree !! k = Some x →
                         weight (heap tree) x = weight (heap tree) c)
               ∧ parent_of (heap tree) c ≠ Some s ∧ parent_of (heap tree) s ≠ Some c
      | None =>
          (∀ y, blockList tree !! S i = Some y → weight (heap tree) y ≠ weight (heap tree) c)
          ∨ ∃ j0 last0, i < j0 ∧ blockList tree !! j0 = Some last0
                      ∧ (∀ y, blockList tree !! S j0 = Some y →
                              weight (heap tree) y ≠ weight (heap tree) c)
                      ∧ (parent_of (heap tree) c = Some last0
                         ∨ parent_of (heap tree) last0 = Some c)
      end).
  { unfold last_unless_linked. rewrite Hv. cbn [mbind option_bind]. destruct v.
    - exists None. split; [reflexivity |]. right. exists (S j), last.
      split; [exact Hlt |]. split; [exact Hj |]. split; [exact Hend |]. apply Hviff. reflexivity.
    - exists (Some last). split; [reflexivity |]. exists (S j).
      split; [exact Hlt |]. split; [exact Hj |]. split; [exact Hrun |].
      split; intros E; assert (false = true) by (apply Hviff; auto); discriminate. }
  destruct (ptr_eqb (Some c) (Some pl)) eqn:Ecp.
  { destruct Hlul as (succ & E & Hsucc). exists succ. split; [exact E |].
    split; [exact Hsucc |]. intros Hc. contradiction. }
  assert (Hcp : c ≠ pl).
  { intros ->. rewrite ptr_eqb_refl in Ecp. discriminate. }
  destruct (linked_to_prelast_spec (heap tree) c pl Hcv Hpv) as (u & Hu & Huiff).
  rewrite Hu. cbn [mbind option_bind]. destruct u.
  { destruct Hlul as (succ & E & Hsucc). exists succ. split; [exact E |].
    split; [exact Hsucc |]. intros Hc. contradiction. }
  exists (Some pl). split; [reflexivity |]. split; [| intros Hc; contradiction].
  exists j. split.
  { destruct (decide (i = j)) as [-> | Hne]; [congruence | lia]. }
  split; [exact Hpl |]. split; [intros k x Hk; apply Hrun; lia |].
  split; intros E; assert (false = true) by (apply Huiff; auto); discriminate.
Qed.

End SuccessorSpec.

(** ** One pass of the update keeps the shape *)

Lemma lookup_map_exchange (c s : nat) (bl : BList) (k n : nat) :
  map (exchange c s) bl !! k = Some n ↔ bl !! k = Some (exchange c s n).
Proof.
  change (map (exchange c s) bl) with (exchange c s <$> bl).
  rewrite list_lookup_fmap. destruct (bl !! k) as [x |]; simpl; [| split; discriminate].
  split; intros H; injection H as H; f_equal.
  - rewrite <- H. symmetry. apply exchange_involutive.
  - rewrite H. apply exchange_involutive.
Qed.

#[global] Instance exchange_inj (c s : nat) : Inj eq eq (exchange c s).
Proof.
  intros x y H. rewrite <- (exchange_involutive c s x), H. apply exchange_involutive.
Qed.

Lemma children_of (h : Heap) (r p a b : nat) :
  tree_ok h r → a ≠ b → parent_of h a = Some p → parent_of h b = Some p →
  (low_of h p = Some a ∧ high_of h p = Some b) ∨ (low_of h p = Some b ∧ high_of h p = Some a).
Proof.
  intros Hok Hab Ha Hb.
  destruct (ok_parent _ _ Hok _ _ Ha) as [La | Ha'], (ok_parent _ _ Hok _ _ Hb) as [Lb | Hb'];
    try (left; split; assumption); try (right; split; assumption); congruence.
Qed.

Lemma children_only (h : Heap) (r p a b x : nat) :
  tree_ok h r → a ≠ b → parent_of h a = Some p → parent_of h b = Some p →
  parent_of h x = Some p → x = a ∨ x = b.
Proof.
  intros Hok Hab Ha Hb Hx.
  destruct (children_of h r p a b Hok Hab Ha Hb) as [[L H] | [L H]],
    (ok_parent _ _ Hok _ _ Hx) as [Lx | Hx']; [left | right | right | left]; congruence.
Qed.

Section StepPreservation.

Variables (h h' : Heap) (bl : BList) (r e c s i j : nat).

Hypothesis Htree : tree_ok h r.
Hypothesis Hord : order_ok h bl.
Hypothesis Hpre : prefix_ok h bl e.
Hypothesis Hw : weights_ok h e (Some c).
Hypothesis Hleaf : low_of h e = None.
Hypothesis Hcv : c < length h.
Hypothesis Hce : c ≠ e.
Hypothesis Hsw : swapped_from h h' c s.
Hypothesis Hi : bl !! i = Some c.
Hypothesis Hj : bl !! j = Some s.
Hypothesis Hij : i ≤ j.
Hypothesis Hrun : ∀ k x, i ≤ k ≤ j → bl !! k = Some x → weight h x = weight h c.
Hypothesis Hunlinked : s ≠ c → parent_of h c ≠ Some s ∧ parent_of h s ≠ Some c.
Hypothesis Hstays : parent_of h e = Some c → s = c.

Local Abbreviation σ := (exchange c s).

Lemma step_length : length h' = length h.
Proof using All. apply Hsw. Qed.

Lemma step_sv : s < length h.
Proof using All. apply (ord_all _ _ Hord). eapply list_elem_of_lookup_2, Hj. Qed.

Lemma step_low (q : nat) : low_of h' q = σ <$> low_of h q.
Proof using All. apply Hsw. Qed.

Lemma step_high (q : nat) : high_of h' q = σ <$> high_of h q.
Proof using All. apply Hsw. Qed.

Lemma step_parent (q : nat) : parent_of h' q = parent_of h (σ q).
Proof using All.
  destruct Hsw as (_ & _ & _ & Hp & _). rewrite Hp.
  destruct (exchange_cases c s q) as [[-> ->] | [[-> ->] | (Hc & Hs & ->)]].
  - rewrite decide_True by reflexivity. reflexivity.
  - destruct (decide (s = c)) as [-> | Hne]; [reflexivity |].
    rewrite decide_True by reflexivity. reflexivity.
  - rewrite !decide_False by assumption. reflexivity.
Qed.

Lemma step_weight (q : nat) :
  weight h' q = if decide (q = c) then (weight h q + 1)%N else weight h q.
Proof using All. apply Hsw. Qed.

Lemma step_same_weight : weight h s = weight h c.
Proof using All. apply (Hrun j); [lia | exact Hj]. Qed.

Lemma step_weight_sigma (q : nat) : weight h (σ q) = weight h q.
Proof using All.
  destruct (exchange_cases c s q) as [[-> ->] | [[-> ->] | (_ & _ & ->)]];
    [apply step_same_weight | symmetry; apply step_same_weight | reflexivity].
Qed.

Lemma step_i_pos : 0 < i.
Proof using All.
  destruct Hpre as (m & pe & rest & -> & _). destruct i; [simpl in Hi; congruence | lia].
Qed.

Lemma step_se : s ≠ e.
Proof using All.
  pose proof step_i_pos as Hpos. destruct Hpre as (m & pe & rest & E & _).
  intros ->. assert (bl !! 0 = Some e) by (rewrite E; reflexivity).
  pose proof (NoDup_lookup _ _ _ _ (ord_nodup _ _ Hord) Hj H). lia.
Qed.

Lemma step_sigma_e : σ e = e.
Proof using All.
  apply exchange_other; [congruence | pose proof step_se; congruence].
Qed.

Lemma step_tree_ok : tree_ok h' (σ r).
Proof using All.
  pose proof step_sv as Hsv. split.
  - rewrite step_length. pose proof (ok_root_valid _ _ Htree).
    destruct (exchange_cases c s r) as [[_ ->] | [[_ ->] | (_ & _ & ->)]]; assumption.
  - intros n Hn. rewrite step_parent. rewrite step_length in Hn.
    assert (Hv : σ n < length h).
    { destruct (exchange_cases c s n) as [[_ ->] | [[_ ->] | (_ & _ & ->)]];
        assumption. }
    rewrite (ok_root _ _ Htree _ Hv). split; intros E.
    + rewrite <- E. rewrite exchange_involutive. reflexivity.
    + rewrite E. apply exchange_involutive.
  - intros n p. rewrite step_parent, step_low, step_high. intros Hp.
    destruct (ok_parent _ _ Htree _ _ Hp) as [-> | ->]; simpl;
      rewrite exchange_involutive; auto.
  - intros p x. rewrite step_parent, step_low, step_high. intros Hx.
    apply (ok_child _ _ Htree).
    destruct Hx as [Hx | Hx]; [left | right];
      (destruct (_ h p) as [y |]; simpl in Hx; [| discriminate]);
      injection Hx as <-; rewrite exchange_involutive; reflexivity.
  - intros n. rewrite step_low, step_high.
    pose proof (ok_binary _ _ Htree n) as Hb.
    destruct (low_of h n), (high_of h n); simpl; split; intros E;
      try discriminate; try reflexivity; exfalso; destruct Hb as [Hb1 Hb2];
      (discriminate (Hb1 eq_refl) || discriminate (Hb2 eq_refl)).
  - intros n a. rewrite step_low, step_high. intros Hl Hh.
    destruct (low_of h n) as [x |] eqn:Ex; simpl in Hl; [| discriminate].
    destruct (high_of h n) as [y |] eqn:Ey; simpl in Hh; [| discriminate].
    injection Hl as <-. injection Hh as Hh. apply (inj (exchange c s)) in Hh as ->.
    apply (ok_distinct _ _ Htree n x Ex Ey).
Qed.

Lemma step_order_nodup : NoDup (map σ bl).
Proof using All.
  change (NoDup (σ <$> bl)). apply NoDup_fmap; [apply _ | apply (ord_nodup _ _ Hord)].
Qed.

Lemma step_order_all (n : nat) : n ∈ map σ bl ↔ n < length h'.
Proof using All.
  pose proof step_sv as Hsv. rewrite step_length.
  change (n ∈ σ <$> bl ↔ n < length h). rewrite list_elem_of_fmap. split.
  - intros (x & -> & Hx). apply (ord_all _ _ Hord) in Hx.
    destruct (exchange_cases c s x) as [[_ ->] | [[_ ->] | (_ & _ & ->)]]; assumption.
  - intros Hn. exists (σ n). split; [rewrite exchange_involutive; reflexivity |].
    apply (ord_all _ _ Hord).
    destruct (exchange_cases c s n) as [[_ ->] | [[_ ->] | (_ & _ & ->)]]; assumption.
Qed.

(** The children of the node picked come before the current node. *)
Lemma step_children_of_s (y a : nat) :
  s ≠ c → parent_of h y = Some s → bl !! a = Some y → a < i.
Proof using All.
  intros Hsc Hy Ha. destruct (Hunlinked Hsc) as [Hcs Hsc'].
  pose proof step_i_pos as Hpos. pose proof step_sv as Hsv.
  pose proof (ord_parent_later _ _ Hord _ _ _ _ Hy Ha Hj) as Haj.
  destruct (decide (a < i)) as [Hlt | Hge]; [exact Hlt | exfalso].
  assert (Hwy : weight h y = weight h c) by (apply (Hrun a); [lia | exact Ha]).
  pose proof step_same_weight as Hws.
  destruct Hw as (Hsum & He0 & Hzero).
  (* the other child of [s] weighs nothing *)
  assert (Hz : ∃ z, parent_of h z = Some s ∧ z ≠ y ∧ weight h z = 0%N).
  { destruct (ok_parent _ _ Htree _ _ Hy) as [Ly | Hy'].
    - destruct (high_of h s) as [z |] eqn:Ez;
        [| apply (ok_binary _ _ Htree) in Ez; congruence].
      exists z. split; [apply (ok_child _ _ Htree); auto |].
      split; [intros ->; apply (ok_distinct _ _ Htree s y Ly Ez) |].
      pose proof (Hsum s y z Ly Ez) as E. rewrite decide_False in E by congruence. lia.
    - destruct (low_of h s) as [z |] eqn:Ez;
        [| apply (ok_binary _ _ Htree) in Ez; congruence].
      exists z. split; [apply (ok_child _ _ Htree); auto |].
      split; [intros ->; apply (ok_distinct _ _ Htree s y Ez Hy') |].
      pose proof (Hsum s z y Ez Hy') as E. rewrite decide_False in E by congruence. lia. }
  destruct Hz as (z & Hzs & Hzy & Hz0).
  assert (Hzv : z < length h) by (eapply parent_of_valid, Hzs).
  destruct (Hzero z Hzv Hz0) as [-> | [E | (x & E & Hx)]].
  - (* the other child is the escape leaf: [s] is its parent, at place 2 *)
    destruct Hpre as (m & pe & rest & Ebl & Hpe & Hm).
    assert (s = pe) as -> by congruence.
    assert (bl !! 2 = Some pe) as H2 by (rewrite Ebl; reflexivity).
    pose proof (NoDup_lookup _ _ _ _ (ord_nodup _ _ Hord) Hj H2) as ->.
    assert (a = i) as -> by lia. congruence.
  - injection E as ->. congruence.
  - injection E as <-.
    (* the other child is the parent of [c], so [c] weighs nothing, and so does [s] *)
    assert (Hc0 : weight h c = 0%N).
    { destruct (ok_parent _ _ Htree _ _ Hx) as [Lc | Hc'].
      - destruct (high_of h z) as [u |] eqn:Eu;
          [| apply (ok_binary _ _ Htree) in Eu; congruence].
        pose proof (Hsum z c u Lc Eu) as E. rewrite decide_False in E; [lia |].
        intros E'. injection E' as ->. congruence.
      - destruct (low_of h z) as [u |] eqn:Eu;
          [| apply (ok_binary _ _ Htree) in Eu; congruence].
        pose proof (Hsum z u c Eu Hc') as E. rewrite decide_False in E; [lia |].
        intros E'. injection E' as ->. congruence. }
    assert (Hs0 : weight h s = 0%N) by lia.
    destruct (Hzero s Hsv Hs0) as [E | [E | (x & E & Hx')]].
    + rewrite E in Hy. pose proof (proj1 (ok_binary _ _ Htree e) Hleaf) as Hhigh.
      destruct (ok_parent _ _ Htree _ _ Hy); congruence.
    + injection E as ->. congruence.
    + injection E as <-. congruence.
Qed.

Lemma step_order_ok : order_ok h' (map σ bl).
Proof using All.
  split.
  - exact step_order_nodup.
  - exact step_order_all.
  - intros n p a b. rewrite step_parent, !lookup_map_exchange. intros Hp Ha Hb.
    destruct (exchange_cases c s p) as [[-> E] | [[-> E] | (Hpc & Hps & E)]];
      rewrite E in Hb.
    + (* the parent is [c], now at the place of [s] *)
      pose proof (NoDup_lookup _ _ _ _ (ord_nodup _ _ Hord) Hb Hj) as ->.
      pose proof (ord_parent_later _ _ Hord _ _ _ _ Hp Ha Hi). lia.
    + (* the parent is [s], now at the place of [c] *)
      pose proof (NoDup_lookup _ _ _ _ (ord_nodup _ _ Hord) Hb Hi) as ->.
      destruct (decide (s = c)) as [-> | Hsc].
      * apply (ord_parent_later _ _ Hord _ _ _ _ Hp Ha Hi).
      * apply (step_children_of_s (σ n) a Hsc Hp Ha).
    + apply (ord_parent_later _ _ Hord _ _ _ _ Hp Ha Hb).
  - intros a b p x y Hab. rewrite !step_parent, !lookup_map_exchange.
    intros Ha Hb Hx Hy. apply (ord_siblings _ _ Hord (σ a) (σ b) p x y); try assumption.
    intros E. apply Hab. apply (inj σ), E.
Qed.

Lemma step_prefix_ok : prefix_ok h' (map σ bl) e.
Proof using All.
  pose proof step_sigma_e as Hse. pose proof step_i_pos as Hpos.
  destruct Hpre as (m & pe & rest & Ebl & Hpe & Hm).
  assert (Hσpe : σ pe = pe).
  { destruct (decide (s = c)) as [-> | Hsc]; [apply exchange_same |].
    apply exchange_other.
    - intros ->. apply Hsc, Hstays, Hpe.
    - intros ->. assert (bl !! 2 = Some s) as H2 by (rewrite Ebl; reflexivity).
      pose proof (NoDup_lookup _ _ _ _ (ord_nodup _ _ Hord) Hj H2) as ->.
      assert (i ≠ 2) by (intros E; rewrite E in Hi; congruence).
      assert (i = 1) as E1 by lia. rewrite E1, Ebl in Hi. simpl in Hi. injection Hi as Hi.
      destruct (Hunlinked Hsc). congruence. }
  exists (σ m), pe, (map σ rest). split; [| split].
  - rewrite Ebl. simpl. rewrite Hse, Hσpe. reflexivity.
  - rewrite step_parent, Hse. exact Hpe.
  - rewrite step_parent. rewrite exchange_involutive. exact Hm.
Qed.

Lemma step_weights_ok : weights_ok h' e (parent_of h' c).
Proof using All.
  pose proof step_tree_ok as Htree'. pose proof step_same_weight as Hws.
  pose proof step_sv as Hsv. pose proof step_se as Hse.
  pose proof step_parent as Hpar.
  destruct Hw as (Hsum & He0 & Hzero). split; [| split].
  - intros n a b. rewrite step_low, step_high. intros La Hb.
    destruct (low_of h n) as [a0 |] eqn:Ea; simpl in La; [| discriminate].
    destruct (high_of h n) as [b0 |] eqn:Eb; simpl in Hb; [| discriminate].
    injection La as <-. injection Hb as <-.
    pose proof (Hsum n a0 b0 Ea Eb) as E.
    rewrite !step_weight, !step_weight_sigma.
    assert (La' : low_of h' n = Some (σ a0)) by (rewrite step_low, Ea; reflexivity).
    assert (Hb' : high_of h' n = Some (σ b0)) by (rewrite step_high, Eb; reflexivity).
    pose proof (ok_distinct _ _ Htree' n _ La') as Hd.
    destruct (decide (parent_of h' c = Some n)) as [Hp | Hp].
    + destruct (ok_parent _ _ Htree' _ _ Hp) as [Lc | Hc'].
      * assert (σ a0 = c) as -> by congruence.
        assert (σ b0 ≠ c) by (intros E'; apply Hd; congruence).
        rewrite (decide_True (P := c = c)) by reflexivity.
        rewrite (decide_False (P := σ b0 = c)) by assumption.
        destruct (decide (n = c)), (decide (Some c = Some n)); try congruence; lia.
      * assert (σ b0 = c) as -> by congruence.
        assert (σ a0 ≠ c) by (intros E'; apply Hd; congruence).
        rewrite (decide_True (P := c = c)) by reflexivity.
        rewrite (decide_False (P := σ a0 = c)) by assumption.
        destruct (decide (n = c)), (decide (Some c = Some n)); try congruence; lia.
    + assert (σ a0 ≠ c).
      { intros E'. apply Hp, (ok_child _ _ Htree'). left. congruence. }
      assert (σ b0 ≠ c).
      { intros E'. apply Hp, (ok_child _ _ Htree'). right. congruence. }
      rewrite (decide_False (P := σ a0 = c)), (decide_False (P := σ b0 = c)) by assumption.
      destruct (decide (n = c)), (decide (Some c = Some n)); try congruence; lia.
  - rewrite step_weight, decide_False by congruence. exact He0.
  - intros n Hn. rewrite step_weight. rewrite step_length in Hn.
    destruct (decide (n = c)) as [-> | Hnc]; [lia |]. intros Hn0.
    destruct (Hzero n Hn Hn0) as [-> | [E | (x & E & Hx)]]; [auto | congruence |].
    injection E as <-. right. left.
    destruct (decide (s = c)) as [Esc | Hsc].
    { rewrite Hpar, Esc, exchange_same. exact Hx. }
    exfalso. destruct (Hunlinked Hsc) as [Hcs Hsc'].
    assert (Hc0 : weight h c = 0%N).
    { destruct (ok_parent _ _ Htree _ _ Hx) as [Lc | Hc'].
      - destruct (high_of h n) as [u |] eqn:Eu;
          [| apply (ok_binary _ _ Htree) in Eu; congruence].
        pose proof (Hsum n c u Lc Eu) as E. rewrite decide_False in E by congruence. lia.
      - destruct (low_of h n) as [u |] eqn:Eu;
          [| apply (ok_binary _ _ Htree) in Eu; congruence].
        pose proof (Hsum n u c Eu Hc') as E. rewrite decide_False in E by congruence. lia. }
    assert (Hs0 : weight h s = 0%N) by lia.
    destruct (Hzero s Hsv Hs0) as [E | [E | (x & E & Hx')]].
    + apply Hse, E.
    + congruence.
    + congruence.
Qed.

Lemma step_table_ok (tbl : HTable) : table_ok h tbl e → table_ok h' tbl e.
Proof using All.
  destruct Hsw as (Hlen & Hl & Hh & _ & _ & Ht).
  intros (Hev & Hel & Heh & Het & Htbl). split; [lia |].
  split; [rewrite Hl, Hel; reflexivity |]. split; [rewrite Hh, Heh; reflexivity |].
  split; [rewrite Ht; exact Het |].
  intros t n Hk. destruct (Htbl t n Hk) as (Hnl & Hnh & Hnt & Hne).
  rewrite Hl, Hh, Ht, Hnl, Hnh. auto.
Qed.

(** Where the current node ends up. *)
Lemma step_position : map σ bl !! j = Some c.
Proof using All. apply lookup_map_exchange. rewrite exchange_left. exact Hj. Qed.

Hypothesis Hnone :
  s = c →
  (∀ y, bl !! S i = Some y → weight h y ≠ weight h c)
  ∨ ∃ j0 last0, i < j0 ∧ bl !! j0 = Some last0
                ∧ (∀ y, bl !! S j0 = Some y → weight h y ≠ weight h c)
                ∧ (parent_of h c = Some last0 ∨ parent_of h last0 = Some c).

Lemma step_current_ok : current_ok h' (map σ bl) e (parent_of h' c).
Proof using All.
  pose proof step_sv as Hsv. pose proof step_se as Hse. pose proof step_i_pos as Hpos.
  pose proof step_sigma_e as Hσe. pose proof step_length as Hlen.
  pose proof step_parent as Hpar. pose proof step_weight as Hwt.
  rewrite Hpar, exchange_left.
  destruct (parent_of h s) as [x |] eqn:Hx; [| exact I]. simpl.
  split; [rewrite Hlen; apply (tree_ok_parent_valid _ _ _ _ Htree Hx) |].
  split.
  { intros ->. pose proof (proj1 (ok_binary _ _ Htree e) Hleaf) as Hhigh.
    destruct (ok_parent _ _ Htree _ _ Hx); congruence. }
  rewrite Hpar, Hσe. intros Hex y Hy.
  destruct Hpre as (m & pe & rest & Ebl & Hpe & Hm).
  assert (x = pe) as Exp by congruence. rewrite Exp in *. clear Exp.
  assert (Hem : e ≠ m).
  { intros E. pose proof (ord_nodup _ _ Hord) as Hnd. rewrite Ebl, E in Hnd.
    apply NoDup_cons in Hnd as [Hin _]. apply Hin. left. }
  assert (Esm : s = m).
  { destruct (children_only h r pe e m s Htree Hem Hpe Hm Hx); congruence. }
  assert (H1 : bl !! 1 = Some m) by (rewrite Ebl; reflexivity).
  assert (H2 : bl !! 2 = Some pe) by (rewrite Ebl; reflexivity).
  assert (Ej : j = 1).
  { rewrite Esm in Hj. apply (NoDup_lookup _ _ _ _ (ord_nodup _ _ Hord) Hj H1). }
  assert (Ei : i = 1) by lia.
  assert (Esc : s = c) by (rewrite Ei, H1 in Hi; congruence).
  assert (Hcm : c = m) by congruence.
  apply lookup_map_exchange in Hy. rewrite Esc, exchange_same in Hy.
  assert (Hyc : y ≠ c).
  { intros E. rewrite E, Hcm in Hy.
    pose proof (NoDup_lookup _ _ _ _ (ord_nodup _ _ Hord) Hy H1). lia. }
  assert (Hpc : pe ≠ c).
  { intros E. rewrite E, Hcm in H2.
    pose proof (NoDup_lookup _ _ _ _ (ord_nodup _ _ Hord) H2 H1). lia. }
  rewrite !Hwt, !decide_False by assumption.
  assert (Hwpe : weight h pe = weight h c).
  { destruct Hw as (Hsum & He0 & _).
    destruct (children_of h r pe e m Htree Hem Hpe Hm) as [[L H] | [L H]].
    - pose proof (Hsum pe e m L H) as E. rewrite decide_False in E by congruence.
      rewrite Hcm. lia.
    - pose proof (Hsum pe m e L H) as E. rewrite decide_False in E by congruence.
      rewrite Hcm. lia. }
  rewrite Hwpe.
  destruct (Hnone Esc) as [Hend | (j0 & last0 & Hj0 & Hl0 & Hend & [Hl | Hl])].
  - exfalso. apply (Hend pe); [rewrite Ei; exact H2 | exact Hwpe].
  - assert (last0 = pe) as El by congruence. rewrite El in Hl0.
    pose proof (NoDup_lookup _ _ _ _ (ord_nodup _ _ Hord) Hl0 H2) as E2.
    rewrite E2 in Hend. apply Hend, Hy.
  - pose proof (ord_parent_later _ _ Hord _ _ _ _ Hl Hl0 Hi). lia.
Qed.

End StepPreservation.

Lemma order_length (h : Heap) (bl : BList) : order_ok h bl → length bl = length h.
Proof.
  intros Hord. rewrite <- (length_seq (length h) 0).
  apply Permutation_length, NoDup_Permutation.
  - apply (ord_nodup _ _ Hord).
  - apply NoDup_seq.
  - intros n. rewrite (ord_all _ _ Hord), elem_of_seq. lia.
Qed.

Section Update.

Variable lz : LiteralCoder.

(** One pass of the loop of [HFupdate] succeeds at a node that satisfies the
    invariant, and leaves the invariant for the parent it goes on with. *)
Lemma HFupdate_step_ok (tree : HFtree lz) (c i : nat) :
  engine_ok tree (Some c) → blockList tree !! i = Some c →
  ∃ tree' j,
    HFupdate_step lz tree c = Some tree'
    ∧ engine_ok tree' (parent_of (heap tree') c)
    ∧ i ≤ j ∧ blockList tree' !! j = Some c
    ∧ length (heap tree') = length (heap tree)
    ∧ top tree' = top tree ∧ terms tree' = terms tree ∧ buffer tree' = buffer tree.
Proof.
  intros (r & e & Hc & Ht & Htree & Hord & Hpre & Hw & Htbl & Hcv & Hce & Hlast) Hi.
  destruct (HFsuccessor_spec lz tree c i (ord_nodup _ _ Hord)
              (λ n, proj1 (ord_all _ _ Hord n)) Hi) as (succ & Esucc & Hsucc & Hend).
  set (s := default c succ).
  assert (Hs : ∃ j, blockList tree !! j = Some s ∧ i ≤ j
                    ∧ (s ≠ c → i < j)
                    ∧ (∀ k x, i ≤ k ≤ j → blockList tree !! k = Some x →
                              weight (heap tree) x = weight (heap tree) c)
                    ∧ (s ≠ c → parent_of (heap tree) c ≠ Some s
                               ∧ parent_of (heap tree) s ≠ Some c)).
  { subst s. destruct succ as [x |]; simpl.
    - destruct Hsucc as (j & Hij & Hj & Hrun & Hl1 & Hl2). exists j.
      split; [exact Hj |]. split; [lia |]. split; [intros _; exact Hij |].
      split; [exact Hrun |]. intros _. split; assumption.
    - exists i. split; [exact Hi |]. split; [lia |]. split; [congruence |].
      split; [| congruence]. intros k x Hk Hx. assert (k = i) as -> by lia. congruence. }
  destruct Hs as (j & Hj & Hij & Hlt & Hrun & Hunl).
  assert (Hsv : s < length (heap tree)).
  { apply (ord_all _ _ Hord). eapply list_elem_of_lookup_2, Hj. }
  assert (Hsome : ∀ x, succ = Some x → x < length (heap tree) ∧ x ≠ c).
  { intros x ->. simpl in *. split; [exact Hsv |]. intros E.
    destruct Hsucc as (j' & Hij' & Hj' & _). rewrite E in Hj'.
    pose proof (NoDup_lookup _ _ _ _ (ord_nodup _ _ Hord) Hi Hj'). lia. }
  destruct (HFupdate_step_spec lz tree r c succ Hc Htree Hcv Esucc Hsome)
    as (tree' & Estep & Hc' & Ht' & Htb' & Hbf' & Hbl' & Hsw).
  fold s in Hc', Hbl', Hsw.
  assert (Hleaf : low_of (heap tree) e = None) by apply Htbl.
  assert (Hstays : parent_of (heap tree) e = Some c → s = c).
  { intros Hec. subst s. rewrite Hend; [reflexivity |]. intros y Hy.
    destruct Hpre as (m & pe & rest & Ebl & Hpe & _).
    assert (pe = c) as Epc by congruence.
    assert (H2 : blockList tree !! 2 = Some c) by (rewrite Ebl, Epc; reflexivity).
    pose proof (NoDup_lookup _ _ _ _ (ord_nodup _ _ Hord) Hi H2) as Ei.
    apply (Hlast Hec). rewrite <- Ei. exact Hy. }
  assert (Hnone : s = c →
    (∀ y, blockList tree !! S i = Some y → weight (heap tree) y ≠ weight (heap tree) c)
    ∨ ∃ j0 last0, i < j0 ∧ blockList tree !! j0 = Some last0
                  ∧ (∀ y, blockList tree !! S j0 = Some y →
                          weight (heap tree) y ≠ weight (heap tree) c)
                  ∧ (parent_of (heap tree) c = Some last0
                     ∨ parent_of (heap tree) last0 = Some c)).
  { intros Esc. subst s. destruct succ as [x |]; [| exact Hsucc].
    simpl in Esc. destruct (Hsome x eq_refl). congruence. }
  exists tree', j. split; [exact Estep |]. split.
  - exists (exchange c s r), e. rewrite Hbl', Htb'.
    split; [exact Hc' |]. split; [congruence |].
    split; [apply (step_tree_ok (heap tree) (heap tree') (blockList tree) r e c s i j); assumption |].
    split; [apply (step_order_ok (heap tree) (heap tree') (blockList tree) r e c s i j); assumption |].
    split; [apply (step_prefix_ok (heap tree) (heap tree') (blockList tree) r e c s i j); assumption |].
    split; [apply (step_weights_ok (heap tree) (heap tree') (blockList tree) r e c s i j); assumption |].
    split; [apply (step_table_ok (heap tree) (heap tree') (blockList tree) r e c s i j); assumption |].
    apply (step_current_ok (heap tree) (heap tree') (blockList tree) r e c s i j); assumption.
  - split; [exact Hij |]. split; [rewrite Hbl'; apply (step_position (heap tree) (heap tree') (blockList tree) r e c s i j); assumption |].
    split; [apply Hsw |]. auto.
Qed.

Lemma HFupdate_loop_ok (fuel : nat) (tree : HFtree lz) (c i : nat) :
  engine_ok tree (Some c) → blockList tree !! i = Some c →
  length (blockList tree) - i ≤ fuel →
  ∃ tree', HFupdate_loop lz fuel tree (Some c) = Some tree'
           ∧ engine_ok tree' None
           ∧ length (heap tree') = length (heap tree)
           ∧ top tree' = top tree ∧ terms tree' = terms tree ∧ buffer tree' = buffer tree.
Proof.
  revert tree c i. induction fuel as [| fuel IH]; intros tree c i Hok Hi Hfuel.
  { apply lookup_lt_Some in Hi. lia. }
  destruct (HFupdate_step_ok tree c i Hok Hi)
    as (tree1 & j & Estep & Hok1 & Hij & Hj & Hlen & Ht & Htb & Hbf).
  simpl. rewrite Estep. cbn [mbind option_bind].
  assert (Hcv : c < length (heap tree1)).
  { destruct Hok as (_ & _ & _ & _ & _ & _ & _ & _ & _ & Hcv & _). lia. }
  apply lookup_lt_is_Some in Hcv as [nd End]. rewrite End. cbn [mbind option_bind].
  assert (Epar : parent_of (heap tree1) c = parent nd) by (unfold parent_of; rewrite End; reflexivity).
  rewrite Epar in Hok1. destruct (parent nd) as [c' |].
  - pose proof Hok1 as (r1 & e1 & _ & _ & _ & Hord1 & _).
    assert (Hc'v : c' ∈ blockList tree1).
    { apply (ord_all _ _ Hord1). destruct Hok1 as (_ & _ & _ & _ & _ & _ & _ & _ & _ & H & _).
      exact H. }
    apply list_elem_of_lookup in Hc'v as [k Hk].
    pose proof (ord_parent_later _ _ Hord1 _ _ _ _ Epar Hj Hk) as Hjk.
    assert (Hlen_bl : length (blockList tree1) = length (blockList tree)).
    { destruct Hok as (_ & _ & _ & _ & _ & Hord & _).
      rewrite (order_length _ _ Hord1), (order_length _ _ Hord). exact Hlen. }
    destruct (IH tree1 c' k Hok1 Hk) as (tree' & E & Hok' & Hlen' & Ht' & Htb' & Hbf').
    { apply lookup_lt_Some in Hk. lia. }
    exists tree'. split; [exact E |]. split; [exact Hok' |].
    repeat split; congruence.
  - exists tree1. split; [destruct fuel; reflexivity |]. split; [exact Hok1 |]. auto.
Qed.

(** [HFupdate] from a node that satisfies the invariant ends, and leaves the
    engine at rest with the invariant. *)
Lemma HFupdate_ok (tree : HFtree lz) (c : nat) :
  engine_ok tree (Some c) →
  ∃ tree', HFupdate lz tree (Some c) = Some tree'
           ∧ engine_ok tree' None
           ∧ length (heap tree') = length (heap tree)
           ∧ top tree' = top tree ∧ terms tree' = terms tree ∧ buffer tree' = buffer tree.
Proof.
  intros Hok. pose proof Hok as (r & e & _ & _ & _ & Hord & _ & _ & _ & Hcv & _).
  apply (ord_all _ _ Hord) in Hcv. apply list_elem_of_lookup in Hcv as [i Hi].
  apply (HFupdate_loop_ok _ tree c i Hok Hi).
  rewrite (order_length _ _ Hord). lia.
Qed.

End Update.

(** ** Insertion keeps the shape *)

Lemma accessors_past_end (h : Heap) (q : nat) :
  length h ≤ q →
  parent_of h q = None ∧ low_of h q = None ∧ high_of h q = None
  ∧ weight h q = 0%N ∧ term_of h q = None.
Proof.
  intros H. apply lookup_ge_None in H.
  unfold parent_of, low_of, high_of, weight, term_of. rewrite H. auto.
Qed.

Section InsertOk.

Variable lz : LiteralCoder.

(** The fields of the tree after the normal case of [HFadd]. *)
Lemma HFadd_normal_fields (tree : HFtree lz) (t : aterm) (r e pe : nat) :
  codes tree = Some r → top tree = Some e → tree_ok (heap tree) r →
  parent_of (heap tree) e = Some pe → low_of (heap tree) e = None →
  weight (heap tree) e = 0%N → high_of (heap tree) pe ≠ None →
  ∃ tree2,
    HFadd lz tree t = Some (tree2, S (length (heap tree)))
    ∧ codes tree2 = codes tree ∧ top tree2 = top tree ∧ buffer tree2 = buffer tree
    ∧ terms tree2 = HTbind (terms tree) t (Some (S (length (heap tree))))
    ∧ blockList tree2
      = BLinsert (BLinsert (blockList tree) (length (heap tree))) (S (length (heap tree)))
    ∧ inserted_from (heap tree) (heap tree2) e pe t.
Proof.
  intros Hc Ht Hok Hpe Hleaf Hw0 Hhigh.
  pose proof (parent_of_valid _ _ _ Hpe) as Hev.
  pose proof (tree_ok_parent_valid _ _ _ _ Hok Hpe) as Hpv.
  assert (Hne : pe ≠ e).
  { intros ->. destruct (ok_parent _ _ Hok _ _ Hpe) as [E | E]; [congruence |].
    apply (ok_binary _ _ Hok) in Hleaf. congruence. }
  apply lookup_lt_is_Some in Hev as [en Een]. apply lookup_lt_is_Some in Hpv as [pn Epn].
  assert (Hpar : parent en = Some pe) by (unfold parent_of in Hpe; rewrite Een in Hpe; exact Hpe).
  destruct (high pn) as [x |] eqn:Ehigh;
    [| exfalso; apply Hhigh; unfold high_of; rewrite Epn; exact Ehigh].
  pose proof (HFadd_normal lz tree t e pe x en pn Ht Een Hpar Epn Ehigh Hne) as Hadd.
  cbv zeta in Hadd. eexists. split; [exact Hadd |].
  cbn [codes top buffer terms blockList heap].
  repeat (split; [reflexivity |]).
  set (n := length (heap tree)) in *.
  set (g := if ptr_eqb (low pn) (Some e) then set_low (Some n) else set_high (Some n)).
  set (H2 := <[e := set_parent (Some n) en]> (<[pe := g pn]> (heap tree))).
  set (N := mk_HFnode (Some (S n)) (Some e) (Some pe) (frequency en) aterm_null).
  set (L := mk_HFnode None None (Some n) 0%N t).
  assert (Hlen2 : length H2 = n) by (unfold H2; rewrite !length_insert; reflexivity).
  assert (Hev : e < n) by (eapply lookup_lt_Some, Een).
  assert (Hpv : pe < n) by (eapply lookup_lt_Some, Epn).
  assert (Hlook : ∀ q, (H2 ++ [N; L]) !! q =
            if decide (q = e) then Some (set_parent (Some n) en)
            else if decide (q = pe) then Some (g pn)
            else if decide (q = n) then Some N
            else if decide (q = S n) then Some L else heap tree !! q).
  { intros q. destruct (decide (q < n)) as [Hq | Hq].
    - rewrite lookup_app_l by (rewrite Hlen2; exact Hq). unfold H2.
      destruct (decide (q = e)) as [-> | Hqe].
      { apply list_lookup_insert_eq. rewrite length_insert. exact Hev. }
      rewrite list_lookup_insert_ne by congruence.
      destruct (decide (q = pe)) as [-> | Hqp].
      { apply list_lookup_insert_eq. exact Hpv. }
      rewrite list_lookup_insert_ne by congruence.
      rewrite !decide_False by lia. reflexivity.
    - rewrite lookup_app_r by (rewrite Hlen2; lia). rewrite Hlen2.
      rewrite (decide_False (P := q = e)), (decide_False (P := q = pe)) by lia.
      destruct (decide (q = n)) as [-> | Hqn]; [rewrite Nat.sub_diag; reflexivity |].
      destruct (decide (q = S n)) as [-> | Hqs].
      { replace (S n - n) with 1 by lia. reflexivity. }
      replace (q - n) with (S (S (q - n - 2))) by lia. simpl.
      symmetry. apply lookup_ge_None. fold n. lia. }
  assert (Hfe : frequency en = 0%N) by (unfold weight in Hw0; rewrite Een in Hw0; exact Hw0).
  assert (Hlowe : low en = None) by (unfold low_of in Hleaf; rewrite Een in Hleaf; exact Hleaf).
  assert (Hhighe : high en = None).
  { pose proof (proj1 (ok_binary _ _ Hok e) Hleaf) as E. unfold high_of in E.
    rewrite Een in E. exact E. }
  assert (Hchild : low pn = Some e ∨ high pn = Some e).
  { destruct (ok_parent _ _ Hok _ _ Hpe) as [E | E]; [left | right];
      [unfold low_of in E | unfold high_of in E]; rewrite Epn in E; exact E. }
  assert (Hdist : low pn = Some e → high pn ≠ Some e).
  { intros E. pose proof (ok_distinct _ _ Hok pe e) as D. unfold low_of, high_of in D.
    rewrite Epn in D. apply D, E. }
  assert (Honly : ∀ q, q ≠ pe → low_of (heap tree) q ≠ Some e ∧ high_of (heap tree) q ≠ Some e).
  { intros q Hq. split; intros E.
    - pose proof (ok_child _ _ Hok q e (or_introl E)). congruence.
    - pose proof (ok_child _ _ Hok q e (or_intror E)). congruence. }
  assert (Hgp : parent (g pn) = parent pn ∧ frequency (g pn) = frequency pn
                ∧ term (g pn) = term pn).
  { unfold g. destruct (ptr_eqb (low pn) (Some e)); auto. }
  assert (Hgl : low (g pn) = (λ x, if decide (x = e) then n else x) <$> low pn).
  { unfold g. destruct (ptr_eqb (low pn) (Some e)) eqn:E; simpl.
    - apply ptr_eqb_eq in E. rewrite E. simpl. rewrite decide_True by reflexivity. reflexivity.
    - assert (low pn ≠ Some e) by (intros E'; rewrite E', ptr_eqb_refl in E; discriminate).
      destruct (low pn) as [y |]; simpl; [| reflexivity].
      rewrite decide_False by congruence. reflexivity. }
  assert (Hgh : high (g pn) = (λ x, if decide (x = e) then n else x) <$> high pn).
  { unfold g. destruct (ptr_eqb (low pn) (Some e)) eqn:E; simpl.
    - apply ptr_eqb_eq in E. pose proof (Hdist E) as D. rewrite Ehigh in *. simpl.
      rewrite decide_False by congruence. reflexivity.
    - assert (low pn ≠ Some e) by (intros E'; rewrite E', ptr_eqb_refl in E; discriminate).
      destruct Hchild as [E' | E']; [contradiction |]. rewrite E'. simpl.
      rewrite decide_True by reflexivity. reflexivity. }
  assert (Hpast : ∀ q, n ≤ q → heap tree !! q = None).
  { intros q Hq. apply lookup_ge_None. exact Hq. }
  unfold inserted_from. fold n.
  split; [rewrite length_app, Hlen2; simpl; lia |].
  split; [| split; [| split; [| split]]]; intros q.
  - unfold parent_of at 1. rewrite Hlook.
    destruct (decide (q = e)) as [-> | Hqe]; [reflexivity |].
    destruct (decide (q = pe)) as [-> | Hqp].
    { rewrite !decide_False by lia. unfold parent_of. rewrite Epn. apply Hgp. }
    destruct (decide (q = n)) as [-> | Hqn]; [reflexivity |].
    destruct (decide (q = S n)) as [-> | Hqs]; reflexivity.
  - unfold low_of at 1. rewrite Hlook.
    destruct (decide (q = e)) as [-> | Hqe].
    { rewrite decide_False by lia. rewrite Hleaf. simpl. exact Hlowe. }
    destruct (decide (q = pe)) as [-> | Hqp].
    { rewrite decide_False by lia. unfold low_of. rewrite Epn. exact Hgl. }
    destruct (decide (q = n)) as [-> | Hqn]; [reflexivity |].
    destruct (decide (q = S n)) as [-> | Hqs].
    { unfold low_of. rewrite Hpast by lia. reflexivity. }
    destruct (Honly q Hqp) as [Hl _]. unfold low_of in *.
    destruct (heap tree !! q) as [nd |]; simpl; [| reflexivity].
    destruct (low nd) as [y |]; simpl; [| reflexivity].
    rewrite decide_False by congruence. reflexivity.
  - unfold high_of at 1. rewrite Hlook.
    destruct (decide (q = e)) as [-> | Hqe].
    { rewrite decide_False by lia. unfold high_of. rewrite Een. simpl. rewrite Hhighe.
      reflexivity. }
    destruct (decide (q = pe)) as [-> | Hqp].
    { rewrite decide_False by lia. unfold high_of. rewrite Epn. exact Hgh. }
    destruct (decide (q = n)) as [-> | Hqn]; [reflexivity |].
    destruct (decide (q = S n)) as [-> | Hqs].
    { unfold high_of. rewrite Hpast by lia. reflexivity. }
    destruct (Honly q Hqp) as [_ Hh]. unfold high_of in *.
    destruct (heap tree !! q) as [nd |]; simpl; [| reflexivity].
    destruct (high nd) as [y |]; simpl; [| reflexivity].
    rewrite decide_False by congruence. reflexivity.
  - unfold weight. rewrite Hlook.
    destruct (decide (q = e)) as [-> | Hqe]; [rewrite Een; reflexivity |].
    destruct (decide (q = pe)) as [-> | Hqp]; [rewrite Epn; apply Hgp |].
    destruct (decide (q = n)) as [-> | Hqn]; [rewrite Hpast by lia; exact Hfe |].
    destruct (decide (q = S n)) as [-> | Hqs]; [rewrite Hpast by lia; reflexivity |].
    reflexivity.
  - unfold term_of at 1. rewrite Hlook.
    destruct (decide (q = e)) as [-> | Hqe].
    { rewrite !decide_False by lia. unfold term_of. rewrite Een. reflexivity. }
    destruct (decide (q = pe)) as [-> | Hqp].
    { rewrite !decide_False by lia. unfold term_of. rewrite Epn.
      destruct Hgp as (_ & _ & ->). reflexivity. }
    destruct (decide (q = n)) as [-> | Hqn]; [reflexivity |].
    destruct (decide (q = S n)) as [-> | Hqs]; reflexivity.
Qed.

End InsertOk.

Section InsertPreservation.

Variables (h h2 : Heap) (tbl : HTable) (r e m pe : nat) (rest : BList) (t : aterm).

Hypothesis Htree : tree_ok h r.
Hypothesis Hord : order_ok h (e :: m :: pe :: rest).
Hypothesis Hpe : parent_of h e = Some pe.
Hypothesis Hm : parent_of h m = Some pe.
Hypothesis Hw : weights_ok h e None.
Hypothesis Htbl : table_ok h tbl e.
Hypothesis Ht : t ≠ ESCAPE_SEQUENCE.
Hypothesis Hins : inserted_from h h2 e pe t.

Local Abbreviation n := (length h).
Local Abbreviation rn := (λ x : nat, if decide (x = e) then n else x).
Local Abbreviation bl := (e :: m :: pe :: rest).
Local Abbreviation bl2 := (e :: S n :: n :: m :: pe :: rest).

Lemma ins_valid : e < n ∧ pe < n ∧ m < n.
Proof using All.
  split; [eapply parent_of_valid, Hpe |].
  split; [eapply tree_ok_parent_valid; [exact Htree | exact Hpe] |].
  eapply parent_of_valid, Hm.
Qed.

Lemma ins_distinct : e ≠ m ∧ e ≠ pe ∧ m ≠ pe.
Proof using All.
  pose proof (ord_nodup _ _ Hord) as Hnd.
  apply NoDup_cons in Hnd as [H1 Hnd]. apply NoDup_cons in Hnd as [H2 _].
  rewrite !not_elem_of_cons in H1. rewrite not_elem_of_cons in H2. tauto.
Qed.

Lemma ins_parent (q : nat) :
  parent_of h2 q =
  if decide (q = e) then Some n
  else if decide (q = n) then Some pe
  else if decide (q = S n) then Some n else parent_of h q.
Proof using All. apply Hins. Qed.

Lemma ins_low (q : nat) :
  low_of h2 q = if decide (q = n) then Some e else rn <$> low_of h q.
Proof using All. apply Hins. Qed.

Lemma ins_high (q : nat) :
  high_of h2 q = if decide (q = n) then Some (S n) else rn <$> high_of h q.
Proof using All. apply Hins. Qed.

Lemma ins_weight (q : nat) : weight h2 q = weight h q.
Proof using All. apply Hins. Qed.

Lemma ins_parent_old (q : nat) : q < n → q ≠ e → parent_of h2 q = parent_of h q.
Proof using All.
  intros Hq Hqe. rewrite ins_parent, !decide_False by lia. reflexivity.
Qed.

Lemma ins_rn_inv (f : ptr) (x : nat) :
  rn <$> f = Some x → (f = Some e ∧ x = n) ∨ (f = Some x ∧ x ≠ e).
Proof using All.
  destruct f as [y |]; simpl; [| discriminate]. intros E. injection E as <-.
  destruct (decide (y = e)) as [-> | Hy]; auto.
Qed.

Lemma ins_tree_ok : tree_ok h2 r.
Proof using All.
  destruct ins_valid as (Hev & Hpv & Hmv).
  pose proof ins_parent as Hpar. pose proof ins_low as Hlow. pose proof ins_high as Hhigh.
  assert (Hlen : length h2 = S (S n)) by apply Hins.
  pose proof (ok_root_valid _ _ Htree) as Hrv.
  split.
  - lia.
  - intros q Hq. rewrite Hpar.
    destruct (decide (q = e)) as [-> | Hqe].
    { split; [discriminate |]. intros <-.
      pose proof (proj2 (ok_root _ _ Htree e Hev) eq_refl). congruence. }
    destruct (decide (q = n)) as [-> | Hqn]; [split; [discriminate | lia] |].
    destruct (decide (q = S n)) as [-> | Hqs]; [split; [discriminate | lia] |].
    apply (ok_root _ _ Htree). lia.
  - intros q p. rewrite Hpar.
    destruct (decide (q = e)) as [-> | Hqe].
    { intros E. injection E as <-. left. rewrite Hlow, decide_True by reflexivity.
      reflexivity. }
    destruct (decide (q = n)) as [-> | Hqn].
    { intros E. injection E as <-. rewrite Hlow, Hhigh, !decide_False by lia.
      destruct (ok_parent _ _ Htree _ _ Hpe) as [-> | ->]; simpl;
        rewrite decide_True by reflexivity; auto. }
    destruct (decide (q = S n)) as [-> | Hqs].
    { intros E. injection E as <-. right. rewrite Hhigh, decide_True by reflexivity.
      reflexivity. }
    intros Hp. pose proof (tree_ok_parent_valid _ _ _ _ Htree Hp).
    rewrite Hlow, Hhigh, !decide_False by lia.
    destruct (ok_parent _ _ Htree _ _ Hp) as [-> | ->]; simpl;
      rewrite decide_False by assumption; auto.
  - intros p x. rewrite Hlow, Hhigh. destruct (decide (p = n)) as [-> | Hpn].
    { intros [E | E]; injection E as <-; rewrite Hpar.
      - rewrite decide_True by reflexivity. reflexivity.
      - rewrite !decide_False by lia. rewrite decide_True by reflexivity. reflexivity. }
    intros Hx.
    assert (Hy : ∃ y, (low_of h p = Some y ∨ high_of h p = Some y)
                      ∧ (y = e ∧ x = n ∨ y = x ∧ x ≠ e)).
    { destruct Hx as [Hx | Hx]; apply ins_rn_inv in Hx as [[E ->] | [E Hxe]]; eauto 6. }
    destruct Hy as (y & Hy & [[-> ->] | [-> Hxe]]).
    + pose proof (ok_child _ _ Htree _ _ Hy) as E. rewrite Hpar, !decide_False by lia.
      rewrite decide_True by reflexivity. congruence.
    + pose proof (tree_ok_child_valid _ _ _ _ Htree Hy).
      rewrite ins_parent_old by assumption. apply (ok_child _ _ Htree), Hy.
  - intros q. rewrite Hlow, Hhigh.
    destruct (decide (q = n)) as [Hqn | Hqn]; [split; discriminate |].
    pose proof (ok_binary _ _ Htree q) as Hb.
    destruct (low_of h q), (high_of h q); simpl; split; intros E;
      try discriminate; try reflexivity; exfalso; destruct Hb as [Hb1 Hb2];
      (discriminate (Hb1 eq_refl) || discriminate (Hb2 eq_refl)).
  - intros q a. rewrite Hlow, Hhigh. destruct (decide (q = n)) as [-> | Hqn].
    { intros E. injection E as <-. intros E. injection E as E. lia. }
    intros Hl Hh.
    destruct (low_of h q) as [y |] eqn:Ey; simpl in Hl; [| discriminate].
    destruct (high_of h q) as [z |] eqn:Ez; simpl in Hh; [| discriminate].
    injection Hl as Hl. injection Hh as Hh.
    pose proof (tree_ok_child_valid _ _ _ _ Htree (or_introl Ey)).
    pose proof (tree_ok_child_valid _ _ _ _ Htree (or_intror Ez)).
    apply (ok_distinct _ _ Htree q y Ey). rewrite Ez. f_equal.
    destruct (decide (y = e)) as [Hy | Hy], (decide (z = e)) as [Hz | Hz]; subst; lia.
Qed.

Lemma ins_lookup (a q : nat) :
  bl2 !! a = Some q →
  (a = 0 ∧ q = e) ∨ (a = 1 ∧ q = S n) ∨ (a = 2 ∧ q = n)
  ∨ ∃ k, a = S (S k) ∧ 1 ≤ k ∧ bl !! k = Some q ∧ q < n ∧ q ≠ e.
Proof using All.
  destruct a as [| [| [| a]]]; simpl; intros E.
  - left. split; [reflexivity | congruence].
  - right. left. split; [reflexivity | congruence].
  - right. right. left. split; [reflexivity | congruence].
  - right. right. right. exists (S a). split; [reflexivity |]. split; [lia |].
    split; [exact E |].
    assert (Hin : q ∈ bl) by (eapply list_elem_of_lookup_2 with (i := S a); exact E).
    split; [apply (ord_all _ _ Hord), Hin |].
    intros ->. assert (E0 : bl !! 0 = Some e) by reflexivity.
    assert (E1 : bl !! S a = Some e) by exact E.
    pose proof (NoDup_lookup _ _ _ _ (ord_nodup _ _ Hord) E0 E1). lia.
Qed.

Lemma ins_order_ok : order_ok h2 bl2.
Proof using All.
  destruct ins_valid as (Hev & Hpv & Hmv). destruct ins_distinct as (Hem & Hep & Hmp).
  pose proof ins_parent as Hpar. pose proof ins_lookup as Hlk.
  pose proof ins_parent_old as Hold.
  assert (Hlen : length h2 = S (S n)) by apply Hins.
  pose proof (ord_nodup _ _ Hord) as Hnd.
  assert (Hnew : ∀ x, n ≤ x → x ∉ bl).
  { intros x Hx Hin. apply (ord_all _ _ Hord) in Hin. lia. }
  split.
  - apply NoDup_cons in Hnd as [H1 Hnd].
    apply NoDup_cons. split.
    { rewrite !not_elem_of_cons. rewrite !not_elem_of_cons in H1.
      split; [lia |]. split; [lia |]. exact H1. }
    apply NoDup_cons. split.
    { rewrite not_elem_of_cons. split; [lia |]. intros Hin.
      apply (Hnew (S n)); [lia |]. right. exact Hin. }
    apply NoDup_cons. split; [| exact Hnd].
    intros Hin. apply (Hnew n); [lia |]. right. exact Hin.
  - intros q. rewrite Hlen. rewrite !elem_of_cons.
    pose proof (ord_all _ _ Hord q) as Hall. rewrite !elem_of_cons in Hall.
    split.
    + intros [-> | [-> | [-> | H]]]; [lia | lia | lia |].
      assert (q < n) by (apply Hall; auto). lia.
    + intros Hq. destruct (decide (q = S n)) as [-> | Hq1]; [auto |].
      destruct (decide (q = n)) as [-> | Hq2]; [auto |].
      assert (Hq' : q < n) by lia. apply Hall in Hq'. tauto.
  - intros q p a b Hp Ha Hb.
    destruct (Hlk a q Ha) as [[-> ->] | [[-> ->] | [[-> ->] | (k & -> & Hk & Ek & Hqv & Hqe)]]].
    + rewrite Hpar, decide_True in Hp by reflexivity. injection Hp as <-.
      destruct (Hlk b n Hb) as [[-> E] | [[-> E] | [[-> E] | (k & -> & _ & _ & E & _)]]]; lia.
    + rewrite Hpar, !decide_False in Hp by lia. rewrite decide_True in Hp by reflexivity.
      injection Hp as <-.
      destruct (Hlk b n Hb) as [[-> E] | [[-> E] | [[-> E] | (k & -> & _ & _ & E & _)]]]; lia.
    + rewrite Hpar, decide_False, decide_True in Hp by lia. injection Hp as <-.
      destruct (Hlk b pe Hb) as [[-> E] | [[-> E] | [[-> E] | (k & -> & Hk & _)]]]; lia.
    + rewrite Hold in Hp by assumption.
      pose proof (tree_ok_parent_valid _ _ _ _ Htree Hp) as Hpv'.
      destruct (Hlk b p Hb) as [[-> E] | [[-> E] | [[-> E] | (k' & -> & _ & Ek' & _)]]];
        try lia.
      * exfalso. rewrite E in Hp. destruct (ok_parent _ _ Htree _ _ Hp) as [L | L].
        -- destruct Htbl as (_ & Hl & _). congruence.
        -- destruct Htbl as (_ & _ & Hh & _). congruence.
      * pose proof (ord_parent_later _ _ Hord _ _ _ _ Hp Ek Ek'). lia.
  - intros a b p x y Hab Ha Hb Hx Hy.
    assert (Hcases : ∀ q z, parent_of h2 q = Some p → bl2 !! z = Some q →
      (p = n ∧ (z = 0 ∨ z = 1))
      ∨ (p = pe ∧ z = 2 ∧ q = n)
      ∨ (p ≠ n ∧ q ≠ n ∧ ∃ k, z = S (S k) ∧ bl !! k = Some q ∧ parent_of h q = Some p
                               ∧ q ≠ e)).
    { intros q z Hq Hz.
      destruct (Hlk z q Hz) as [[-> ->] | [[-> ->] | [[-> ->] | (k & -> & Hk & Ek & Hqv & Hqe)]]].
      - rewrite Hpar, decide_True in Hq by reflexivity. injection Hq as <-. auto.
      - rewrite Hpar, !decide_False in Hq by lia. rewrite decide_True in Hq by reflexivity.
        injection Hq as <-. auto.
      - rewrite Hpar, decide_False, decide_True in Hq by lia. injection Hq as <-. auto.
      - rewrite Hold in Hq by assumption. right. right.
        pose proof (tree_ok_parent_valid _ _ _ _ Htree Hq).
        split; [lia |]. split; [lia |]. eauto. }
    assert (Hold_sib : ∀ q k, parent_of h q = Some pe → q ≠ e → bl !! k = Some q → k = 1).
    { intros q k Hq Hqe Ek.
      assert (q = m) as -> by (destruct (children_only h r pe e m q Htree Hem Hpe Hm Hq); congruence).
      assert (E1 : bl !! 1 = Some m) by reflexivity.
      apply (NoDup_lookup _ _ _ _ Hnd Ek E1). }
    destruct (Hcases a x Ha Hx) as [[Ep Hx'] | [(Ep & Ex & Ea) | (Hpn & Han & k & Ex & Ek & Hka & Hae)]];
      destruct (Hcases b y Hb Hy) as [[Ep' Hy'] | [(Ep' & Ey & Eb) | (Hpn' & Hbn & k' & Ey & Ek' & Hkb & Hbe)]].
    + assert (x ≠ y) by (intros E; rewrite E in Hx; congruence). lia.
    + lia.
    + contradiction.
    + lia.
    + congruence.
    + rewrite Ep in Hkb. pose proof (Hold_sib b k' Hkb Hbe Ek'). lia.
    + contradiction.
    + rewrite Ep' in Hka. pose proof (Hold_sib a k Hka Hae Ek). lia.
    + destruct (ord_siblings _ _ Hord a b p k k' Hab Hka Hkb Ek Ek'); lia.
Qed.

Lemma ins_prefix_ok : prefix_ok h2 bl2 e.
Proof using All.
  destruct ins_valid as (Hev & Hpv & Hmv).
  exists (S n), n, (m :: pe :: rest). split; [reflexivity |].
  rewrite !ins_parent. rewrite decide_True by reflexivity.
  rewrite !decide_False by lia. rewrite decide_True by reflexivity. auto.
Qed.

Lemma ins_weights_ok : weights_ok h2 e (Some (S n)).
Proof using All.
  destruct ins_valid as (Hev & Hpv & Hmv). destruct Hw as (Hsum & He0 & Hzero).
  pose proof ins_weight as Hwt. pose proof (accessors_past_end h) as Hpast.
  assert (Hlen : length h2 = S (S n)) by apply Hins.
  split; [| split].
  - intros q a b. rewrite ins_low, ins_high, !Hwt.
    destruct (decide (q = n)) as [-> | Hqn].
    { intros E1 E2. injection E1 as <-. injection E2 as <-.
      rewrite decide_False by (intros E; injection E; lia).
      destruct (Hpast n) as (_ & _ & _ & -> & _); [lia |].
      destruct (Hpast (S n)) as (_ & _ & _ & -> & _); [lia |]. lia. }
    intros Hl Hh.
    assert (Hwrn : ∀ f x, rn <$> f = Some x → ∃ y, f = Some y ∧ weight h x = weight h y).
    { intros f x E. apply ins_rn_inv in E as [[-> ->] | [-> _]]; eexists; split;
        try reflexivity. destruct (Hpast n) as (_ & _ & _ & -> & _); [lia |]. lia. }
    apply Hwrn in Hl as (a0 & Ea & ->). apply Hwrn in Hh as (b0 & Eb & ->).
    pose proof (Hsum q a0 b0 Ea Eb) as E. rewrite decide_False in E by discriminate.
    pose proof (low_of_valid _ _ _ Ea).
    rewrite decide_False by (intros E'; injection E'; lia). exact E.
  - rewrite Hwt. exact He0.
  - intros q Hq. rewrite Hwt. intros Hq0.
    destruct (decide (q = S n)) as [-> | Hqs]; [auto |].
    destruct (decide (q = n)) as [-> | Hqn].
    { right. right. exists (S n). split; [reflexivity |].
      rewrite ins_parent, !decide_False by lia. rewrite decide_True by reflexivity.
      reflexivity. }
    assert (Hq' : q < n) by lia.
    destruct (Hzero q Hq' Hq0) as [-> | [E | (x & E & _)]]; [auto | discriminate | discriminate].
Qed.

Lemma ins_table_ok : table_ok h2 (HTbind tbl t (Some (S n))) e.
Proof using All.
  destruct ins_valid as (Hev & Hpv & Hmv).
  destruct Htbl as (_ & Hel & Heh & Het & Hent).
  assert (Hlen : length h2 = S (S n)) by apply Hins.
  assert (Hterm : ∀ q, term_of h2 q =
            if decide (q = n) then Some aterm_null
            else if decide (q = S n) then Some t else term_of h q) by apply Hins.
  pose proof (accessors_past_end h) as Hpast.
  split; [lia |].
  split; [rewrite ins_low, decide_False, Hel by lia; reflexivity |].
  split; [rewrite ins_high, decide_False, Heh by lia; reflexivity |].
  split; [rewrite Hterm, !decide_False by lia; exact Het |].
  intros t' q. rewrite HTknown_HTbind.
  destruct (aterm_eqb t t') eqn:E.
  - apply aterm_eqb_eq in E as <-. intros E. injection E as <-.
    destruct (Hpast (S n)) as (_ & Hl & Hh & _); [lia |].
    rewrite ins_low, ins_high, Hterm, !decide_False, Hl, Hh by lia.
    rewrite decide_True by reflexivity. auto.
  - intros Hk. destruct (Hent t' q Hk) as (Hl & Hh & Htm & Hne).
    pose proof (term_of_valid _ _ _ Htm).
    rewrite ins_low, ins_high, Hterm, !decide_False, Hl, Hh by lia. auto.
Qed.

Lemma ins_current_ok : current_ok h2 bl2 e (Some (S n)).
Proof using All.
  destruct ins_valid as (Hev & Hpv & Hmv).
  assert (Hlen : length h2 = S (S n)) by apply Hins.
  simpl. split; [lia |]. split; [lia |].
  rewrite ins_parent, decide_True by reflexivity. intros E. injection E. lia.
Qed.

End InsertPreservation.

(** ** Codes and the descent *)

Section Codes.

Variable lz : LiteralCoder.

Lemma descend_at_leaf (h : Heap) (x : nat) (nd : HFnode) (rest : BitStream) :
  h !! x = Some nd → is_leaf nd = true → descend h rest (Some x) = Some (walk_leaf x nd rest).
Proof. intros Hx Hl. destruct rest; simpl; rewrite Hx; simpl; rewrite Hl; reflexivity. Qed.

(** The code [HFwriteCode] writes for a node leads the descent from the
    root to that node. *)
Lemma HFwriteCode_descend (h : Heap) (bl : BList) (r : nat) :
  tree_ok h r → order_ok h bl →
  ∀ fuel x i, bl !! i = Some x → length bl - i ≤ fuel →
    ∃ code, (∀ bs, HFwriteCode_rec fuel h bs x = Some (bs ++ code))
            ∧ ∀ rest, descend h (code ++ rest) (Some r) = descend h rest (Some x).
Proof.
  intros Htree Hord. induction fuel as [| fuel IH]; intros x i Hi Hfuel.
  { apply lookup_lt_Some in Hi. lia. }
  assert (Hxv : x < length h) by (apply (ord_all _ _ Hord); eapply list_elem_of_lookup_2, Hi).
  apply lookup_lt_is_Some in Hxv as Hnd. destruct Hnd as [nd End].
  cbn [HFwriteCode_rec]. rewrite End. cbn [mbind option_bind].
  assert (Epar : parent_of h x = parent nd) by (unfold parent_of; rewrite End; reflexivity).
  destruct (parent nd) as [p |].
  - assert (Hpv : p ∈ bl).
    { apply (ord_all _ _ Hord). apply (tree_ok_parent_valid _ _ _ _ Htree Epar). }
    apply list_elem_of_lookup in Hpv as [k Hk].
    pose proof (ord_parent_later _ _ Hord _ _ _ _ Epar Hi Hk) as Hik.
    destruct (IH p k Hk) as (code & Hcode & Hdesc); [apply lookup_lt_Some in Hk; lia |].
    assert (Hpn : ∃ pn, h !! p = Some pn).
    { apply lookup_lt_is_Some. apply (tree_ok_parent_valid _ _ _ _ Htree Epar). }
    destruct Hpn as [pn Epn].
    remember (ptr_eqb (Some x) (high pn)) as b eqn:Eb. symmetry in Eb.
    exists (code ++ [b]). split.
    + intros bs. rewrite Hcode. cbn [mbind option_bind]. rewrite Epn.
      cbn [mbind option_bind]. unfold BSwriteBit. rewrite app_assoc, Eb. reflexivity.
    + intros rest. rewrite <- app_assoc. rewrite Hdesc.
      change ([b] ++ rest) with (b :: rest). cbn [descend]. rewrite Epn.
      cbn [mbind option_bind].
      assert (Hch : low pn = Some x ∨ high pn = Some x).
      { destruct (ok_parent _ _ Htree _ _ Epar) as [E | E]; [left | right];
          [unfold low_of in E | unfold high_of in E]; rewrite Epn in E; exact E. }
      assert (Hnl : is_leaf pn = false).
      { unfold is_leaf. destruct Hch as [E | E]; rewrite E; simpl;
          [apply andb_false_r | reflexivity]. }
      rewrite Hnl. destruct b.
      * apply ptr_eqb_eq in Eb. rewrite <- Eb. reflexivity.
      * destruct Hch as [E | E]; [rewrite E; reflexivity |].
        rewrite E, ptr_eqb_refl in Eb. discriminate.
  - assert (x = r) as ->.
    { apply (ok_root _ _ Htree); [exact Hxv | exact Epar]. }
    exists []. split; [intros bs; rewrite app_nil_r; reflexivity | intros rest; reflexivity].
Qed.

(** In a tree that satisfies the invariant, the code of a leaf is written,
    and read back it is where the decoders stop. *)
Lemma code_of_leaf (tree : HFtree lz) (c : ptr) (r x : nat) :
  engine_ok tree c → codes tree = Some r →
  x < length (heap tree) → low_of (heap tree) x = None →
  ∃ code nd, heap tree !! x = Some nd ∧ is_leaf nd = true
             ∧ (∀ bs, HFwriteCode lz tree bs x = Some (bs ++ code))
             ∧ ∀ rest, descend (heap tree) (code ++ rest) (codes tree)
                       = Some (walk_leaf x nd rest).
Proof.
  intros (r' & e & Hc & _ & Htree & Hord & _) Hr Hxv Hlow.
  assert (r' = r) as -> by congruence.
  pose proof Hxv as Hin. apply (ord_all _ _ Hord) in Hin.
  apply list_elem_of_lookup in Hin as [i Hi].
  destruct (HFwriteCode_descend _ _ _ Htree Hord (length (heap tree)) x i Hi)
    as (code & Hcode & Hdesc).
  { rewrite (order_length _ _ Hord). lia. }
  apply lookup_lt_is_Some in Hxv as [nd End].
  assert (Hleaf : is_leaf nd = true).
  { pose proof (proj1 (ok_binary _ _ Htree x) Hlow) as Hhigh.
    unfold low_of in Hlow. unfold high_of in Hhigh. rewrite End in Hlow, Hhigh.
    unfold is_leaf. rewrite Hlow, Hhigh. reflexivity. }
  exists code, nd. split; [exact End |]. split; [exact Hleaf |].
  split; [exact Hcode |]. intros rest. rewrite Hr, Hdesc.
  apply descend_at_leaf; assumption.
Qed.

End Codes.

(** ** The invariant along a stream *)

Section Stream.

Variable lz : LiteralCoder.

(** After a first symbol the engine satisfies the invariant. *)
Lemma after_first_ok (t : aterm) (buf : LZbuffer lz) :
  t ≠ ESCAPE_SEQUENCE → engine_ok (after_first lz t buf) None.
Proof.
  intros Ht. exists 0, 1. split; [reflexivity |]. split; [reflexivity |].
  split; [| split; [| split; [| split; [| split]]]].
  - split.
    + simpl. lia.
    + intros [| [| [| n]]] Hn; simpl in *; split; intros E; try discriminate; try reflexivity; lia.
    + intros [| [| [| n]]] p E; simpl in E; try discriminate; injection E as <-; simpl; auto.
    + intros [| [| [| p]]] x [E | E]; simpl in E; try discriminate; injection E as <-;
        reflexivity.
    + intros [| [| [| n]]]; simpl; split; intros E; try discriminate; reflexivity.
    + intros [| [| [| n]]] a E; simpl in *; try discriminate. injection E as <-. discriminate.
  - split.
    + simpl. repeat constructor; rewrite ?elem_of_cons, ?elem_of_nil; intuition lia.
    + intros n. simpl. rewrite !elem_of_cons, elem_of_nil. lia.
    + intros [| [| [| n]]] p i j E; simpl in E; try discriminate; injection E as <-;
        destruct i as [| [| [| i]]], j as [| [| [| j]]]; simpl; intros E1 E2;
        try discriminate; lia.
    + intros [| [| [| a]]] [| [| [| b]]] p i j Hab Ha Hb; simpl in Ha, Hb;
        try discriminate; try congruence;
        destruct i as [| [| [| i]]], j as [| [| [| j]]]; simpl; intros E1 E2;
        try discriminate; auto.
  - exists 2, 0, []. auto.
  - split; [| split].
    + intros [| [| [| n]]] a b E1 E2; simpl in *; try discriminate.
      injection E1 as <-. injection E2 as <-. reflexivity.
    + reflexivity.
    + intros [| [| [| n]]] Hn E; simpl in *; try discriminate; try lia.
  - split; [simpl; lia |]. split; [reflexivity |]. split; [reflexivity |].
    split; [reflexivity |]. intros t' n. unfold HTknown, HTmember. simpl.
    destruct (aterm_eqb t t') eqn:E; [| discriminate].
    apply aterm_eqb_eq in E as <-. intros E. injection E as <-. auto.
  - exact I.
Qed.

(** The normal case of [HFadd] hands the update a tree and a leaf that
    satisfy the invariant. *)
Lemma HFadd_ok (tree : HFtree lz) (t : aterm) :
  engine_ok tree None → t ≠ ESCAPE_SEQUENCE →
  ∃ tree2 leaf, HFadd lz tree t = Some (tree2, leaf)
                ∧ engine_ok tree2 (Some leaf)
                ∧ buffer tree2 = buffer tree.
Proof.
  intros (r & e & Hc & Ht & Htree & Hord & Hpre & Hw & Htbl & _) Hne.
  destruct Hpre as (m & pe & rest & Ebl & Hpe & Hm).
  pose proof Htbl as (Hev & Hlow & Hhigh & _).
  pose proof Hw as (_ & He0 & _).
  assert (Hph : high_of (heap tree) pe ≠ None).
  { destruct (ok_parent _ _ Htree _ _ Hpe) as [E | E]; [| congruence].
    intros E'. apply (ok_binary _ _ Htree) in E'. congruence. }
  destruct (HFadd_normal_fields lz tree t r e pe Hc Ht Htree Hpe Hlow He0 Hph)
    as (tree2 & Eadd & Hc2 & Ht2 & Hbf2 & Htb2 & Hbl2 & Hins).
  rewrite Ebl in Hord, Hbl2. simpl in Hbl2.
  exists tree2, (S (length (heap tree))). split; [exact Eadd |]. split; [| exact Hbf2].
  exists r, e. rewrite Hbl2, Htb2.
  split; [congruence |]. split; [congruence |].
  split; [apply (ins_tree_ok (heap tree) (heap tree2) (terms tree) r e m pe rest t); assumption |].
  split; [apply (ins_order_ok (heap tree) (heap tree2) (terms tree) r e m pe rest t); assumption |].
  split; [apply (ins_prefix_ok (heap tree) (heap tree2) (terms tree) r e m pe rest t); assumption |].
  split; [apply (ins_weights_ok (heap tree) (heap tree2) (terms tree) r e m pe rest t); assumption |].
  split; [apply (ins_table_ok (heap tree) (heap tree2) (terms tree) r e m pe rest t); assumption |].
  apply (ins_current_ok (heap tree) (heap tree2) (terms tree) r e m pe rest t); assumption.
Qed.

(** A leaf the table knows can be the start of an update. *)
Lemma known_leaf_ok (tree : HFtree lz) (t : aterm) (leaf : nat) :
  engine_ok tree None → known_leaf lz tree t = Some leaf →
  engine_ok tree (Some leaf)
  ∧ leaf < length (heap tree) ∧ low_of (heap tree) leaf = None
  ∧ term_of (heap tree) leaf = Some t ∧ t ≠ ESCAPE_SEQUENCE.
Proof.
  intros (r & e & Hc & Ht & Htree & Hord & Hpre & Hw & Htbl & _) Hk.
  pose proof Htbl as (Hev & Hel & Heh & Het & Hent).
  destruct (Hent t leaf Hk) as (Hl & Hh & Htm & Hne).
  pose proof (term_of_valid _ _ _ Htm) as Hlv.
  split; [| auto]. exists r, e. repeat (split; [assumption |]).
  split; [| split; [exact Htbl |]].
  - destruct Hw as (Hsum & He0 & Hzero). split; [| split; [exact He0 |]].
    + intros n a b La Hb. pose proof (Hsum n a b La Hb) as E.
      rewrite decide_False in E by discriminate. rewrite decide_False; [exact E |].
      intros E'. injection E' as ->. congruence.
    + intros n Hn Hn0. destruct (Hzero n Hn Hn0) as [-> | [E | (x & E & _)]];
        [auto | discriminate | discriminate].
  - simpl. split; [exact Hlv |]. split; [intros ->; congruence |].
    intros E. destruct (ok_parent _ _ Htree _ _ E); congruence.
Qed.

Lemma engine_ok_with_buffer (tree : HFtree lz) (buf : LZbuffer lz) (c : ptr) :
  engine_ok tree c → engine_ok (with_buffer lz tree buf) c.
Proof. intros H. exact H. Qed.

Lemma term_of_lookup (h : Heap) (x : nat) (nd : HFnode) (t : aterm) :
  h !! x = Some nd → term_of h x = Some t → term nd = t.
Proof. intros E. unfold term_of. rewrite E. congruence. Qed.

Lemma ordinary_term (s : symbol) :
  ordinary lz s →
  term_of_symbol s ≠ ESCAPE_SEQUENCE ∧ term_of_symbol s ≠ NO_ATERM
  ∧ term_of_symbol s ≠ aterm_null.
Proof.
  destruct s as [t | i]; simpl; [tauto |]. intros _. repeat split; discriminate.
Qed.

(** Encoding a symbol the table knows: its code, then the update from its
    leaf; decoding the code does the same update and returns the symbol. *)
Lemma known_symbol_step (tree : HFtree lz) (s : symbol) (leaf : nat) (bs : BitStream) :
  engine_ok tree None → ordinary lz s →
  known_leaf lz tree (term_of_symbol s) = Some leaf →
  ∃ bits tree',
    HFencode lz bs tree s = Some (1%Z, bs ++ bits, tree')
    ∧ engine_ok tree' None
    ∧ ∀ rest, HFdecode lz (bits ++ rest) tree (variant_of s)
              = Some (mk_decoded 1%Z s tree' rest).
Proof.
  intros Hok Hs Hk. destruct (ordinary_term s Hs) as (Hne & Hns & Hnn).
  destruct (known_leaf_ok tree _ leaf Hok Hk) as (Hokl & Hlv & Hlow & Htm & _).
  pose proof Hok as (r & e & Hc & _).
  destruct (code_of_leaf lz tree None r leaf Hok Hc Hlv Hlow)
    as (code & nd & End & Hleaf & Hcode & Hdesc).
  destruct (HFupdate_ok lz tree leaf Hokl) as (tree' & Eupd & Hok' & _).
  pose proof (term_of_lookup _ _ _ _ End Htm) as Etm.
  exists code, tree'. split; [| split; [exact Hok' |]].
  - destruct s as [t | i]; simpl in *.
    + unfold HFencodeATerm. rewrite (aterm_eqb_neq t aterm_null Hnn), Hk, Hcode.
      cbn [mbind option_bind]. rewrite Eupd. reflexivity.
    + unfold HFencodeIndex. rewrite Hk, Hcode. cbn [mbind option_bind].
      rewrite Eupd. reflexivity.
  - intros rest. destruct s as [t | i]; simpl in *.
    + rewrite (HFdecodeATerm_at_leaf lz _ _ _ _ _ _ (Hdesc rest)).
      unfold decode_leaf_ATerm. rewrite Etm, (aterm_eqb_neq _ _ Hne), Eupd.
      cbn [mbind option_bind]. rewrite (aterm_eqb_neq _ _ Hns). reflexivity.
    + rewrite (HFdecodeIndex_at_leaf lz _ _ _ _ _ _ (Hdesc rest)).
      unfold decode_leaf_Index. rewrite Etm. simpl. rewrite Eupd.
      cbn [mbind option_bind]. apply Z.eqb_neq in Hs. rewrite Hs. reflexivity.
Qed.

(** Encoding a symbol the table does not know: the escape code, the
    literal, the insertion and the update from the new leaf; decoding the
    escape code and the literal does the same insertion and update and
    returns the symbol. *)
Lemma new_symbol_step (tree : HFtree lz) (s : symbol) (bs : BitStream) :
  engine_ok tree None → ordinary lz s →
  known_leaf lz tree (term_of_symbol s) = None →
  ∃ bits tree',
    HFencode lz bs tree s = Some (0%Z, bs ++ bits, tree')
    ∧ engine_ok tree' None
    ∧ (reads_back lz s →
       ∀ rest, HFdecode lz (bits ++ rest) tree (variant_of s)
               = Some (mk_decoded 1%Z s tree' rest)).
Proof.
  intros Hok Hs Hk. destruct (ordinary_term s Hs) as (Hne & Hns & Hnn).
  pose proof Hok as (r & e & Hc & Ht & _ & _ & _ & _ & Htbl & _).
  destruct Htbl as (Hev & Hel & _ & Het & _).
  destruct (code_of_leaf lz tree None r e Hok Hc Hev Hel)
    as (code & en & Een & Hleaf & Hcode & Hdesc).
  pose proof (term_of_lookup _ _ _ _ Een Het) as Etm.
  assert (Hstep : ∀ buf, ∃ tree3,
            add_then_update lz (with_buffer lz tree buf) (term_of_symbol s) = Some tree3
            ∧ engine_ok tree3 None).
  { intros buf.
    destruct (HFadd_ok tree (term_of_symbol s) Hok Hne) as (tree2 & leaf & Eadd & Hok2 & _).
    destruct (HFadd_ok (with_buffer lz tree buf) (term_of_symbol s)
                (engine_ok_with_buffer tree buf None Hok) Hne)
      as (tree2' & leaf' & Eadd' & Hok2' & _).
    destruct (HFupdate_ok lz tree2' leaf' Hok2') as (tree3 & Eupd & Hok3 & _).
    exists tree3. split; [| exact Hok3].
    unfold add_then_update. rewrite Eadd'. cbn [mbind option_bind]. exact Eupd. }
  destruct s as [t | i]; simpl in *.
  - destruct (LZwriteATerm lz (buffer tree) t) as [lit buf] eqn:Ew.
    destruct (Hstep buf) as (tree3 & Eau & Hok3).
    exists (code ++ lit), tree3. split; [| split; [exact Hok3 |]].
    + rewrite (HFencodeATerm_new lz bs (bs ++ code) tree t e);
        rewrite ?(aterm_eqb_neq t aterm_null Hnn); try assumption; [| apply Hcode].
      rewrite Ew. simpl. rewrite Eau. cbn [mbind option_bind]. rewrite app_assoc. reflexivity.
    + intros Hrb rest. rewrite <- app_assoc.
      rewrite (HFdecodeATerm_at_leaf lz _ _ _ _ _ _ (Hdesc (lit ++ rest))).
      pose proof (Hrb (buffer tree) ESCAPE_SEQUENCE rest) as Hread. rewrite Ew in Hread.
      simpl in Hread.
      rewrite (decode_leaf_ATerm_new lz _ _ _ _ _ _ _ Etm Hread), Eau.
      cbn [mbind option_bind]. rewrite (aterm_eqb_neq _ _ Hns). reflexivity.
  - destruct (LZwriteInt lz (buffer tree) i) as [lit buf] eqn:Ew.
    destruct (Hstep buf) as (tree3 & Eau & Hok3).
    exists (code ++ lit), tree3. split; [| split; [exact Hok3 |]].
    + rewrite (HFencodeIndex_new lz bs (bs ++ code) tree i e); try assumption; [| apply Hcode].
      rewrite Ew. simpl. rewrite Eau. cbn [mbind option_bind]. rewrite app_assoc. reflexivity.
    + intros Hrb rest. rewrite <- app_assoc.
      rewrite (HFdecodeIndex_at_leaf lz _ _ _ _ _ _ (Hdesc (lit ++ rest))).
      pose proof (Hrb (buffer tree) 0%Z rest) as Hread. rewrite Ew in Hread.
      simpl in Hread.
      rewrite (decode_leaf_Index_new lz _ _ _ _ _ _ _ _ Etm Hread), Eau.
      cbn [mbind option_bind]. apply Z.eqb_neq in Hs. rewrite Hs. reflexivity.
Qed.

(** One symbol through an engine at rest. *)
Lemma symbol_step (tree : HFtree lz) (s : symbol) (bs : BitStream) :
  engine_ok tree None → ordinary lz s →
  ∃ ret bits tree',
    HFencode lz bs tree s = Some (ret, bs ++ bits, tree')
    ∧ engine_ok tree' None
    ∧ (reads_back lz s →
       ∀ rest, HFdecode lz (bits ++ rest) tree (variant_of s)
               = Some (mk_decoded 1%Z s tree' rest)).
Proof.
  intros Hok Hs. destruct (known_leaf lz tree (term_of_symbol s)) as [leaf |] eqn:Hk.
  - destruct (known_symbol_step tree s leaf bs Hok Hs Hk) as (bits & tree' & E & Hok' & D).
    exists 1%Z, bits, tree'. auto.
  - destruct (new_symbol_step tree s bs Hok Hs Hk) as (bits & tree' & E & Hok' & D).
    exists 0%Z, bits, tree'. auto.
Qed.

Lemma descend_fresh (tbl : HTable) (tail : BitStream) :
  descend (heap (HFinit lz tbl)) ([false] ++ tail) (codes (HFinit lz tbl))
  = Some (walk_leaf 1 (mk_HFnode None None (Some 0) 0%N ESCAPE_SEQUENCE) tail).
Proof. simpl. apply descend_at_leaf; reflexivity. Qed.

(** The first symbol through a fresh engine. *)
Lemma first_symbol_step (s : symbol) (bs : BitStream) :
  ordinary lz s →
  ∃ bits tree',
    HFencode lz bs (HFinit lz []) s = Some (0%Z, bs ++ bits, tree')
    ∧ engine_ok tree' None
    ∧ (reads_back lz s →
       ∀ rest, HFdecode lz (bits ++ rest) (HFinit lz []) (variant_of s)
               = Some (mk_decoded 1%Z s tree' rest)).
Proof.
  intros Hs. destruct (ordinary_term s Hs) as (Hne & Hns & Hnn).
  destruct s as [t | i]; simpl in *.
  - exists ([false] ++ (LZwriteATerm lz (LZinit lz) t).1),
      (after_first lz t (LZwriteATerm lz (LZinit lz) t).2).
    split; [| split; [apply after_first_ok, Hne |]].
    + pose proof (HFencodeATerm_fresh lz bs t) as E. cbv zeta in E.
      rewrite (aterm_eqb_neq t aterm_null Hnn) in E. exact E.
    + intros Hrb rest. rewrite <- app_assoc.
      rewrite (HFdecodeATerm_at_leaf lz _ ((LZwriteATerm lz (LZinit lz) t).1 ++ rest) _ 1
                 (mk_HFnode None None (Some 0) 0%N ESCAPE_SEQUENCE))
        by apply descend_fresh.
      rewrite (decode_leaf_ATerm_new lz _ _ (HFinit lz []) 1
                 (mk_HFnode None None (Some 0) 0%N ESCAPE_SEQUENCE) _ _ eq_refl
                 (Hrb (LZinit lz) ESCAPE_SEQUENCE rest)).
      change (add_then_update lz _ t)
        with (Some (after_first lz t (LZwriteATerm lz (LZinit lz) t).2)).
      cbn [mbind option_bind]. rewrite (aterm_eqb_neq _ _ Hns). reflexivity.
  - exists ([false] ++ (LZwriteInt lz (LZinit lz) i).1),
      (after_first lz (aterm_int i) (LZwriteInt lz (LZinit lz) i).2).
    split; [| split; [apply after_first_ok; discriminate |]].
    + apply HFencodeIndex_fresh.
    + intros Hrb rest. rewrite <- app_assoc.
      rewrite (HFdecodeIndex_at_leaf lz _ ((LZwriteInt lz (LZinit lz) i).1 ++ rest) _ 1
                 (mk_HFnode None None (Some 0) 0%N ESCAPE_SEQUENCE))
        by apply descend_fresh.
      rewrite (decode_leaf_Index_new lz _ _ (HFinit lz []) 1
                 (mk_HFnode None None (Some 0) 0%N ESCAPE_SEQUENCE) _ _ _ eq_refl
                 (Hrb (LZinit lz) 0%Z rest)).
      change (add_then_update lz _ (aterm_int i))
        with (Some (after_first lz (aterm_int i) (LZwriteInt lz (LZinit lz) i).2)).
      cbn [mbind option_bind]. apply Z.eqb_neq in Hs. rewrite Hs. reflexivity.
Qed.

(** A stream through an engine at rest: the encoder ends with the invariant,
    and the decoder, given the bits, returns the symbols and ends with the
    same tree. *)
Lemma stream_from (syms : list symbol) :
  ∀ (tree : HFtree lz) (bs : BitStream),
    engine_ok tree None → Forall (ordinary lz) syms →
    ∃ bits tree',
      encode_all lz bs tree syms = Some (bs ++ bits, tree')
      ∧ engine_ok tree' None
      ∧ (Forall (reads_back lz) syms →
         ∀ rest, decode_all lz (bits ++ rest) tree (map variant_of syms)
                 = Some (map (λ s, (1%Z, s)) syms, tree', rest)).
Proof.
  induction syms as [| s syms IH]; intros tree bs Hok Hall.
  - exists [], tree. split; [simpl; rewrite app_nil_r; reflexivity |].
    split; [exact Hok |]. intros _ rest. reflexivity.
  - apply Forall_cons in Hall as [Hs Hall].
    destruct (symbol_step tree s bs Hok Hs) as (ret & bits1 & tree1 & E1 & Hok1 & D1).
    destruct (IH tree1 (bs ++ bits1) Hok1 Hall) as (bits2 & tree2 & E2 & Hok2 & D2).
    exists (bits1 ++ bits2), tree2. split; [| split; [exact Hok2 |]].
    + cbn [encode_all]. rewrite E1. cbn [mbind option_bind]. rewrite E2, app_assoc.
      reflexivity.
    + intros Hrb rest. apply Forall_cons in Hrb as [Hr Hrb].
      cbn [decode_all map]. rewrite <- app_assoc, (D1 Hr). cbn [mbind option_bind].
      cbn [d_rest d_tree d_ret d_out]. rewrite (D2 Hrb). reflexivity.
Qed.

End Stream.

(** ** Streams through a fresh engine *)

Section StreamClaims.

Variable lz : LiteralCoder.

Lemma engine_ok_sibling_order (tree : HFtree lz) :
  engine_ok tree None → sibling_order_ok tree.
Proof.
  intros (r & e & Hc & Ht & Htree & Hord & Hpre & Hw & _).
  split; [exact Hord |]. split.
  - destruct Hpre as (m & pe & rest & -> & _). rewrite Ht. reflexivity.
  - intros n p Hp. destruct Hw as (Hsum & _).
    destruct (ok_parent _ _ Htree _ _ Hp) as [L | H].
    + destruct (high_of (heap tree) p) as [b |] eqn:Eb;
        [| apply (ok_binary _ _ Htree) in Eb; congruence].
      pose proof (Hsum p n b L Eb) as E. rewrite decide_False in E by discriminate. lia.
    + destruct (low_of (heap tree) p) as [a |] eqn:Ea;
        [| apply (ok_binary _ _ Htree) in Ea; congruence].
      pose proof (Hsum p a n Ea H) as E. rewrite decide_False in E by discriminate. lia.
Qed.

Lemma HFinit_sibling_order : sibling_order_ok (HFinit lz []).
Proof.
  split; [| split].
  - split.
    + simpl. repeat constructor; rewrite ?elem_of_cons, ?elem_of_nil; intuition lia.
    + intros n. simpl. rewrite !elem_of_cons, elem_of_nil. lia.
    + intros [| [| n]] p i j E; simpl in E; try discriminate; injection E as <-;
        destruct i as [| [| i]], j as [| [| j]]; simpl; intros E1 E2;
        try discriminate; lia.
    + intros [| [| a]] [| [| b]] p i j Hab Ha Hb; simpl in Ha, Hb;
        try discriminate; congruence.
  - reflexivity.
  - intros [| [| n]] p E; simpl in E; try discriminate. injection E as <-. reflexivity.
Qed.

(** A stream of ordinary symbols through a fresh engine. *)
Lemma stream_from_fresh (syms : list symbol) :
  Forall (ordinary lz) syms →
  ∃ bits tree,
    encode_all lz [] (HFinit lz []) syms = Some (bits, tree)
    ∧ sibling_order_ok tree
    ∧ (Forall (reads_back lz) syms →
       ∀ rest, decode_all lz (bits ++ rest) (HFinit lz []) (map variant_of syms)
               = Some (map (λ s, (1%Z, s)) syms, tree, rest)).
Proof.
  intros Hall. destruct syms as [| s syms].
  - exists [], (HFinit lz []). split; [reflexivity |].
    split; [apply HFinit_sibling_order |]. intros _ rest. reflexivity.
  - apply Forall_cons in Hall as [Hs Hall].
    destruct (first_symbol_step lz s [] Hs) as (bits1 & tree1 & E1 & Hok1 & D1).
    destruct (stream_from lz syms tree1 ([] ++ bits1) Hok1 Hall)
      as (bits2 & tree2 & E2 & Hok2 & D2).
    exists (bits1 ++ bits2), tree2. split; [| split].
    + cbn [encode_all]. rewrite E1. cbn [mbind option_bind]. rewrite E2. reflexivity.
    + apply engine_ok_sibling_order, Hok2.
    + intros Hrb rest. apply Forall_cons in Hrb as [Hr Hrb].
      cbn [decode_all map]. rewrite <- app_assoc, (D1 Hr). cbn [mbind option_bind].
      cbn [d_rest d_tree d_ret d_out]. rewrite (D2 Hrb). reflexivity.
Qed.

(** C1, as the code has it: a finite sequence of symbols none of which is a
    null term, the escape marker, the end-of-stream sentinel or, as an index,
    [NO_INT], encoded by a fresh engine and decoded by a fresh engine with the
    matching variant at each position, comes back exactly, every call of a
    decoder returning 1, for every literal coder that reads back what it
    writes for these symbols; the decoder ends with the tree of the encoder
    and leaves what followed the encoded bits in the stream. *)
Theorem round_trip (syms : list symbol) (rest : BitStream) :
  Forall (ordinary lz) syms → Forall (reads_back lz) syms →
  ∃ bits tree,
    encode_all lz [] (HFinit lz []) syms = Some (bits, tree)
    ∧ decode_all lz (bits ++ rest) (HFinit lz []) (map variant_of syms)
      = Some (map (λ s, (1%Z, s)) syms, tree, rest).
Proof.
  intros Hall Hrb. destruct (stream_from_fresh syms Hall) as (bits & tree & E & _ & D).
  exists bits, tree. split; [exact E | apply (D Hrb)].
Qed.


End StreamClaims.

Lemma demo_reads_back_terms :
  Forall (reads_back demo_lz)
    [sym_term (sym "A"); sym_term (sym "B"); sym_term (sym "C");
     sym_term NO_ATERM; sym_term ESCAPE_SEQUENCE].
Proof. repeat constructor; intros [] t0 rest; reflexivity. Qed.

(** C1, as stated, fails on the reserved terms: the escape marker sent twice
    and followed by [A] is decoded as the escape marker, [A] and a failure,
    the second occurrence being taken for an escape; and the sentinel is
    decoded as the end of the stream. The literal coder reads back every
    symbol involved. *)
Lemma reserved_terms_do_not_round_trip :
  Forall (reads_back demo_lz)
    [sym_term ESCAPE_SEQUENCE; sym_term (sym "A"); sym_term NO_ATERM]
  ∧ (∃ bits tree tree',
       encode_all demo_lz [] (HFinit demo_lz [])
         [sym_term ESCAPE_SEQUENCE; sym_term ESCAPE_SEQUENCE; sym_term (sym "A")]
       = Some (bits, tree)
       ∧ decode_all demo_lz bits (HFinit demo_lz []) [as_term; as_term; as_term]
         = Some ([(1%Z, sym_term ESCAPE_SEQUENCE); (1%Z, sym_term (sym "A"));
                  (0%Z, sym_term aterm_null)], tree', []))
  ∧ (∃ bits tree tree',
       encode_all demo_lz [] (HFinit demo_lz []) [sym_term NO_ATERM; sym_term (sym "A")]
       = Some (bits, tree)
       ∧ decode_all demo_lz bits (HFinit demo_lz []) [as_term; as_term]
         = Some ([(0%Z, sym_term aterm_null); (1%Z, sym_term (sym "A"))], tree', [])).
Proof.
  split; [repeat constructor; intros [] t0 rest; reflexivity |].
  split; eexists _, _, _; split; vm_compute; reflexivity.
Qed.

Lemma round_trip_witness :
  ∃ bits tree,
    encode_all demo_lz [] (HFinit demo_lz [])
      [sym_term (sym "A"); sym_index 2; sym_term (sym "A"); sym_term (sym "B"); sym_index 2]
    = Some (bits, tree)
    ∧ decode_all demo_lz (bits ++ [true]) (HFinit demo_lz [])
        [as_term; as_index; as_term; as_term; as_index]
      = Some ([(1%Z, sym_term (sym "A")); (1%Z, sym_index 2); (1%Z, sym_term (sym "A"));
               (1%Z, sym_term (sym "B")); (1%Z, sym_index 2)], tree, [true]).
Proof.
  apply (round_trip demo_lz
           [sym_term (sym "A"); sym_index 2; sym_term (sym "A"); sym_term (sym "B");
            sym_index 2] [true]).
  - repeat constructor; simpl; discriminate.
  - repeat constructor; intros [] t0 rest; reflexivity.
Defined.



(** ** What an update and an insertion do to the weights *)

Section Effects.

Variable lz : LiteralCoder.

(** One pass of the loop of [HFupdate], with the node it exchanged. *)
Lemma HFupdate_step_effect (tree : HFtree lz) (c i : nat) :
  engine_ok tree (Some c) → blockList tree !! i = Some c →
  ∃ tree' s r,
    HFupdate_step lz tree c = Some tree'
    ∧ codes tree = Some r ∧ codes tree' = Some (exchange c s r)
    ∧ swapped_from (heap tree) (heap tree') c s
    ∧ weight (heap tree) s = weight (heap tree) c.
Proof.
  intros (r & e & Hc & Ht & Htree & Hord & Hpre & Hw & Htbl & Hcv & Hce & Hlast) Hi.
  destruct (HFsuccessor_spec lz tree c i (ord_nodup _ _ Hord)
              (λ n, proj1 (ord_all _ _ Hord n)) Hi) as (succ & Esucc & Hsucc & Hend).
  assert (Hsome : ∀ x, succ = Some x →
            x < length (heap tree) ∧ x ≠ c ∧ weight (heap tree) x = weight (heap tree) c).
  { intros x ->. destruct Hsucc as (j & Hij & Hj & Hrun & _).
    split; [apply (ord_all _ _ Hord); eapply list_elem_of_lookup_2, Hj |].
    split; [| apply (Hrun j); [lia | exact Hj]].
    intros E. rewrite E in Hj.
    pose proof (NoDup_lookup _ _ _ _ (ord_nodup _ _ Hord) Hi Hj). lia. }
  destruct (HFupdate_step_spec lz tree r c succ Hc Htree Hcv Esucc)
    as (tree' & Estep & Hc' & _ & _ & _ & _ & Hsw).
  { intros x Hx. destruct (Hsome x Hx) as (H1 & H2 & _). auto. }
  exists tree', (default c succ), r.
  split; [exact Estep |]. split; [exact Hc |]. split; [exact Hc' |]. split; [exact Hsw |].
  destruct succ as [x |]; simpl; [apply (Hsome x eq_refl) | reflexivity].
Qed.

Lemma exchange_root_weight (h : Heap) (c s r : nat) :
  weight h s = weight h c → weight h (exchange c s r) = weight h r.
Proof.
  intros E. destruct (exchange_cases c s r) as [(-> & ->) | [(-> & ->) | (_ & _ & ->)]];
    congruence.
Qed.

(** The loop of [HFupdate] from the node [c]: a leaf other than [c] keeps
    its weight, [c] gains one when it is a leaf, and so does the root. *)
Lemma HFupdate_loop_effect (fuel : nat) (tree : HFtree lz) (c i : nat) :
  engine_ok tree (Some c) → blockList tree !! i = Some c →
  length (blockList tree) - i ≤ fuel →
  ∃ tree', HFupdate_loop lz fuel tree (Some c) = Some tree'
    ∧ (∀ q, low_of (heap tree') q = None ↔ low_of (heap tree) q = None)
    ∧ (∀ q, term_of (heap tree') q = term_of (heap tree) q)
    ∧ (∀ q, low_of (heap tree) q = None → q ≠ c →
            weight (heap tree') q = weight (heap tree) q)
    ∧ (low_of (heap tree) c = None →
       weight (heap tree') c = (weight (heap tree) c + 1)%N)
    ∧ (∀ r r', codes tree = Some r → codes tree' = Some r' →
               weight (heap tree') r' = (weight (heap tree) r + 1)%N).
Proof.
  revert tree c i. induction fuel as [| fuel IH]; intros tree c i Hok Hi Hfuel.
  { apply lookup_lt_Some in Hi. lia. }
  destruct (HFupdate_step_ok lz tree c i Hok Hi)
    as (tree1 & j & Estep & Hok1 & Hij & Hj & Hlen & _).
  destruct (HFupdate_step_effect tree c i Hok Hi)
    as (tree1' & s & r & Estep' & Hc & Hc1 & Hsw & Hws).
  assert (tree1' = tree1) as -> by congruence. clear Estep'.
  destruct Hsw as (_ & Hlow & _ & Hpar & Hwt & Htm).
  assert (Hleaf1 : ∀ q, low_of (heap tree1) q = None ↔ low_of (heap tree) q = None).
  { intros q. rewrite Hlow. destruct (low_of (heap tree) q); simpl; split; congruence. }
  simpl. rewrite Estep. cbn [mbind option_bind].
  assert (Hcv : c < length (heap tree1)).
  { destruct Hok as (_ & _ & _ & _ & _ & _ & _ & _ & _ & Hcv & _). lia. }
  apply lookup_lt_is_Some in Hcv as [nd End]. rewrite End. cbn [mbind option_bind].
  assert (Epar : parent_of (heap tree1) c = parent nd)
    by (unfold parent_of; rewrite End; reflexivity).
  rewrite Epar in Hok1.
  pose proof Hok1 as (r1 & e1 & Hcr1 & _ & Htree1 & Hord1 & _).
  assert (r1 = exchange c s r) as -> by congruence.
  destruct (parent nd) as [c' |].
  - assert (Hc'v : c' ∈ blockList tree1).
    { apply (ord_all _ _ Hord1). destruct Hok1 as (_ & _ & _ & _ & _ & _ & _ & _ & _ & H & _).
      exact H. }
    apply list_elem_of_lookup in Hc'v as [k Hk].
    pose proof (ord_parent_later _ _ Hord1 _ _ _ _ Epar Hj Hk) as Hjk.
    assert (Hlen_bl : length (blockList tree1) = length (blockList tree)).
    { destruct Hok as (_ & _ & _ & _ & _ & Hord & _).
      rewrite (order_length _ _ Hord1), (order_length _ _ Hord). exact Hlen. }
    destruct (IH tree1 c' k Hok1 Hk) as (tree' & E & Hl' & Ht' & Hw' & _ & Hr').
    { apply lookup_lt_Some in Hk. lia. }
    assert (Hinner : low_of (heap tree1) c' ≠ None).
    { destruct (ok_parent _ _ Htree1 _ _ Epar) as [E1 | E1]; [congruence |].
      intros E2. apply (ok_binary _ _ Htree1) in E2. congruence. }
    exists tree'. split; [exact E |].
    split; [intros q; rewrite Hl'; apply Hleaf1 |].
    split; [intros q; rewrite Ht'; apply Htm |].
    split; [| split].
    + intros q Hq Hqc. rewrite Hw'; [| apply Hleaf1, Hq | intros ->; apply Hinner, Hleaf1, Hq].
      rewrite Hwt. rewrite decide_False by exact Hqc. reflexivity.
    + intros Hq. rewrite Hw'; [| apply Hleaf1, Hq | intros ->; apply Hinner, Hleaf1, Hq].
      rewrite Hwt. rewrite decide_True by reflexivity. reflexivity.
    + intros r0 r' E0 E'. assert (r0 = r) as -> by congruence.
      rewrite (Hr' _ _ Hcr1 E'). rewrite Hwt.
      rewrite decide_False.
      * rewrite (exchange_root_weight _ _ _ _ Hws). reflexivity.
      * intros Ec.
        assert (Hrv : exchange c s r < length (heap tree1)) by apply (ok_root_valid _ _ Htree1).
        pose proof (proj2 (ok_root _ _ Htree1 _ Hrv) eq_refl) as Hnone.
        rewrite Ec in Hnone. congruence.
  - exists tree1. split; [destruct fuel; reflexivity |].
    split; [exact Hleaf1 |]. split; [exact Htm |]. split; [| split].
    + intros q _ Hqc. rewrite Hwt. rewrite decide_False by exact Hqc. reflexivity.
    + intros _. rewrite Hwt. rewrite decide_True by reflexivity. reflexivity.
    + intros r0 r' E0 E'. assert (r0 = r) as -> by congruence.
      assert (r' = exchange c s r) as -> by congruence.
      assert (Hcv' : c < length (heap tree1)) by (eapply lookup_lt_Some, End).
      pose proof (proj1 (ok_root _ _ Htree1 _ Hcv') Epar) as Ec.
      rewrite <- Ec. rewrite Hwt. rewrite decide_True by reflexivity.
      f_equal. rewrite <- (exchange_root_weight (heap tree) c s r Hws).
      rewrite <- Ec. reflexivity.
Qed.

(** [HFupdate] from a leaf that satisfies the invariant: it ends and leaves
    the invariant; the nodes, the table, the escape pointer and the buffer
    are those it was given; the leaf and the root have gained one, every
    other leaf weighs what it did. *)
Lemma HFupdate_effect (tree : HFtree lz) (c : nat) :
  engine_ok tree (Some c) → low_of (heap tree) c = None →
  ∃ tree', HFupdate lz tree (Some c) = Some tree'
    ∧ engine_ok tree' None
    ∧ length (heap tree') = length (heap tree)
    ∧ top tree' = top tree ∧ terms tree' = terms tree ∧ buffer tree' = buffer tree
    ∧ (∀ q, low_of (heap tree') q = None ↔ low_of (heap tree) q = None)
    ∧ (∀ q, term_of (heap tree') q = term_of (heap tree) q)
    ∧ (∀ q, low_of (heap tree) q = None → q ≠ c →
            weight (heap tree') q = weight (heap tree) q)
    ∧ weight (heap tree') c = (weight (heap tree) c + 1)%N
    ∧ (∀ r r', codes tree = Some r → codes tree' = Some r' →
               weight (heap tree') r' = (weight (heap tree) r + 1)%N).
Proof.
  intros Hok Hleaf.
  destruct (HFupdate_ok lz tree c Hok) as (tree' & E & Hok' & Hlen & Ht & Htb & Hbf).
  pose proof Hok as (r & e & _ & _ & _ & Hord & _ & _ & _ & Hcv & _).
  apply (ord_all _ _ Hord) in Hcv. apply list_elem_of_lookup in Hcv as [i Hi].
  destruct (HFupdate_loop_effect (length (heap tree)) tree c i Hok Hi)
    as (tree'' & E' & Hl & Htm & Hw & Hwc & Hr).
  { rewrite (order_length _ _ Hord). lia. }
  unfold HFupdate in E. assert (tree'' = tree') as -> by congruence.
  exists tree'. split; [exact E |]. split; [exact Hok' |].
  repeat (split; [assumption |]). split; [apply Hwc, Hleaf | exact Hr].
Qed.

End Effects.

(** ** What the engine keeps of a stream *)

Lemma aterm_eqb_sym (a b : aterm) : aterm_eqb a b = aterm_eqb b a.
Proof.
  destruct (aterm_eqb a b) eqn:E.
  - apply aterm_eqb_eq in E as ->. symmetry. apply aterm_eqb_refl.
  - destruct (aterm_eqb b a) eqn:E'; [| reflexivity].
    apply aterm_eqb_eq in E' as ->. rewrite aterm_eqb_refl in E. discriminate.
Qed.

Lemma occurrences_app (t : aterm) (l l' : list symbol) :
  occurrences t (l ++ l') = occurrences t l + occurrences t l'.
Proof. induction l as [| a l IH]; simpl; [reflexivity | rewrite IH; lia]. Qed.

Lemma occurrences_last (t : aterm) (l : list symbol) (s : symbol) :
  occurrences t (l ++ [s])
  = occurrences t l + (if aterm_eqb (term_of_symbol s) t then 1 else 0).
Proof. rewrite occurrences_app. simpl. lia. Qed.

Lemma distinct_terms_last (l : list symbol) (s : symbol) :
  distinct_terms (l ++ [s])
  = distinct_terms l + (if Nat.eqb (occurrences (term_of_symbol s) l) 0 then 1 else 0).
Proof.
  induction l as [| a l IH]; [reflexivity |].
  cbn [app distinct_terms occurrences]. rewrite IH, occurrences_last.
  rewrite (aterm_eqb_sym (term_of_symbol a) (term_of_symbol s)).
  destruct (aterm_eqb (term_of_symbol s) (term_of_symbol a)) eqn:E.
  - apply aterm_eqb_eq in E. rewrite E.
    destruct (occurrences (term_of_symbol a) l); simpl; lia.
  - rewrite Nat.add_0_r. simpl.
    destruct (occurrences (term_of_symbol a) l =? 0); lia.
Qed.

Lemma occurrences_elem (t : aterm) (l : list symbol) :
  0 < occurrences t l ↔ ∃ s, s ∈ l ∧ term_of_symbol s = t.
Proof.
  induction l as [| a l IH]; simpl.
  - split; [lia | intros (s & Hs & _); inversion Hs].
  - destruct (aterm_eqb (term_of_symbol a) t) eqn:E.
    + apply aterm_eqb_eq in E. split; [| lia]. intros _. exists a. split; [left | exact E].
    + split.
      * intros H. destruct (proj1 IH) as (s & Hs & Hst); [lia |].
        exists s. split; [right; exact Hs | exact Hst].
      * intros (s & Hs & Hst). apply elem_of_cons in Hs as [-> | Hs].
        -- rewrite Hst, aterm_eqb_refl in E. discriminate.
        -- simpl. apply IH. eauto.
Qed.

Section History.

Variable lz : LiteralCoder.

Lemma engine_ok_three (tree : HFtree lz) (c : ptr) :
  engine_ok tree c → 3 ≤ length (heap tree).
Proof.
  intros (r & e & _ & _ & _ & Hord & (m & pe & rest & Ebl & _) & _).
  rewrite <- (order_length _ _ Hord), Ebl. simpl. lia.
Qed.

(** The normal case of [HFadd] on an engine at rest: two nodes more, every
    weight as it was, the old leaves still leaves, the term bound to the
    new leaf. *)
Lemma HFadd_effect (tree : HFtree lz) (t : aterm) :
  engine_ok tree None → t ≠ ESCAPE_SEQUENCE →
  ∃ tree2,
    let leaf := S (length (heap tree)) in
    HFadd lz tree t = Some (tree2, leaf)
    ∧ engine_ok tree2 (Some leaf)
    ∧ codes tree2 = codes tree ∧ top tree2 = top tree ∧ buffer tree2 = buffer tree
    ∧ terms tree2 = HTbind (terms tree) t (Some leaf)
    ∧ length (heap tree2) = S leaf
    ∧ (∀ q, weight (heap tree2) q = weight (heap tree) q)
    ∧ (∀ q, low_of (heap tree2) q = None
            ↔ q ≠ length (heap tree) ∧ low_of (heap tree) q = None)
    ∧ (∀ q, q ≠ length (heap tree) →
            term_of (heap tree2) q
            = if decide (q = S (length (heap tree))) then Some t
              else term_of (heap tree) q).
Proof.
  intros Hok Hne.
  destruct (HFadd_ok lz tree t Hok Hne) as (tree2 & leaf & Eadd & Hok2 & _).
  destruct Hok as (r & e & Hc & Ht & Htree & Hord & Hpre & Hw & Htbl & _).
  destruct Hpre as (m & pe & rest & Ebl & Hpe & Hm).
  pose proof Htbl as (Hev & Hlow & Hhigh & _).
  pose proof Hw as (_ & He0 & _).
  assert (Hph : high_of (heap tree) pe ≠ None).
  { destruct (ok_parent _ _ Htree _ _ Hpe) as [E | E]; [| congruence].
    intros E'. apply (ok_binary _ _ Htree) in E'. congruence. }
  destruct (HFadd_normal_fields lz tree t r e pe Hc Ht Htree Hpe Hlow He0 Hph)
    as (tree2' & Eadd' & Hc2 & Ht2 & Hbf2 & Htb2 & _ & Hins).
  assert (tree2' = tree2 ∧ S (length (heap tree)) = leaf) as [-> <-].
  { rewrite Eadd in Eadd'. injection Eadd' as -> ->. auto. }
  exists tree2. cbv zeta. split; [exact Eadd |]. split; [exact Hok2 |].
  repeat (split; [assumption |]).
  destruct Hins as (Hlen & _ & Hl & _ & Hwt & Htm).
  split; [exact Hlen |]. split; [exact Hwt |]. split.
  - intros q. rewrite Hl. destruct (decide (q = length (heap tree))) as [-> | Hq].
    + split; [discriminate | intros [H _]; congruence].
    + destruct (low_of (heap tree) q); simpl; split; try tauto; try discriminate.
      intros [_ H]. discriminate.
  - intros q Hq. rewrite Htm, decide_False by exact Hq. reflexivity.
Qed.

(** What an encoder does with a symbol the table knows. *)
Lemma HFencode_known (tree : HFtree lz) (s : symbol) (leaf : nat) (bs : BitStream) :
  ordinary lz s → known_leaf lz tree (term_of_symbol s) = Some leaf →
  HFencode lz bs tree s =
  bs1 ← HFwriteCode lz tree bs leaf;
  tree1 ← HFupdate lz tree (Some leaf);
  Some (1%Z, bs1, tree1).
Proof.
  intros Hs Hk. destruct (ordinary_term lz s Hs) as (_ & _ & Hnn).
  destruct s as [t | i]; simpl in *.
  - unfold HFencodeATerm. rewrite (aterm_eqb_neq t aterm_null Hnn), Hk. reflexivity.
  - unfold HFencodeIndex. rewrite Hk. reflexivity.
Qed.

(** What an encoder does with a symbol the table does not know. *)
Lemma HFencode_new (tree : HFtree lz) (s : symbol) (bs : BitStream) :
  ordinary lz s → known_leaf lz tree (term_of_symbol s) = None →
  ∃ lit buf,
    HFencode lz bs tree s =
    tmp ← top tree;
    bs1 ← HFwriteCode lz tree bs tmp;
    r ← add_then_update lz (with_buffer lz tree buf) (term_of_symbol s);
    Some (0%Z, bs1 ++ lit, r).
Proof.
  intros Hs Hk. destruct (ordinary_term lz s Hs) as (_ & _ & Hnn).
  destruct s as [t | i]; simpl in *.
  - exists (LZwriteATerm lz (buffer tree) t).1, (LZwriteATerm lz (buffer tree) t).2.
    unfold HFencodeATerm. rewrite (aterm_eqb_neq t aterm_null Hnn), Hk.
    destruct (top tree) as [tmp |]; [| reflexivity]. cbn [mbind option_bind].
    destruct (HFwriteCode lz tree bs tmp) as [bs1 |]; [| reflexivity].
    cbn [mbind option_bind]. destruct (LZwriteATerm lz (buffer tree) t) as [lit buf].
    simpl. apply encode_new_eq.
  - exists (LZwriteInt lz (buffer tree) i).1, (LZwriteInt lz (buffer tree) i).2.
    unfold HFencodeIndex. rewrite Hk.
    destruct (top tree) as [tmp |]; [| reflexivity]. cbn [mbind option_bind].
    destruct (HFwriteCode lz tree bs tmp) as [bs1 |]; [| reflexivity].
    cbn [mbind option_bind]. destruct (LZwriteInt lz (buffer tree) i) as [lit buf].
    simpl. apply encode_new_eq.
Qed.

Lemma history_known (tree tree' : HFtree lz) (syms : list symbol) (s : symbol) (leaf : nat) :
  engine_ok tree None → history tree syms → ordinary lz s →
  known_leaf lz tree (term_of_symbol s) = Some leaf →
  HFupdate lz tree (Some leaf) = Some tree' →
  history tree' (syms ++ [s]) ∧ length (heap tree') = length (heap tree).
Proof.
  intros Hok (Hk & Hroot & Hlen & Hlv') Hs Hleaf Eupd.
  destruct (known_leaf_ok lz tree _ leaf Hok Hleaf) as (Hokl & Hlv & Hlow & Htm & _).
  destruct (HFupdate_effect lz tree leaf Hokl Hlow)
    as (tree'' & E & Hok' & Hlen' & Htop & Htb & _ & Hlf & _ & Hw & Hwl & Hr).
  assert (tree'' = tree') as -> by congruence.
  pose proof (Hk (term_of_symbol s)) as Hks. rewrite Hleaf in Hks. destruct Hks as [Hks Hpos].
  split; [| exact Hlen']. split; [| split; [| split]].
  - intros t. unfold known_leaf. rewrite Htb. fold (known_leaf lz tree t).
    pose proof (Hk t) as Hkt. rewrite occurrences_last.
    destruct (known_leaf lz tree t) as [n |] eqn:En.
    + destruct Hkt as [Hn Hn0]. split; [| lia].
      destruct Hok as (r & e & _ & _ & _ & _ & _ & _ & Htbl & _).
      destruct Htbl as (_ & _ & _ & _ & Hent).
      destruct (Hent t n En) as (Hnl & _ & Hnt & _).
      destruct (aterm_eqb (term_of_symbol s) t) eqn:Est.
      * apply aterm_eqb_eq in Est. rewrite Est in Hleaf.
        assert (n = leaf) as -> by congruence. rewrite Hwl, Hn. lia.
      * rewrite Hw; [rewrite Hn; lia | exact Hnl |]. intros ->.
        assert (term_of_symbol s = t) as Est' by congruence.
        rewrite Est', aterm_eqb_refl in Est. discriminate.
    + destruct (aterm_eqb (term_of_symbol s) t) eqn:Est; [| lia].
      apply aterm_eqb_eq in Est. congruence.
  - intros r' Hr'. destruct Hok as (r & e & Hc & _).
    rewrite (Hr r r' Hc Hr'), (Hroot r Hc), length_app. simpl. lia.
  - rewrite Hlen', Hlen, distinct_terms_last.
    destruct (occurrences (term_of_symbol s) syms); simpl; lia.
  - intros q Hq Hql. rewrite Hlen' in Hq. apply Hlf in Hql.
    unfold known_leaf. rewrite Htop, Htb. apply (Hlv' q Hq Hql).
Qed.

Lemma history_new (tree tree' : HFtree lz) (syms : list symbol) (s : symbol)
  (buf : LZbuffer lz) :
  engine_ok tree None → history tree syms → ordinary lz s →
  known_leaf lz tree (term_of_symbol s) = None →
  add_then_update lz (with_buffer lz tree buf) (term_of_symbol s) = Some tree' →
  history tree' (syms ++ [s]) ∧ length (heap tree') = length (heap tree) + 2.
Proof.
  intros Hok (Hk & Hroot & Hlen & Hlv') Hs Hnew Eau.
  destruct (ordinary_term lz s Hs) as (Hne & _ & _).
  pose proof (engine_ok_three tree None Hok) as H3.
  destruct (HFadd_effect (with_buffer lz tree buf) (term_of_symbol s)
              (engine_ok_with_buffer lz tree buf None Hok) Hne)
    as (tree2 & Eadd & Hok2 & Hc2 & Htop2 & _ & Htb2 & Hlen2 & Hw2 & Hl2 & _).
  cbv zeta in Eadd, Hok2, Htb2, Hlen2.
  simpl in Eadd, Hok2, Hc2, Htop2, Htb2, Hlen2, Hw2, Hl2.
  set (n := length (heap tree)) in *.
  unfold add_then_update in Eau. rewrite Eadd in Eau. cbn [mbind option_bind] in Eau.
  assert (Hleaf2 : low_of (heap tree2) (S n) = None).
  { apply Hl2. split; [lia |]. unfold low_of. rewrite lookup_ge_None_2 by (unfold n; lia).
    reflexivity. }
  destruct (HFupdate_effect lz tree2 (S n) Hok2 Hleaf2)
    as (tree'' & E & Hok' & Hlen' & Htop & Htb & _ & Hlf & _ & Hw & Hwl & Hr).
  assert (tree'' = tree') as -> by congruence.
  pose proof (Hk (term_of_symbol s)) as Hks. rewrite Hnew in Hks.
  split; [| rewrite Hlen', Hlen2; lia]. split; [| split; [| split]].
  - intros t. unfold known_leaf. rewrite Htb, Htb2, HTknown_HTbind.
    fold (known_leaf lz tree t). pose proof (Hk t) as Hkt. rewrite occurrences_last.
    destruct (aterm_eqb (term_of_symbol s) t) eqn:Est.
    + apply aterm_eqb_eq in Est. rewrite <- Est, Hks.
      rewrite Hwl, Hw2. unfold weight. rewrite lookup_ge_None_2 by (unfold n; lia).
      split; lia.
    + destruct (known_leaf lz tree t) as [m |] eqn:Em; [| lia].
      destruct Hkt as [Hm Hm0]. split; [| lia].
      destruct Hok as (r & e & _ & _ & _ & _ & _ & _ & Htbl & _).
      destruct Htbl as (_ & _ & _ & _ & Hent).
      destruct (Hent t m Em) as (Hml & _ & Hmt & _).
      pose proof (term_of_valid _ _ _ Hmt) as Hmv. fold n in Hmv.
      rewrite Hw; [rewrite Hw2, Hm; lia | apply Hl2; split; [lia | exact Hml] | lia].
  - intros r' Hr'. destruct Hok as (r & e & Hc & _).
    assert (Hc2' : codes tree2 = Some r) by congruence.
    rewrite (Hr r r' Hc2' Hr'), Hw2, (Hroot r Hc), length_app. simpl. lia.
  - rewrite Hlen', Hlen2, distinct_terms_last, Hks. simpl. fold n in Hlen. lia.
  - intros q Hq Hql. rewrite Hlen', Hlen2 in Hq. apply Hlf, Hl2 in Hql as [Hqn Hql].
    unfold known_leaf. rewrite Htop, Htop2, Htb, Htb2.
    destruct (decide (q = S n)) as [-> | Hqs].
    + right. exists (term_of_symbol s). rewrite HTknown_HTbind, aterm_eqb_refl. reflexivity.
    + destruct (Hlv' q) as [Ht | (t & Ht)]; [lia | exact Hql | left; exact Ht |].
      right. exists t. rewrite HTknown_HTbind.
      destruct (aterm_eqb (term_of_symbol s) t) eqn:Est; [| exact Ht].
      apply aterm_eqb_eq in Est. unfold known_leaf in Hnew, Ht. congruence.
Qed.

Lemma history_fresh : history (HFinit lz []) [].
Proof.
  split; [| split; [| split]].
  - intros t. reflexivity.
  - intros r E. injection E as <-. reflexivity.
  - reflexivity.
  - intros [| [| q]] Hq E; simpl in *; [discriminate | auto | lia].
Qed.

Lemma history_after_first (s : symbol) (buf : LZbuffer lz) :
  history (after_first lz (term_of_symbol s) buf) [s].
Proof.
  split; [| split; [| split]].
  - intros t. unfold known_leaf, HTknown, HTmember. simpl.
    destruct (aterm_eqb (term_of_symbol s) t); simpl; [split; [reflexivity | lia] | reflexivity].
  - intros r E. injection E as <-. reflexivity.
  - simpl. reflexivity.
  - intros [| [| [| q]]] Hq E; simpl in *; [discriminate | auto | | lia].
    right. exists (term_of_symbol s). unfold known_leaf, HTknown, HTmember. simpl.
    rewrite aterm_eqb_refl. reflexivity.
Qed.

(** One more symbol through an engine at rest that has kept its stream. *)
Lemma history_step (tree : HFtree lz) (syms : list symbol) (s : symbol) (bs : BitStream) :
  engine_ok tree None → history tree syms → ordinary lz s →
  ∃ bits tree',
    HFencode lz bs tree s
    = Some (if Nat.eqb (occurrences (term_of_symbol s) syms) 0 then 0%Z else 1%Z,
            bs ++ bits, tree')
    ∧ engine_ok tree' None ∧ history tree' (syms ++ [s])
    ∧ length (heap tree')
      = length (heap tree)
        + (if Nat.eqb (occurrences (term_of_symbol s) syms) 0 then 2 else 0).
Proof.
  intros Hok Hh Hs. pose proof Hh as (Hk & _). pose proof (Hk (term_of_symbol s)) as Hks.
  destruct (known_leaf lz tree (term_of_symbol s)) as [leaf |] eqn:Ek.
  - destruct Hks as [_ Hpos].
    destruct (known_symbol_step lz tree s leaf bs Hok Hs Ek) as (bits & tree' & E & Hok' & _).
    pose proof E as E'. rewrite (HFencode_known tree s leaf bs Hs Ek) in E'.
    apply bind_Some in E' as (bs1 & _ & E'). apply bind_Some in E' as (tree1 & Eupd & E').
    assert (tree1 = tree') as -> by congruence.
    destruct (history_known tree tree' syms s leaf Hok Hh Hs Ek Eupd) as [Hh' Hlen'].
    exists bits, tree'.
    destruct (occurrences (term_of_symbol s) syms) as [| k]; [lia |]. simpl.
    split; [exact E |]. split; [exact Hok' |]. split; [exact Hh' | lia].
  - destruct (new_symbol_step lz tree s bs Hok Hs Ek) as (bits & tree' & E & Hok' & _).
    pose proof E as E'. destruct (HFencode_new tree s bs Hs Ek) as (lit & buf & En).
    rewrite En in E'.
    apply bind_Some in E' as (tmp & _ & E'). apply bind_Some in E' as (bs1 & _ & E').
    apply bind_Some in E' as (r & Eau & E'). assert (r = tree') as -> by congruence.
    destruct (history_new tree tree' syms s buf Hok Hh Hs Ek Eau) as [Hh' Hlen'].
    exists bits, tree'. rewrite Hks. simpl.
    split; [exact E |]. split; [exact Hok' |]. split; [exact Hh' | exact Hlen'].
Qed.

(** The first symbol through a fresh engine. *)
Lemma history_first (s : symbol) (bs : BitStream) :
  ordinary lz s →
  ∃ bits tree',
    HFencode lz bs (HFinit lz []) s = Some (0%Z, bs ++ bits, tree')
    ∧ engine_ok tree' None ∧ history tree' [s] ∧ length (heap tree') = 3.
Proof.
  intros Hs. destruct (ordinary_term lz s Hs) as (Hne & Hns & Hnn).
  destruct s as [t | i]; simpl in *.
  - exists ([false] ++ (LZwriteATerm lz (LZinit lz) t).1),
      (after_first lz t (LZwriteATerm lz (LZinit lz) t).2).
    split; [| split; [apply after_first_ok, Hne |]].
    + pose proof (HFencodeATerm_fresh lz bs t) as E. cbv zeta in E.
      rewrite (aterm_eqb_neq t aterm_null Hnn) in E. exact E.
    + split; [apply (history_after_first (sym_term t)) | reflexivity].
  - exists ([false] ++ (LZwriteInt lz (LZinit lz) i).1),
      (after_first lz (aterm_int i) (LZwriteInt lz (LZinit lz) i).2).
    split; [| split; [apply after_first_ok; discriminate |]].
    + apply HFencodeIndex_fresh.
    + split; [apply (history_after_first (sym_index i)) | reflexivity].
Qed.

Lemma history_from (l : list symbol) :
  ∀ (tree : HFtree lz) (bs : BitStream) (pre : list symbol),
    engine_ok tree None → history tree pre → Forall (ordinary lz) l →
    ∃ bits tree',
      encode_all lz bs tree l = Some (bs ++ bits, tree')
      ∧ engine_ok tree' None ∧ history tree' (pre ++ l).
Proof.
  induction l as [| s l IH]; intros tree bs pre Hok Hh Hall.
  - exists [], tree. rewrite !app_nil_r. auto.
  - apply Forall_cons in Hall as [Hs Hall].
    destruct (history_step tree pre s bs Hok Hh Hs) as (bits1 & tree1 & E1 & Hok1 & Hh1 & _).
    destruct (IH tree1 (bs ++ bits1) (pre ++ [s]) Hok1 Hh1 Hall)
      as (bits2 & tree2 & E2 & Hok2 & Hh2).
    exists (bits1 ++ bits2), tree2. split; [| split; [exact Hok2 |]].
    + cbn [encode_all]. rewrite E1. cbn [mbind option_bind]. rewrite E2, app_assoc.
      reflexivity.
    + rewrite <- app_assoc in Hh2. exact Hh2.
Qed.

(** A stream of ordinary symbols through a fresh engine: the encoder
    returns, its tree keeps the stream, and but for the empty stream it
    satisfies the invariant. *)
Lemma history_of_stream (syms : list symbol) :
  Forall (ordinary lz) syms →
  ∃ bits tree,
    encode_all lz [] (HFinit lz []) syms = Some (bits, tree)
    ∧ history tree syms
    ∧ (syms = [] ∧ tree = HFinit lz [] ∨ syms ≠ [] ∧ engine_ok tree None).
Proof.
  intros Hall. destruct syms as [| s syms].
  - exists [], (HFinit lz []). split; [reflexivity |]. split; [apply history_fresh | auto].
  - apply Forall_cons in Hall as [Hs Hall].
    destruct (history_first s [] Hs) as (bits1 & tree1 & E1 & Hok1 & Hh1 & _).
    destruct (history_from syms tree1 ([] ++ bits1) [s] Hok1 Hh1 Hall)
      as (bits2 & tree2 & E2 & Hok2 & Hh2).
    exists (bits1 ++ bits2), tree2. split; [| split; [exact Hh2 | right; auto]].
    cbn [encode_all]. rewrite E1. cbn [mbind option_bind]. rewrite E2. reflexivity.
Qed.

End History.

(** ** Codes, the descent and the dump *)

Lemma HFwriteCode_rec_append (fuel : nat) (h : Heap) (bs : BitStream) (x : nat) :
  HFwriteCode_rec fuel h bs x = (λ code, bs ++ code) <$> HFwriteCode_rec fuel h [] x.
Proof.
  revert x bs. induction fuel as [| fuel IH]; intros x bs; [reflexivity |].
  cbn [HFwriteCode_rec]. destruct (h !! x) as [nd |]; [| reflexivity].
  cbn [mbind option_bind]. destruct (parent nd) as [p |].
  - rewrite (IH p bs). destruct (HFwriteCode_rec fuel h [] p) as [code |]; [| reflexivity].
    cbn [fmap option_fmap option_map mbind option_bind].
    destruct (h !! p) as [pn |]; [| reflexivity].
    cbn [fmap option_fmap option_map mbind option_bind]. unfold BSwriteBit.
    rewrite app_assoc. reflexivity.
  - simpl. rewrite app_nil_r. reflexivity.
Qed.

Lemma HFdumpCode_rec_chars (fuel : nat) (h : Heap) (fp : list ascii) (x : nat) :
  HFdumpCode_rec fuel h fp x
  = (λ code, fp ++ code_chars code) <$> HFwriteCode_rec fuel h [] x.
Proof.
  revert x. induction fuel as [| fuel IH]; intros x; [reflexivity |].
  cbn [HFdumpCode_rec HFwriteCode_rec]. destruct (h !! x) as [nd |]; [| reflexivity].
  cbn [mbind option_bind]. destruct (parent nd) as [p |].
  - rewrite (IH p). destruct (HFwriteCode_rec fuel h [] p) as [code |]; [| reflexivity].
    cbn [fmap option_fmap option_map mbind option_bind].
    destruct (h !! p) as [pn |]; [| reflexivity].
    cbn [fmap option_fmap option_map mbind option_bind]. unfold BSwriteBit, code_chars.
    rewrite map_app, app_assoc. simpl. reflexivity.
  - simpl. rewrite app_nil_r. reflexivity.
Qed.

(** In a tree whose nodes have two children or none the descent ends at a
    leaf or with the stream, never on a null child. *)
Lemma descend_total (h : Heap) (r : nat) :
  tree_ok h r →
  ∀ fp x, x < length h →
    (∃ c nd code fp', descend h fp (Some x) = Some (walk_leaf c nd fp')
                      ∧ h !! c = Some nd ∧ is_leaf nd = true ∧ fp = code ++ fp')
    ∨ descend h fp (Some x) = Some walk_exhausted.
Proof.
  intros Htree. induction fp as [| b fp IH]; intros x Hx.
  - apply lookup_lt_is_Some in Hx as [nd End]. simpl. rewrite End. simpl.
    destruct (is_leaf nd) eqn:El; [left | right; reflexivity].
    exists x, nd, [], []. auto.
  - pose proof Hx as Hxv. apply lookup_lt_is_Some in Hx as [nd End].
    cbn [descend]. rewrite End. cbn [mbind option_bind].
    destruct (is_leaf nd) eqn:El.
    { left. exists x, nd, [], (b :: fp). auto. }
    assert (Hch : ∃ a c, low nd = Some a ∧ high nd = Some c).
    { pose proof (ok_binary _ _ Htree x) as Hb. unfold low_of, high_of in Hb.
      rewrite End in Hb. unfold is_leaf in El.
      destruct (low nd) as [a |], (high nd) as [c |]; simpl in El; try discriminate.
      - eauto.
      - pose proof (proj2 Hb eq_refl). discriminate.
      - pose proof (proj1 Hb eq_refl). discriminate. }
    destruct Hch as (a & c & Ea & Ec).
    assert (Hav : a < length h).
    { apply (tree_ok_child_valid h r x a Htree). left. unfold low_of. rewrite End. exact Ea. }
    assert (Hcv : c < length h).
    { apply (tree_ok_child_valid h r x c Htree). right. unfold high_of. rewrite End. exact Ec. }
    assert (Hnext : ∃ y, (if b then high nd else low nd) = Some y ∧ y < length h).
    { destruct b; eauto. }
    destruct Hnext as (y & Ey & Hyv). rewrite Ey.
    destruct (IH y Hyv) as [(c0 & nd0 & code & fp' & E & Ec0 & El0 & Efp) | E].
    + left. exists c0, nd0, (b :: code), fp'.
      split; [exact E |]. split; [exact Ec0 |]. split; [exact El0 |].
      rewrite Efp. reflexivity.
    + right. exact E.
Qed.

Section CodeFacts.

Variable lz : LiteralCoder.

(** The codes of two different leaves: neither begins with the other. *)
Lemma codes_prefix_free_ok (tree : HFtree lz) (x y : nat) (cx cy : BitStream) :
  engine_ok tree None →
  x < length (heap tree) → y < length (heap tree) →
  low_of (heap tree) x = None → low_of (heap tree) y = None → x ≠ y →
  HFwriteCode lz tree [] x = Some cx → HFwriteCode lz tree [] y = Some cy →
  ∀ ext, cy ≠ cx ++ ext.
Proof.
  intros Hok Hxv Hyv Hxl Hyl Hxy Ex Ey ext E.
  pose proof Hok as (r & e & Hc & _).
  destruct (code_of_leaf lz tree None r x Hok Hc Hxv Hxl) as (cx' & ndx & _ & _ & Hcx & Hdx).
  destruct (code_of_leaf lz tree None r y Hok Hc Hyv Hyl) as (cy' & ndy & _ & _ & Hcy & Hdy).
  rewrite (Hcx []) in Ex. rewrite (Hcy []) in Ey. simpl in Ex, Ey.
  injection Ex as <-. injection Ey as <-.
  pose proof (Hdy []) as H1. rewrite E, <- app_assoc, (Hdx (ext ++ [])) in H1.
  injection H1 as H1 _ _. contradiction.
Qed.

End CodeFacts.

(** ** Streams with sentinels, and streams that are not streams *)

Section AnyStream.

Variable lz : LiteralCoder.

Lemma received_term (t : aterm) :
  received lz (sym_term t)
  = let t' := if aterm_eqb t aterm_null then NO_ATERM else t in
    if aterm_eqb t' NO_ATERM then (0%Z, sym_term aterm_null) else (1%Z, sym_term t').
Proof.
  cbv zeta. unfold received. destruct (aterm_eqb t aterm_null) eqn:E; [reflexivity |].
  simpl. destruct (aterm_eqb t NO_ATERM); reflexivity.
Qed.

Lemma sent_term_not_escape (t : aterm) :
  t ≠ ESCAPE_SEQUENCE → (if aterm_eqb t aterm_null then NO_ATERM else t) ≠ ESCAPE_SEQUENCE.
Proof. intros H. destruct (aterm_eqb t aterm_null); [discriminate | exact H]. Qed.

(** What the decoder of terms answers at a leaf holding [t], after the
    update [HFupdate] made. *)
Lemma decode_leaf_ATerm_known (fp : BitStream) (tree tree' : HFtree lz) (c : nat)
  (nd : HFnode) :
  term nd ≠ ESCAPE_SEQUENCE → HFupdate lz tree (Some c) = Some tree' →
  decode_leaf_ATerm lz fp tree c nd
  = Some (if aterm_eqb (term nd) NO_ATERM then mk_decoded 0%Z aterm_null tree' fp
          else mk_decoded 1%Z (term nd) tree' fp).
Proof.
  intros Hne Eupd. unfold decode_leaf_ATerm. rewrite (aterm_eqb_neq _ _ Hne), Eupd.
  cbn [mbind option_bind]. destruct (aterm_eqb (term nd) NO_ATERM); reflexivity.
Qed.

(** One symbol, a sentinel or not, through an engine at rest. *)
Lemma any_symbol_step (tree : HFtree lz) (s : symbol) (bs : BitStream) :
  engine_ok tree None → sendable s →
  ∃ ret bits tree',
    HFencode lz bs tree s = Some (ret, bs ++ bits, tree')
    ∧ engine_ok tree' None
    ∧ (reads_back lz (literal_of s) →
       ∀ rest, HFdecode lz (bits ++ rest) tree (variant_of s)
               = Some (mk_decoded (received lz s).1 (received lz s).2 tree' rest)).
Proof.
  intros Hok Hs. pose proof Hok as (r & e & Hc & Ht & _ & _ & _ & _ & Htbl & _).
  destruct Htbl as (Hev & Hel & _ & Het & _).
  destruct (code_of_leaf lz tree None r e Hok Hc Hev Hel)
    as (ecode & en & Een & _ & Hecode & Hedesc).
  pose proof (term_of_lookup _ _ _ _ Een Het) as Eetm.
  assert (Hnew : ∀ t buf, t ≠ ESCAPE_SEQUENCE →
            ∃ tree3, add_then_update lz (with_buffer lz tree buf) t = Some tree3
                     ∧ engine_ok tree3 None).
  { intros t buf Hne.
    destruct (HFadd_ok lz (with_buffer lz tree buf) t
                (engine_ok_with_buffer lz tree buf None Hok) Hne)
      as (tree2 & leaf & Eadd & Hok2 & _).
    destruct (HFupdate_ok lz tree2 leaf Hok2) as (tree3 & Eupd & Hok3 & _).
    exists tree3. split; [| exact Hok3].
    unfold add_then_update. rewrite Eadd. cbn [mbind option_bind]. exact Eupd. }
  assert (Hknown : ∀ t leaf, known_leaf lz tree t = Some leaf →
            ∃ code nd tree',
              (∀ bs, HFwriteCode lz tree bs leaf = Some (bs ++ code))
              ∧ (∀ rest, descend (heap tree) (code ++ rest) (codes tree)
                         = Some (walk_leaf leaf nd rest))
              ∧ term nd = t ∧ HFupdate lz tree (Some leaf) = Some tree'
              ∧ engine_ok tree' None).
  { intros t leaf Hk.
    destruct (known_leaf_ok lz tree t leaf Hok Hk) as (Hokl & Hlv & Hlow & Htm & _).
    destruct (code_of_leaf lz tree None r leaf Hok Hc Hlv Hlow)
      as (code & nd & End & _ & Hcode & Hdesc).
    destruct (HFupdate_ok lz tree leaf Hokl) as (tree' & Eupd & Hok' & _).
    exists code, nd, tree'. repeat (split; [assumption |]).
    split; [apply (term_of_lookup _ _ _ _ End Htm) |]. auto. }
  destruct s as [t | i].
  - unfold sendable in Hs. simpl in Hs.
    pose proof (sent_term_not_escape t Hs) as Hne.
    cbn [HFencode HFdecode variant_of literal_of]. rewrite received_term. cbv zeta.
    unfold HFencodeATerm.
    set (t' := if aterm_eqb t aterm_null then NO_ATERM else t) in *.
    destruct (known_leaf lz tree t') as [leaf |] eqn:Ek.
    + destruct (Hknown t' leaf Ek) as (code & nd & tree' & Hcode & Hdesc & Etm & Eupd & Hok').
      exists 1%Z, code, tree'. split; [| split; [exact Hok' |]].
      * rewrite Hcode. cbn [mbind option_bind]. rewrite Eupd. reflexivity.
      * intros _ rest.
        rewrite (HFdecodeATerm_at_leaf lz _ _ _ _ _ _ (Hdesc rest)).
        rewrite (decode_leaf_ATerm_known rest tree tree' leaf nd) by congruence.
        rewrite Etm. cbn [mbind option_bind].
        destruct (aterm_eqb t' NO_ATERM); reflexivity.
    + destruct (LZwriteATerm lz (buffer tree) t') as [lit buf] eqn:Ew.
      destruct (Hnew t' buf Hne) as (tree3 & Eau & Hok3).
      exists 0%Z, (ecode ++ lit), tree3. split; [| split; [exact Hok3 |]].
      * rewrite Ht. cbn [mbind option_bind]. rewrite Hecode. cbn [mbind option_bind].
        rewrite encode_new_eq, Eau. cbn [mbind option_bind]. rewrite app_assoc. reflexivity.
      * intros Hrb rest. rewrite <- app_assoc.
        rewrite (HFdecodeATerm_at_leaf lz _ _ _ _ _ _ (Hedesc (lit ++ rest))).
        pose proof (Hrb (buffer tree) ESCAPE_SEQUENCE rest) as Hread. rewrite Ew in Hread.
        simpl in Hread.
        rewrite (decode_leaf_ATerm_new lz _ _ _ _ _ _ _ Eetm Hread), Eau.
        cbn [mbind option_bind]. destruct (aterm_eqb t' NO_ATERM); reflexivity.
  - cbn [HFencode HFdecode variant_of literal_of received fst snd].
    unfold HFencodeIndex.
    destruct (known_leaf lz tree (aterm_int i)) as [leaf |] eqn:Ek.
    + destruct (Hknown _ leaf Ek) as (code & nd & tree' & Hcode & Hdesc & Etm & Eupd & Hok').
      exists 1%Z, code, tree'. split; [| split; [exact Hok' |]].
      * rewrite Hcode. cbn [mbind option_bind]. rewrite Eupd. reflexivity.
      * intros _ rest.
        rewrite (HFdecodeIndex_at_leaf lz _ _ _ _ _ _ (Hdesc rest)).
        unfold decode_leaf_Index. rewrite Etm. simpl. rewrite Eupd.
        cbn [mbind option_bind]. destruct (i =? NO_INT lz)%Z; reflexivity.
    + destruct (LZwriteInt lz (buffer tree) i) as [lit buf] eqn:Ew.
      destruct (Hnew (aterm_int i) buf) as (tree3 & Eau & Hok3); [discriminate |].
      exists 0%Z, (ecode ++ lit), tree3. split; [| split; [exact Hok3 |]].
      * rewrite Ht. cbn [mbind option_bind]. rewrite Hecode. cbn [mbind option_bind].
        rewrite encode_new_eq, Eau. cbn [mbind option_bind]. rewrite app_assoc. reflexivity.
      * intros Hrb rest. rewrite <- app_assoc.
        rewrite (HFdecodeIndex_at_leaf lz _ _ _ _ _ _ (Hedesc (lit ++ rest))).
        pose proof (Hrb (buffer tree) 0%Z rest) as Hread. rewrite Ew in Hread.
        simpl in Hread.
        rewrite (decode_leaf_Index_new lz _ _ _ _ _ _ _ _ Eetm Hread), Eau.
        cbn [mbind option_bind]. destruct (i =? NO_INT lz)%Z; reflexivity.
Qed.

(** The first symbol, a sentinel or not, through a fresh engine. *)
Lemma any_first_step (s : symbol) (bs : BitStream) :
  sendable s →
  ∃ bits tree',
    HFencode lz bs (HFinit lz []) s = Some (0%Z, bs ++ bits, tree')
    ∧ engine_ok tree' None
    ∧ (reads_back lz (literal_of s) →
       ∀ rest, HFdecode lz (bits ++ rest) (HFinit lz []) (variant_of s)
               = Some (mk_decoded (received lz s).1 (received lz s).2 tree' rest)).
Proof.
  intros Hs. destruct s as [t | i].
  - unfold sendable in Hs. simpl in Hs.
    pose proof (sent_term_not_escape t Hs) as Hne.
    cbn [HFencode HFdecode variant_of literal_of]. rewrite received_term.
    pose proof (HFencodeATerm_fresh lz bs t) as E. cbv zeta in E |- *.
    set (t' := if aterm_eqb t aterm_null then NO_ATERM else t) in *.
    exists ([false] ++ (LZwriteATerm lz (LZinit lz) t').1),
      (after_first lz t' (LZwriteATerm lz (LZinit lz) t').2).
    split; [exact E |]. split; [apply after_first_ok, Hne |].
    intros Hrb rest. rewrite <- app_assoc.
    rewrite (HFdecodeATerm_at_leaf lz _ ((LZwriteATerm lz (LZinit lz) t').1 ++ rest) _ 1
               (mk_HFnode None None (Some 0) 0%N ESCAPE_SEQUENCE))
      by apply descend_fresh.
    rewrite (decode_leaf_ATerm_new lz _ _ (HFinit lz []) 1
               (mk_HFnode None None (Some 0) 0%N ESCAPE_SEQUENCE) _ _ eq_refl
               (Hrb (LZinit lz) ESCAPE_SEQUENCE rest)).
    change (add_then_update lz _ t')
      with (Some (after_first lz t' (LZwriteATerm lz (LZinit lz) t').2)).
    cbn [mbind option_bind]. destruct (aterm_eqb t' NO_ATERM); reflexivity.
  - cbn [HFencode HFdecode variant_of literal_of received fst snd].
    exists ([false] ++ (LZwriteInt lz (LZinit lz) i).1),
      (after_first lz (aterm_int i) (LZwriteInt lz (LZinit lz) i).2).
    split; [apply HFencodeIndex_fresh |]. split; [apply after_first_ok; discriminate |].
    intros Hrb rest. rewrite <- app_assoc.
    rewrite (HFdecodeIndex_at_leaf lz _ ((LZwriteInt lz (LZinit lz) i).1 ++ rest) _ 1
               (mk_HFnode None None (Some 0) 0%N ESCAPE_SEQUENCE))
      by apply descend_fresh.
    rewrite (decode_leaf_Index_new lz _ _ (HFinit lz []) 1
               (mk_HFnode None None (Some 0) 0%N ESCAPE_SEQUENCE) _ _ _ eq_refl
               (Hrb (LZinit lz) 0%Z rest)).
    change (add_then_update lz _ (aterm_int i))
      with (Some (after_first lz (aterm_int i) (LZwriteInt lz (LZinit lz) i).2)).
    cbn [mbind option_bind]. destruct (i =? NO_INT lz)%Z; reflexivity.
Qed.

Lemma any_stream_from (syms : list symbol) :
  ∀ (tree : HFtree lz) (bs : BitStream),
    engine_ok tree None → Forall sendable syms →
    ∃ bits tree',
      encode_all lz bs tree syms = Some (bs ++ bits, tree')
      ∧ engine_ok tree' None
      ∧ (Forall (λ s, reads_back lz (literal_of s)) syms →
         ∀ rest, decode_all lz (bits ++ rest) tree (map variant_of syms)
                 = Some (map (received lz) syms, tree', rest)).
Proof.
  induction syms as [| s syms IH]; intros tree bs Hok Hall.
  - exists [], tree. split; [simpl; rewrite app_nil_r; reflexivity |].
    split; [exact Hok |]. intros _ rest. reflexivity.
  - apply Forall_cons in Hall as [Hs Hall].
    destruct (any_symbol_step tree s bs Hok Hs) as (ret & bits1 & tree1 & E1 & Hok1 & D1).
    destruct (IH tree1 (bs ++ bits1) Hok1 Hall) as (bits2 & tree2 & E2 & Hok2 & D2).
    exists (bits1 ++ bits2), tree2. split; [| split; [exact Hok2 |]].
    + cbn [encode_all]. rewrite E1. cbn [mbind option_bind]. rewrite E2, app_assoc.
      reflexivity.
    + intros Hrb rest. apply Forall_cons in Hrb as [Hr Hrb].
      cbn [decode_all map]. rewrite <- app_assoc, (D1 Hr). cbn [mbind option_bind].
      cbn [d_rest d_tree d_ret d_out]. rewrite (D2 Hrb).
      destruct (received lz s). reflexivity.
Qed.

(** A leaf other than the escape leaf can be the start of an update. *)
Lemma leaf_start_ok (tree : HFtree lz) (c : nat) :
  engine_ok tree None → c < length (heap tree) → low_of (heap tree) c = None →
  top tree ≠ Some c → engine_ok tree (Some c).
Proof.
  intros (r & e & Hc & Ht & Htree & Hord & Hpre & Hw & Htbl & _) Hcv Hl Hne.
  exists r, e. repeat (split; [assumption |]).
  split; [| split; [exact Htbl |]].
  - destruct Hw as (Hsum & He0 & Hzero). split; [| split; [exact He0 |]].
    + intros n a b La Hb. pose proof (Hsum n a b La Hb) as E.
      rewrite decide_False in E by discriminate. rewrite decide_False; [exact E |].
      intros E'. injection E' as ->. congruence.
    + intros n Hn Hn0. destruct (Hzero n Hn Hn0) as [-> | [E | (x & E & _)]];
        [auto | discriminate | discriminate].
  - simpl. split; [exact Hcv |]. split; [intros ->; congruence |].
    intros E. destruct (ok_parent _ _ Htree _ _ E) as [E' | E']; [congruence |].
    apply (ok_binary _ _ Htree) in Hl. congruence.
Qed.

Hypothesis Hcoder : never_reads_escape lz.

(** On an engine at rest the decoder of terms returns whatever the stream
    holds, and leaves the engine at rest. *)
Lemma decode_term_step (tree : HFtree lz) (fp : BitStream) (t0 : aterm) :
  engine_ok tree None →
  ∃ r, HFdecodeATerm lz fp tree t0 = Some r ∧ engine_ok (d_tree r) None.
Proof using Hcoder.
  intros Hok. pose proof Hok as (r & e & Hc & Ht & Htree & _ & _ & _ & Htbl & _).
  destruct Htbl as (_ & _ & _ & Het & _).
  destruct (descend_total (heap tree) r Htree fp r (ok_root_valid _ _ Htree))
    as [(c & nd & code & fp' & Ed & Ec & El & _) | Ed]; rewrite <- Hc in Ed.
  - rewrite (HFdecodeATerm_at_leaf lz _ _ _ _ _ _ Ed). unfold decode_leaf_ATerm.
    destruct (aterm_eqb (term nd) ESCAPE_SEQUENCE) eqn:Eesc.
    + destruct (LZreadATerm lz fp' (buffer tree) (term nd)) as [[[b t'] buf] fp2] eqn:Er.
      destruct b.
      * pose proof (Hcoder _ _ _ _ _ _ Er) as Hne.
        destruct (HFadd_ok lz (with_buffer lz tree buf) t'
                    (engine_ok_with_buffer lz tree buf None Hok) Hne)
          as (tree2 & leaf & Eadd & Hok2 & _).
        destruct (HFupdate_ok lz tree2 leaf Hok2) as (tree3 & Eupd & Hok3 & _).
        rewrite Eadd. cbn [mbind option_bind]. rewrite Eupd. cbn [mbind option_bind].
        destruct (aterm_eqb t' NO_ATERM); eexists; (split; [reflexivity | exact Hok3]).
      * eexists. split; [reflexivity |]. exact Hok.
    + assert (Hcv : c < length (heap tree)) by (eapply lookup_lt_Some, Ec).
      assert (Hlow : low_of (heap tree) c = None).
      { unfold low_of. rewrite Ec. unfold is_leaf in El.
        apply andb_true_iff in El as [_ El]. apply ptr_eqb_eq in El. exact El. }
      assert (Hce : top tree ≠ Some c).
      { rewrite Ht. intros E. injection E as ->. unfold term_of in Het.
        rewrite Ec in Het. injection Het as Het. rewrite Het in Eesc. discriminate. }
      destruct (HFupdate_ok lz tree c (leaf_start_ok tree c Hok Hcv Hlow Hce))
        as (tree1 & Eupd & Hok1 & _).
      rewrite Eupd. cbn [mbind option_bind].
      destruct (aterm_eqb (term nd) NO_ATERM); eexists; (split; [reflexivity | exact Hok1]).
  - unfold HFdecodeATerm. rewrite HFdecodeATerm_loop_descend, Ed.
    eexists. split; [reflexivity | exact Hok].
Qed.

(** The same on a fresh engine, whose buffer may have been used. *)
Lemma decode_term_fresh (buf : LZbuffer lz) (fp : BitStream) (t0 : aterm) :
  ∃ r, HFdecodeATerm lz fp (with_buffer lz (HFinit lz []) buf) t0 = Some r
       ∧ (engine_ok (d_tree r) None
          ∨ ∃ buf', d_tree r = with_buffer lz (HFinit lz []) buf').
Proof using Hcoder.
  destruct fp as [| [|] fp].
  - eexists. split; [reflexivity |]. right. exists buf. reflexivity.
  - unfold HFdecodeATerm. rewrite HFdecodeATerm_loop_descend.
    assert (Ed : descend (heap (with_buffer lz (HFinit lz []) buf)) (true :: fp)
                   (codes (with_buffer lz (HFinit lz []) buf)) = Some (walk_null fp))
      by (simpl; destruct fp; reflexivity).
    rewrite Ed. eexists. split; [reflexivity |]. right. exists buf. reflexivity.
  - rewrite (HFdecodeATerm_at_leaf lz (false :: fp) fp _ 1
               (mk_HFnode None None (Some 0) 0%N ESCAPE_SEQUENCE))
      by apply (descend_fresh lz [] fp).
    unfold decode_leaf_ATerm. cbn [term buffer with_buffer].
    change (aterm_eqb ESCAPE_SEQUENCE ESCAPE_SEQUENCE) with true. cbv iota.
    destruct (LZreadATerm lz fp buf ESCAPE_SEQUENCE) as [[[b t'] buf'] fp2] eqn:Er.
    destruct b.
    + pose proof (Hcoder _ _ _ _ _ _ Er) as Hne.
      change (HFadd lz _ t' ≫= _) with (Some (after_first lz t' buf') ≫=
        λ tree3 : HFtree lz,
          if aterm_eqb t' NO_ATERM then Some (mk_decoded 0%Z aterm_null tree3 fp2)
          else Some (mk_decoded 1%Z t' tree3 fp2)).
      cbn [mbind option_bind].
      destruct (aterm_eqb t' NO_ATERM); eexists;
        (split; [reflexivity | left; apply after_first_ok, Hne]).
    + eexists. split; [reflexivity |]. right. exists buf'. reflexivity.
Qed.

(** Any number of calls of the decoder of terms on any stream return, and
    leave the engine fresh or at rest. *)
Lemma decode_terms_total (n : nat) :
  ∀ (fp : BitStream) (tree : HFtree lz),
    engine_ok tree None ∨ (∃ buf, tree = with_buffer lz (HFinit lz []) buf) →
    ∃ out tree' fp',
      decode_all lz fp tree (replicate n as_term) = Some (out, tree', fp')
      ∧ length out = n
      ∧ (engine_ok tree' None ∨ ∃ buf, tree' = with_buffer lz (HFinit lz []) buf).
Proof using Hcoder.
  induction n as [| n IH]; intros fp tree Hst.
  - exists [], tree, fp. auto.
  - assert (Hstep : ∃ r, HFdecodeATerm lz fp tree aterm_null = Some r
              ∧ (engine_ok (d_tree r) None
                 ∨ ∃ buf', d_tree r = with_buffer lz (HFinit lz []) buf')).
    { destruct Hst as [Hok | [buf ->]].
      - destruct (decode_term_step tree fp aterm_null Hok) as (r & E & Hok').
        exists r. auto.
      - apply decode_term_fresh. }
    destruct Hstep as (r & E & Hst').
    destruct (IH (d_rest r) (d_tree r) Hst') as (out & tree' & fp' & E' & Hlen & Hfin).
    cbn [replicate decode_all HFdecode]. rewrite E. cbn [mbind option_bind].
    cbn [d_rest d_tree d_ret d_out]. rewrite E'. cbn [mbind option_bind].
    eexists _, tree', fp'. split; [reflexivity |]. split; [| exact Hfin].
    simpl. rewrite Hlen. reflexivity.
Qed.

End AnyStream.

(** ** The decoder of indices on any stream *)

Section AnyIndexStream.

Variable lz : LiteralCoder.

Lemma ints_only_update (tree tree' : HFtree lz) (c : nat) :
  engine_ok tree (Some c) → low_of (heap tree) c = None →
  HFupdate lz tree (Some c) = Some tree' → ints_only tree → ints_only tree'.
Proof.
  intros Hok Hl Eupd Hint.
  destruct (HFupdate_effect lz tree c Hok Hl)
    as (tree'' & E & _ & _ & _ & _ & _ & Hlf & Htm & _).
  assert (tree'' = tree') as -> by congruence.
  intros q t Hq Ht. apply (Hint q t); [apply Hlf, Hq | rewrite <- Htm; exact Ht].
Qed.

(** On an engine at rest whose leaves hold integers the decoder of indices
    returns whatever the stream holds, and leaves such an engine. *)
Lemma decode_index_step (tree : HFtree lz) (fp : BitStream) (i0 : Z) :
  engine_ok tree None → ints_only tree →
  ∃ r, HFdecodeIndex lz fp tree i0 = Some r
       ∧ engine_ok (d_tree r) None ∧ ints_only (d_tree r).
Proof.
  intros Hok Hint. pose proof Hok as (r & e & Hc & Ht & Htree & _ & _ & _ & Htbl & _).
  destruct Htbl as (_ & _ & _ & Het & _).
  destruct (descend_total (heap tree) r Htree fp r (ok_root_valid _ _ Htree))
    as [(c & nd & code & fp' & Ed & Ec & El & _) | Ed]; rewrite <- Hc in Ed.
  - rewrite (HFdecodeIndex_at_leaf lz _ _ _ _ _ _ Ed). unfold decode_leaf_Index.
    assert (Hcv : c < length (heap tree)) by (eapply lookup_lt_Some, Ec).
    assert (Hlow : low_of (heap tree) c = None).
    { unfold low_of. rewrite Ec. unfold is_leaf in El.
      apply andb_true_iff in El as [_ El]. apply ptr_eqb_eq in El. exact El. }
    destruct (aterm_eqb (term nd) ESCAPE_SEQUENCE) eqn:Eesc.
    + destruct (LZreadInt lz fp' (buffer tree) i0) as [[[b i'] buf] fp2] eqn:Er.
      destruct b.
      * destruct (HFadd_effect lz (with_buffer lz tree buf) (aterm_int i')
                    (engine_ok_with_buffer lz tree buf None Hok))
          as (tree2 & Eadd & Hok2 & _ & _ & _ & _ & Hlen2 & _ & Hl2 & Htm2);
          [discriminate |].
        cbv zeta in Eadd, Hok2, Hlen2. simpl in Eadd, Hok2, Hlen2, Hl2, Htm2.
        assert (Hleaf2 : low_of (heap tree2) (S (length (heap tree))) = None).
        { apply Hl2. split; [lia |]. unfold low_of. rewrite lookup_ge_None_2 by lia.
          reflexivity. }
        destruct (HFupdate_ok lz tree2 _ Hok2) as (tree3 & Eupd & Hok3 & _).
        rewrite Eadd. cbn [mbind option_bind]. rewrite Eupd. cbn [mbind option_bind].
        eexists. split; [reflexivity |]. split; [exact Hok3 |]. cbn [d_tree].
        apply (ints_only_update tree2 tree3 _ Hok2 Hleaf2 Eupd).
        intros q t Hq Htq. apply Hl2 in Hq as [Hqn Hq]. rewrite (Htm2 q Hqn) in Htq.
        destruct (decide (q = S (length (heap tree)))) as [_ | _].
        -- injection Htq as <-. right. eauto.
        -- apply (Hint q t Hq Htq).
      * eexists. split; [reflexivity |]. split; [exact Hok | exact Hint].
    + assert (Hce : top tree ≠ Some c).
      { rewrite Ht. intros E. injection E as ->. unfold term_of in Het.
        rewrite Ec in Het. injection Het as Het. rewrite Het in Eesc. discriminate. }
      pose proof (leaf_start_ok lz tree c Hok Hcv Hlow Hce) as Hokc.
      destruct (HFupdate_ok lz tree c Hokc) as (tree1 & Eupd & Hok1 & _).
      rewrite Eupd. cbn [mbind option_bind].
      assert (Htc : term_of (heap tree) c = Some (term nd))
        by (unfold term_of; rewrite Ec; reflexivity).
      destruct (Hint c (term nd) Hlow Htc) as [E | [i E]].
      { rewrite E in Eesc. discriminate. }
      rewrite E. cbn [aterm_int_value mbind option_bind].
      eexists. split; [reflexivity |]. split; [exact Hok1 |]. cbn [d_tree].
      apply (ints_only_update tree tree1 c Hokc Hlow Eupd Hint).
  - unfold HFdecodeIndex. rewrite HFdecodeIndex_loop_descend, Ed.
    eexists. split; [reflexivity |]. split; [exact Hok | exact Hint].
Qed.

Lemma ints_only_after_first (i : Z) (buf : LZbuffer lz) :
  ints_only (after_first lz (aterm_int i) buf).
Proof.
  intros [| [| [| q]]] t Hq Ht; simpl in *; try discriminate; injection Ht as <-; eauto.
Qed.

(** The same on a fresh engine, whose buffer may have been used. *)
Lemma decode_index_fresh (buf : LZbuffer lz) (fp : BitStream) (i0 : Z) :
  ∃ r, HFdecodeIndex lz fp (with_buffer lz (HFinit lz []) buf) i0 = Some r
       ∧ (engine_ok (d_tree r) None ∧ ints_only (d_tree r)
          ∨ ∃ buf', d_tree r = with_buffer lz (HFinit lz []) buf').
Proof.
  destruct fp as [| [|] fp].
  - eexists. split; [reflexivity |]. right. exists buf. reflexivity.
  - unfold HFdecodeIndex. rewrite HFdecodeIndex_loop_descend.
    assert (Ed : descend (heap (with_buffer lz (HFinit lz []) buf)) (true :: fp)
                   (codes (with_buffer lz (HFinit lz []) buf)) = Some (walk_null fp))
      by (simpl; destruct fp; reflexivity).
    rewrite Ed. eexists. split; [reflexivity |]. right. exists buf. reflexivity.
  - rewrite (HFdecodeIndex_at_leaf lz (false :: fp) fp _ 1
               (mk_HFnode None None (Some 0) 0%N ESCAPE_SEQUENCE))
      by apply (descend_fresh lz [] fp).
    unfold decode_leaf_Index. cbn [term buffer with_buffer].
    change (aterm_eqb ESCAPE_SEQUENCE ESCAPE_SEQUENCE) with true. cbv iota.
    destruct (LZreadInt lz fp buf i0) as [[[b i'] buf'] fp2] eqn:Er.
    destruct b.
    + change (HFadd lz _ (aterm_int i') ≫= _)
        with (Some (after_first lz (aterm_int i') buf') ≫=
              λ tree3 : HFtree lz,
                Some (mk_decoded (int_of_bool (negb (i' =? NO_INT lz)%Z)) i' tree3 fp2)).
      cbn [mbind option_bind]. eexists. split; [reflexivity |]. left. cbn [d_tree].
      split; [apply after_first_ok; discriminate | apply ints_only_after_first].
    + eexists. split; [reflexivity |]. right. exists buf'. reflexivity.
Qed.

(** Any number of calls of the decoder of indices on any stream return. *)
Lemma decode_indices_total (n : nat) :
  ∀ (fp : BitStream) (tree : HFtree lz),
    engine_ok tree None ∧ ints_only tree
    ∨ (∃ buf, tree = with_buffer lz (HFinit lz []) buf) →
    ∃ out tree' fp',
      decode_all lz fp tree (replicate n as_index) = Some (out, tree', fp')
      ∧ length out = n
      ∧ (engine_ok tree' None ∨ ∃ buf, tree' = with_buffer lz (HFinit lz []) buf).
Proof.
  induction n as [| n IH]; intros fp tree Hst.
  - exists [], tree, fp. split; [reflexivity |]. split; [reflexivity |].
    destruct Hst as [[H _] | H]; auto.
  - assert (Hstep : ∃ r, HFdecodeIndex lz fp tree 0%Z = Some r
              ∧ (engine_ok (d_tree r) None ∧ ints_only (d_tree r)
                 ∨ ∃ buf', d_tree r = with_buffer lz (HFinit lz []) buf')).
    { destruct Hst as [[Hok Hint] | [buf ->]].
      - destruct (decode_index_step tree fp 0%Z Hok Hint) as (r & E & Hok' & Hint').
        exists r. auto.
      - apply decode_index_fresh. }
    destruct Hstep as (r & E & Hst').
    destruct (IH (d_rest r) (d_tree r) Hst') as (out & tree' & fp' & E' & Hlen & Hfin).
    cbn [replicate decode_all HFdecode]. rewrite E. cbn [mbind option_bind].
    cbn [d_rest d_tree d_ret d_out]. rewrite E'. cbn [mbind option_bind].
    eexists _, tree', fp'. split; [reflexivity |]. split; [| exact Hfin].
    simpl. rewrite Hlen. reflexivity.
Qed.

End AnyIndexStream.

(** ** The teardown *)

Lemma below_child (h : Heap) (x a y : nat) :
  parent_of h a = Some x → below h a y → below h x y.
Proof.
  intros Ha H. induction H as [| y p Hp _ IH].
  - apply (below_step h x a x Ha). apply below_refl.
  - apply (below_step h x y p Hp IH).
Qed.

Lemma below_chain (h : Heap) (a b y : nat) :
  below h a y → below h b y → below h a b ∨ below h b a.
Proof.
  intros Ha. revert b. induction Ha as [| y p Hp Hap IH]; intros b Hb.
  - right. exact Hb.
  - inversion Hb as [| y' p' Hp' Hbp]; subst.
    + left. apply (below_step h a y p Hp Hap).
    + assert (p' = p) as -> by congruence. apply IH, Hbp.
Qed.

Lemma below_top (h : Heap) (x y : nat) :
  below h x y → y = x ∨ ∃ a, parent_of h a = Some x ∧ below h a y.
Proof.
  intros H. induction H as [| y p Hp _ IH]; [left; reflexivity |].
  right. destruct IH as [-> | (a & Ha & Hay)].
  - exists y. split; [exact Hp | apply below_refl].
  - exists a. split; [exact Ha | apply (below_step h a y p Hp Hay)].
Qed.

Section Teardown.

Variables (h : Heap) (bl : BList) (r : nat).

Hypothesis Hroot_valid : r < length h.
Hypothesis Hroot : ∀ n, n < length h → (parent_of h n = None ↔ n = r).
Hypothesis Hparent :
  ∀ n p, parent_of h n = Some p → low_of h p = Some n ∨ high_of h p = Some n.
Hypothesis Hchild :
  ∀ p x, low_of h p = Some x ∨ high_of h p = Some x → parent_of h x = Some p.
Hypothesis Hdistinct : ∀ n a, low_of h n = Some a → high_of h n ≠ Some a.
Hypothesis Hord : order_ok h bl.

Lemma teardown_parent_valid (n p : nat) : parent_of h n = Some p → p < length h.
Proof using All.
  intros Hp. destruct (Hparent n p Hp) as [E | E];
    [apply (low_of_valid _ _ _ E) | apply (high_of_valid _ _ _ E)].
Qed.

Lemma below_valid (x y : nat) : x < length h → below h x y → y < length h.
Proof using All.
  intros Hx H. destruct H as [| y p Hp _]; [exact Hx | apply (parent_of_valid _ _ _ Hp)].
Qed.

Lemma below_position (x y i j : nat) :
  below h x y → bl !! i = Some x → bl !! j = Some y → j ≤ i.
Proof using All.
  intros H. revert j. induction H as [| y p Hp _ IH]; intros j Hi Hj.
  - pose proof (NoDup_lookup _ _ _ _ (ord_nodup _ _ Hord) Hi Hj). lia.
  - assert (Hpin : p ∈ bl) by (apply (ord_all _ _ Hord), (teardown_parent_valid y p Hp)).
    apply list_elem_of_lookup in Hpin as [k Hk].
    pose proof (ord_parent_later _ _ Hord _ _ _ _ Hp Hj Hk).
    pose proof (IH k Hi Hk). lia.
Qed.

(** A child is not above its parent. *)
Lemma child_not_above (x a : nat) : parent_of h a = Some x → ¬ below h a x.
Proof using All.
  intros Ha Hb.
  assert (Hain : a ∈ bl) by (apply (ord_all _ _ Hord), (parent_of_valid _ _ _ Ha)).
  assert (Hxin : x ∈ bl) by (apply (ord_all _ _ Hord), (teardown_parent_valid a x Ha)).
  apply list_elem_of_lookup in Hain as [i Hi]. apply list_elem_of_lookup in Hxin as [j Hj].
  pose proof (ord_parent_later _ _ Hord _ _ _ _ Ha Hi Hj).
  pose proof (below_position a x i j Hb Hi Hj). lia.
Qed.

(** The subtrees of two children of a node share no node. *)
Lemma subtrees_apart (x a b y : nat) :
  parent_of h a = Some x → parent_of h b = Some x → a ≠ b →
  below h a y → below h b y → False.
Proof using All.
  intros Ha Hb Hab Hay Hby.
  destruct (below_chain h a b y Hay Hby) as [H | H].
  - inversion H as [| b' p Hp Hap]; subst; [congruence |].
    assert (p = x) as -> by congruence. apply (child_not_above x a Ha Hap).
  - inversion H as [| a' p Hp Hbp]; subst; [congruence |].
    assert (p = x) as -> by congruence. apply (child_not_above x b Hb Hbp).
Qed.

(** [HFfreeLoop] at a node deletes the nodes below it, each once. *)
Lemma HFfreeLoop_subtree (fuel : nat) :
  ∀ x i, bl !! i = Some x → i < fuel →
    ∃ l, HFfreeLoop fuel h (Some x) = Some l ∧ NoDup l ∧ ∀ y, y ∈ l ↔ below h x y.
Proof using All.
  induction fuel as [| fuel IH]; intros x i Hi Hfuel; [lia |].
  assert (Hxv : x < length h) by (apply (ord_all _ _ Hord); eapply list_elem_of_lookup_2, Hi).
  apply lookup_lt_is_Some in Hxv as [nd End].
  assert (Hsub : ∀ ch : ptr, (∀ a, ch = Some a → parent_of h a = Some x) →
            ∃ lc, HFfreeLoop fuel h ch = Some lc ∧ NoDup lc
                  ∧ ∀ y, y ∈ lc ↔ ∃ a, ch = Some a ∧ below h a y).
  { intros [a |] Hch.
    - pose proof (Hch a eq_refl) as Ha.
      assert (Hain : a ∈ bl) by (apply (ord_all _ _ Hord), (parent_of_valid _ _ _ Ha)).
      apply list_elem_of_lookup in Hain as [k Hk].
      pose proof (ord_parent_later _ _ Hord _ _ _ _ Ha Hk Hi) as Hki.
      destruct (IH a k Hk) as (l & E & Hnd & Hl); [lia |].
      exists l. split; [exact E |]. split; [exact Hnd |]. intros y. rewrite Hl. split.
      + intros H. exists a. auto.
      + intros (a' & E' & H). injection E' as <-. exact H.
    - exists []. split; [destruct fuel; reflexivity |]. split; [constructor |].
      intros y. split; [intros H; inversion H | intros (a & E & _); discriminate]. }
  assert (Hlowp : ∀ a, low nd = Some a → parent_of h a = Some x).
  { intros a E. apply Hchild. left. unfold low_of. rewrite End. exact E. }
  assert (Hhighp : ∀ a, high nd = Some a → parent_of h a = Some x).
  { intros a E. apply Hchild. right. unfold high_of. rewrite End. exact E. }
  destruct (Hsub (low nd) Hlowp) as (ll & El & Hndl & Hll).
  destruct (Hsub (high nd) Hhighp) as (lh & Eh & Hndh & Hlh).
  exists (ll ++ lh ++ [x]). split; [| split].
  - cbn [HFfreeLoop]. rewrite End. cbn [mbind option_bind]. rewrite El.
    cbn [mbind option_bind]. rewrite Eh. reflexivity.
  - apply NoDup_app. split; [exact Hndl |]. split.
    + intros y Hyl Hyr. apply Hll in Hyl as (a & Ea & Hay).
      apply elem_of_app in Hyr as [Hyh | Hyx].
      * apply Hlh in Hyh as (b & Eb & Hby).
        apply (subtrees_apart x a b y (Hlowp a Ea) (Hhighp b Eb)); [| exact Hay | exact Hby].
        intros ->. apply (Hdistinct x b); [unfold low_of | unfold high_of];
          rewrite End; assumption.
      * apply list_elem_of_singleton in Hyx as ->.
        apply (child_not_above x a (Hlowp a Ea) Hay).
    + apply NoDup_app. split; [exact Hndh |]. split; [| apply NoDup_singleton].
      intros y Hyh Hyx. apply Hlh in Hyh as (b & Eb & Hby).
      apply list_elem_of_singleton in Hyx as ->.
      apply (child_not_above x b (Hhighp b Eb) Hby).
  - intros y. rewrite !elem_of_app, list_elem_of_singleton, Hll, Hlh. split.
    + intros [(a & Ea & Hay) | [(b & Eb & Hby) | ->]].
      * apply (below_child h x a y (Hlowp a Ea) Hay).
      * apply (below_child h x b y (Hhighp b Eb) Hby).
      * apply below_refl.
    + intros H. destruct (below_top h x y H) as [-> | (a & Ha & Hay)]; [auto |].
      destruct (Hparent a x Ha) as [E | E].
      * left. exists a. split; [| exact Hay]. unfold low_of in E. rewrite End in E. exact E.
      * right. left. exists a. split; [| exact Hay].
        unfold high_of in E. rewrite End in E. exact E.
Qed.

(** Every node is below the root. *)
Lemma all_below_root (k : nat) :
  ∀ y j, bl !! j = Some y → length bl - j ≤ k → below h r y.
Proof using All.
  induction k as [| k IH]; intros y j Hj Hk.
  { apply lookup_lt_Some in Hj. lia. }
  assert (Hyv : y < length h) by (apply (ord_all _ _ Hord); eapply list_elem_of_lookup_2, Hj).
  destruct (parent_of h y) as [p |] eqn:Ep.
  - assert (Hpin : p ∈ bl) by (apply (ord_all _ _ Hord), (teardown_parent_valid y p Ep)).
    apply list_elem_of_lookup in Hpin as [i Hi].
    pose proof (ord_parent_later _ _ Hord _ _ _ _ Ep Hj Hi).
    apply (below_step h r y p Ep). apply (IH p i Hi). lia.
  - apply (Hroot y Hyv) in Ep as ->. apply below_refl.
Qed.

(** [HFfreeLoop] at the root deletes every node of the tree once. *)
Lemma HFfreeLoop_all :
  ∃ l, HFfreeLoop (length h) h (Some r) = Some l ∧ l ≡ₚ seq 0 (length h).
Proof using All.
  assert (Hrin : r ∈ bl) by (apply (ord_all _ _ Hord), Hroot_valid).
  apply list_elem_of_lookup in Hrin as [i Hi].
  destruct (HFfreeLoop_subtree (length h) r i Hi) as (l & E & Hnd & Hl).
  { rewrite <- (order_length _ _ Hord). apply lookup_lt_Some in Hi. exact Hi. }
  exists l. split; [exact E |].
  apply NoDup_Permutation; [exact Hnd | apply NoDup_seq |].
  intros y. rewrite Hl, elem_of_seq. split.
  - intros H. pose proof (below_valid r y Hroot_valid H). lia.
  - intros [_ Hy]. simpl in Hy. apply (ord_all _ _ Hord) in Hy.
    apply list_elem_of_lookup in Hy as [j Hj].
    apply (all_below_root (length bl) y j Hj). lia.
Qed.

End Teardown.

(** ** The statistics *)

Lemma to_long_congr (p : CInts) (x y : Z) :
  (x mod 2 ^ long_bits p = y mod 2 ^ long_bits p)%Z → to_long p x = to_long p y.
Proof. intros E. unfold to_long. rewrite E. reflexivity. Qed.

Lemma to_ulong_to_long (p : CInts) (z : Z) :
  (0 < long_bits p)%Z → to_ulong p (to_long p z) = to_ulong p z.
Proof.
  intros Hw. unfold to_ulong, to_long.
  assert (HM : (0 < 2 ^ long_bits p)%Z) by (apply Z.pow_pos_nonneg; lia).
  destruct (_ <? _)%Z.
  - apply Z.mod_mod. lia.
  - replace (z mod 2 ^ long_bits p - 2 ^ long_bits p)%Z
      with (z mod 2 ^ long_bits p + (-1) * 2 ^ long_bits p)%Z by lia.
    rewrite Z.mod_add by lia. apply Z.mod_mod. lia.
Qed.

(** A sum taken in [unsigned long] and stored in a [long]. *)
Lemma to_long_add (p : CInts) (a b : Z) :
  (0 < long_bits p)%Z →
  to_long p (to_ulong p (to_long p a) + to_ulong p b) = to_long p (a + b).
Proof.
  intros Hw. apply to_long_congr. rewrite (to_ulong_to_long p a Hw). unfold to_ulong.
  rewrite <- Z.add_mod by (apply Z.pow_nonzero; lia). reflexivity.
Qed.

Lemma to_long_leaf (p : CInts) (sum f lv : Z) :
  (0 < long_bits p)%Z →
  to_long p (to_ulong p sum + to_ulong p (to_ulong p f * to_ulong p lv))
  = to_long p (sum + f * lv).
Proof.
  intros Hw. apply to_long_congr. unfold to_ulong.
  assert (HM : (2 ^ long_bits p ≠ 0)%Z) by (apply Z.pow_nonzero; lia).
  rewrite <- Z.mul_mod by exact HM. rewrite <- Z.add_mod by exact HM. reflexivity.
Qed.

Lemma to_long_small (p : CInts) (z : Z) :
  (0 < long_bits p)%Z → (0 ≤ z < 2 ^ (long_bits p - 1))%Z → to_long p z = z.
Proof.
  intros Hw Hz. unfold to_long.
  assert (Hle : (2 ^ (long_bits p - 1) ≤ 2 ^ long_bits p)%Z)
    by (apply Z.pow_le_mono_r; lia).
  rewrite Z.mod_small by lia.
  destruct (Z.ltb_spec z (2 ^ (long_bits p - 1))); [reflexivity | lia].
Qed.

Lemma HFwriteCode_rec_more (fuel : nat) (h : Heap) (bs : BitStream) :
  ∀ x code, HFwriteCode_rec fuel h bs x = Some code →
    ∀ fuel', fuel ≤ fuel' → HFwriteCode_rec fuel' h bs x = Some code.
Proof.
  induction fuel as [| fuel IH]; intros x code H fuel' Hle; [discriminate |].
  destruct fuel' as [| fuel']; [lia |]. cbn [HFwriteCode_rec] in *.
  destruct (h !! x) as [nd |]; [| discriminate]. cbn [mbind option_bind] in *.
  destruct (parent nd) as [q |]; [| exact H].
  apply bind_Some in H as (fp' & Hq & H). rewrite (IH q fp' Hq fuel') by lia.
  exact H.
Qed.

Lemma path_weights_app (h : Heap) (l l' : list nat) :
  path_weights h (l ++ l') = (path_weights h l + path_weights h l')%Z.
Proof. induction l as [| x l IH]; simpl; [reflexivity | rewrite IH; lia]. Qed.

Lemma path_weights_perm (h : Heap) (l l' : list nat) :
  l ≡ₚ l' → path_weights h l = path_weights h l'.
Proof. induction 1; simpl; lia. Qed.

Lemma path_weights_nonneg (h : Heap) (l : list nat) : (0 ≤ path_weights h l)%Z.
Proof.
  induction l as [| x l IH]; simpl; [lia |].
  assert (0 ≤ path_weight h x)%Z; [| lia].
  unfold path_weight, code_length.
  destruct (low_of h x), (high_of h x); try lia.
  destruct (HFwriteCode_rec (length h) h [] x); lia.
Qed.

Section Stats.

Variables (p : CInts) (h : Heap) (bl : BList) (r : nat).

Hypothesis Hbits : (0 < long_bits p)%Z.
Hypothesis Htree : tree_ok h r.
Hypothesis Hord : order_ok h bl.

Lemma code_length_root : code_length h r = 0%Z.
Proof using All.
  unfold code_length. pose proof (ok_root_valid _ _ Htree) as Hr.
  pose proof (proj2 (ok_root _ _ Htree r Hr) eq_refl) as Hp.
  destruct (length h) as [| f] eqn:El; [lia |].
  cbn [HFwriteCode_rec]. unfold parent_of in Hp.
  destruct (h !! r) as [nd |] eqn:End; [| reflexivity]. cbn [mbind option_bind].
  rewrite Hp. reflexivity.
Qed.

(** The code of a node is one bit longer than the code of its parent. *)
Lemma code_length_child (a x : nat) :
  parent_of h a = Some x → code_length h a = (code_length h x + 1)%Z.
Proof using All.
  intros Ha.
  pose proof (parent_of_valid _ _ _ Ha) as Hav.
  pose proof (tree_ok_parent_valid _ _ _ _ Htree Ha) as Hxv.
  assert (Hain : a ∈ bl) by (apply (ord_all _ _ Hord), Hav).
  assert (Hxin : x ∈ bl) by (apply (ord_all _ _ Hord), Hxv).
  apply list_elem_of_lookup in Hain as [k Hk]. apply list_elem_of_lookup in Hxin as [i Hi].
  pose proof (ord_parent_later _ _ Hord _ _ _ _ Ha Hk Hi) as Hki.
  pose proof (order_length _ _ Hord) as Hlen.
  pose proof Hxv as Hxv'. apply lookup_lt_is_Some in Hxv' as [pn Epn].
  destruct (length h) as [| f] eqn:El; [lia |].
  destruct (HFwriteCode_descend h bl r Htree Hord f x i Hi) as (cx & Hcx & _); [lia |].
  unfold code_length. rewrite El.
  rewrite (HFwriteCode_rec_more f h [] x _ (Hcx []) (S f)) by lia.
  cbn [HFwriteCode_rec]. unfold parent_of in Ha.
  destruct (h !! a) as [nd |] eqn:End; [| discriminate]. cbn [mbind option_bind].
  rewrite Ha. rewrite (Hcx []). cbn [mbind option_bind].
  rewrite Epn. cbn [mbind option_bind]. unfold BSwriteBit.
  rewrite !length_app. simpl. lia.
Qed.

(** [HFstats] at a node adds the weights of the leaves below it, each times
    the length of its code, provided [level] is the length of the code of
    the node; the node without parent prints the quotient. *)
Lemma HFstats_rec_subtree (fuel : nat) :
  ∀ x i level sum l,
    bl !! i = Some x → i < fuel →
    HFfreeLoop fuel h (Some x) = Some l →
    code_length h x = level → (level + Z.of_nat i ≤ int_max p)%Z →
    HFstats_rec p fuel h (Some x) level (to_long p sum)
    = let total := to_long p (sum + path_weights h l) in
      match parent_of h x with
      | Some _ => Some (total, [])
      | None =>
          if (to_ulong p (Z.of_N (weight h x)) =? 0)%Z then None
          else Some (total, [to_long p (to_ulong p total / to_ulong p (Z.of_N (weight h x)))])
      end.
Proof using All.
  induction fuel as [| fuel IH]; intros x i level sum l Hi Hfuel Hfree Hlevel Hint; [lia |].
  assert (Hxv : x < length h) by (apply (ord_all _ _ Hord); eapply list_elem_of_lookup_2, Hi).
  apply lookup_lt_is_Some in Hxv as [nd End].
  cbn [HFfreeLoop] in Hfree. rewrite End in Hfree. cbn [mbind option_bind] in Hfree.
  apply bind_Some in Hfree as (ll & Ell & Hfree).
  apply bind_Some in Hfree as (lh & Elh & Hfree). injection Hfree as <-.
  cbn [HFstats_rec]. rewrite End. cbn [mbind option_bind]. cbv zeta.
  assert (Ew : weight h x = frequency nd) by (unfold weight; rewrite End; reflexivity).
  assert (Ep : parent_of h x = parent nd) by (unfold parent_of; rewrite End; reflexivity).
  assert (El : low_of h x = low nd) by (unfold low_of; rewrite End; reflexivity).
  assert (Eh : high_of h x = high nd) by (unfold high_of; rewrite End; reflexivity).
  assert (Hbody :
    (if ptr_eqb (low nd) None && ptr_eqb (high nd) None then
       Some (to_long p (to_ulong p (to_long p sum)
                        + to_ulong p (to_ulong p (Z.of_N (frequency nd))
                                      * to_ulong p level)), [])
     else if (level <? int_max p)%Z then
       '(s1, o1) ← HFstats_rec p fuel h (low nd) (level + 1) (to_long p sum);
       '(s2, o2) ← HFstats_rec p fuel h (high nd) (level + 1) s1;
       Some (s2, o1 ++ o2)
     else None)
    = Some (to_long p (sum + path_weights h (ll ++ lh ++ [x])), @nil Z)).
  { destruct (low nd) as [a |] eqn:Ea.
    - assert (Hhb : high nd ≠ None).
      { intros E. rewrite E in Eh. apply (ok_binary _ _ Htree) in Eh. congruence. }
      destruct (high nd) as [b |] eqn:Eb; [| congruence]. cbn [ptr_eqb andb].
      assert (Hpa : parent_of h a = Some x) by (apply (ok_child _ _ Htree); auto).
      assert (Hpb : parent_of h b = Some x) by (apply (ok_child _ _ Htree); auto).
      assert (Hain : a ∈ bl) by (apply (ord_all _ _ Hord), (parent_of_valid _ _ _ Hpa)).
      assert (Hbin : b ∈ bl) by (apply (ord_all _ _ Hord), (parent_of_valid _ _ _ Hpb)).
      apply list_elem_of_lookup in Hain as [ka Hka].
      apply list_elem_of_lookup in Hbin as [kb Hkb].
      pose proof (ord_parent_later _ _ Hord _ _ _ _ Hpa Hka Hi) as Hkai.
      pose proof (ord_parent_later _ _ Hord _ _ _ _ Hpb Hkb Hi) as Hkbi.
      destruct (Z.ltb_spec level (int_max p)) as [_ | Hge]; [| lia].
      rewrite (IH a ka (level + 1)%Z sum ll Hka) ;
        [| lia | exact Ell | rewrite (code_length_child a x Hpa); lia | lia].
      rewrite Hpa. cbv zeta. cbn [mbind option_bind].
      rewrite (IH b kb (level + 1)%Z (sum + path_weights h ll)%Z lh Hkb);
        [| lia | exact Elh | rewrite (code_length_child b x Hpb); lia | lia].
      rewrite Hpb. cbv zeta. cbn [mbind option_bind]. simpl app.
      assert (Hx0 : path_weight h x = 0%Z) by (unfold path_weight; rewrite El; reflexivity).
      rewrite !path_weights_app. simpl. rewrite Hx0. do 3 f_equal. lia.
    - assert (Ehn : high nd = None).
      { rewrite <- Eh. apply (ok_binary _ _ Htree). exact El. }
      rewrite Ehn in *. cbn [ptr_eqb andb].
      assert (ll = [] ∧ lh = []) as [-> ->].
      { destruct fuel; simpl in Ell, Elh; split; congruence. }
      rewrite (to_ulong_to_long p sum Hbits), to_long_leaf by exact Hbits.
      simpl. unfold path_weight. rewrite El, Eh, Ew, Hlevel. do 3 f_equal. lia. }
  rewrite Hbody. cbn [mbind option_bind]. rewrite Ep, Ew.
  destruct (parent nd); reflexivity.
Qed.

End Stats.

(** ** The functions one by one *)

Lemma heap_ext (h h' : Heap) :
  length h' = length h →
  (∀ q, low_of h' q = low_of h q) → (∀ q, high_of h' q = high_of h q) →
  (∀ q, parent_of h' q = parent_of h q) → (∀ q, weight h' q = weight h q) →
  (∀ q, term_of h' q = term_of h q) →
  h' = h.
Proof.
  intros Hlen Hl Hh Hp Hw Ht. apply list_eq. intros q.
  specialize (Hl q). specialize (Hh q). specialize (Hp q). specialize (Hw q).
  specialize (Ht q). unfold low_of, high_of, parent_of, weight, term_of in *.
  destruct (h' !! q) as [[a b c d e] |] eqn:E', (h !! q) as [[a0 b0 c0 d0 e0] |] eqn:E;
    simpl in *; try congruence.
Qed.

Lemma linked_false (h : Heap) (a b : nat) :
  linked h a b = Some false →
  a < length h ∧ b < length h ∧ parent_of h a ≠ Some b ∧ parent_of h b ≠ Some a.
Proof.
  unfold linked, parent_of. intros (an & Ea & H)%bind_Some. rewrite Ea.
  destruct (ptr_eqb (parent an) (Some b)) eqn:E1; [discriminate |].
  apply bind_Some in H as (bn & Eb & H). rewrite Eb. injection H as E2.
  split; [eapply lookup_lt_Some, Ea |]. split; [eapply lookup_lt_Some, Eb |].
  split; intros E; [rewrite E, ptr_eqb_refl in E1 | rewrite E, ptr_eqb_refl in E2];
    discriminate.
Qed.

Lemma linked_to_prelast_false (h : Heap) (c p : nat) :
  linked_to_prelast h c (Some p) = Some false →
  c < length h ∧ p < length h ∧ parent_of h c ≠ Some p ∧ parent_of h p ≠ Some c.
Proof.
  unfold linked_to_prelast, parent_of. intros (cn & Ec & H)%bind_Some. rewrite Ec.
  destruct (ptr_eqb (parent cn) (Some p)) eqn:E1; [discriminate |].
  apply bind_Some in H as (pn & Ep & H). rewrite Ep. injection H as E2.
  split; [eapply lookup_lt_Some, Ec |]. split; [eapply lookup_lt_Some, Ep |].
  split; intros E; [rewrite E, ptr_eqb_refl in E1 | rewrite E, ptr_eqb_refl in E2];
    discriminate.
Qed.

(** A tree whose nodes [c] and [s] were exchanged, parents included, has
    its links in agreement if the tree it comes from had. *)
Lemma exchanged_tree_ok (h h' : Heap) (r c s : nat) :
  tree_ok h r → c < length h → s < length h →
  length h' = length h →
  (∀ q, low_of h' q = exchange c s <$> low_of h q) →
  (∀ q, high_of h' q = exchange c s <$> high_of h q) →
  (∀ q, parent_of h' q =
        if decide (q = c) then parent_of h s
        else if decide (q = s) then parent_of h c else parent_of h q) →
  tree_ok h' (exchange c s r).
Proof.
  intros Htree Hcv Hsv Hlen Hlow Hhigh Hpar.
  assert (Hp : ∀ q, parent_of h' q = parent_of h (exchange c s q)).
  { intros q. rewrite Hpar.
    destruct (exchange_cases c s q) as [[-> ->] | [[-> ->] | (Hc & Hs & ->)]].
    - rewrite decide_True by reflexivity. reflexivity.
    - destruct (decide (s = c)) as [-> | Hne]; [reflexivity |].
      rewrite decide_True by reflexivity. reflexivity.
    - rewrite !decide_False by assumption. reflexivity. }
  split.
  - rewrite Hlen. pose proof (ok_root_valid _ _ Htree).
    destruct (exchange_cases c s r) as [[_ ->] | [[_ ->] | (_ & _ & ->)]]; assumption.
  - intros n Hn. rewrite Hp. rewrite Hlen in Hn.
    assert (Hv : exchange c s n < length h).
    { destruct (exchange_cases c s n) as [[_ ->] | [[_ ->] | (_ & _ & ->)]];
        assumption. }
    rewrite (ok_root _ _ Htree _ Hv). split; intros E.
    + rewrite <- E. rewrite exchange_involutive. reflexivity.
    + rewrite E. apply exchange_involutive.
  - intros n p. rewrite Hp, Hlow, Hhigh. intros E.
    destruct (ok_parent _ _ Htree _ _ E) as [-> | ->]; simpl;
      rewrite exchange_involutive; auto.
  - intros p x. rewrite Hp, Hlow, Hhigh. intros Hx.
    apply (ok_child _ _ Htree).
    destruct Hx as [Hx | Hx]; [left | right];
      (destruct (_ h p) as [y |]; simpl in Hx; [| discriminate]);
      injection Hx as <-; rewrite exchange_involutive; reflexivity.
  - intros n. rewrite Hlow, Hhigh.
    pose proof (ok_binary _ _ Htree n) as Hb.
    destruct (low_of h n), (high_of h n); simpl; split; intros E;
      try discriminate; try reflexivity; exfalso; destruct Hb as [Hb1 Hb2];
      (discriminate (Hb1 eq_refl) || discriminate (Hb2 eq_refl)).
  - intros n a. rewrite Hlow, Hhigh. intros Hl Hh.
    destruct (low_of h n) as [x |] eqn:Ex; simpl in Hl; [| discriminate].
    destruct (high_of h n) as [y |] eqn:Ey; simpl in Hh; [| discriminate].
    injection Hl as <-. injection Hh as Hh. apply (inj (exchange c s)) in Hh as ->.
    apply (ok_distinct _ _ Htree n x Ex Ey).
Qed.

Section Functions.

Variable lz : LiteralCoder.





(** [HFswap] done twice on a well-formed tree gives the tree back. *)
Lemma HFswap_twice_spec (tree : HFtree lz) (r c s : nat) :
  codes tree = Some r → tree_ok (heap tree) r →
  c < length (heap tree) → s < length (heap tree) → c ≠ s →
  ∃ tree', HFswap lz tree c s = Some tree'
           ∧ tree_ok (heap tree') (exchange c s r)
           ∧ HFswap lz tree' c s = Some tree.
Proof.
  intros Hc Hok Hcv Hsv Hne.
  destruct (HFswap_spec lz tree r c s Hc Hok Hcv Hsv Hne)
    as (tree' & E & C' & T' & Tb' & B' & Bf' & Len' & L' & H' & P' & W' & Tm').
  pose proof (exchanged_tree_ok _ _ r c s Hok Hcv Hsv Len' L' H' P') as Hok'.
  exists tree'. split; [exact E |]. split; [exact Hok' |].
  destruct (HFswap_spec lz tree' (exchange c s r) c s C' Hok')
    as (tree'' & E2 & C2 & T2 & Tb2 & B2 & Bf2 & Len2 & L2 & H2 & P2 & W2 & Tm2);
    [lia | lia | exact Hne |].
  rewrite E2. f_equal.
  assert (Hheap : heap tree'' = heap tree).
  { apply heap_ext.
    - lia.
    - intros q. rewrite L2, L'. destruct (low_of (heap tree) q); simpl; [| reflexivity].
      rewrite exchange_involutive. reflexivity.
    - intros q. rewrite H2, H'. destruct (high_of (heap tree) q); simpl; [| reflexivity].
      rewrite exchange_involutive. reflexivity.
    - intros q. rewrite P2, !P'.
      rewrite (decide_True (P := c = c)) by reflexivity.
      rewrite (decide_False (P := s = c)) by congruence.
      rewrite (decide_True (P := s = s)) by reflexivity.
      destruct (decide (q = c)) as [-> | Hqc]; [reflexivity |].
      destruct (decide (q = s)) as [-> | Hqs]; reflexivity.
    - intros q. rewrite W2, W'. reflexivity.
    - intros q. rewrite Tm2, Tm'. reflexivity. }
  rewrite exchange_involutive in C2.
  destruct tree as [h0 c0 t0 tb0 b0 bf0], tree'' as [h2 c2 t2 tb2 b2 bf2]. simpl in *.
  congruence.
Qed.

End Functions.

(** ** Further properties of the engine *)

Section StreamFacts.

Variable lz : LiteralCoder.



(** X3: the tree has two nodes for every different term of the stream and
    one more; the fresh tree has its two nodes. *)
Theorem two_nodes_per_term (syms : list symbol) :
  Forall (ordinary lz) syms →
  ∃ bits tree,
    encode_all lz [] (HFinit lz []) syms = Some (bits, tree)
    ∧ length (heap tree) = Nat.max 2 (2 * distinct_terms syms + 1).
Proof.
  intros Hall. destruct (history_of_stream lz syms Hall) as (bits & tree & E & Hh & _).
  exists bits, tree. split; [exact E | apply Hh].
Qed.

(** X4: an encoder returns 0 for the first occurrence of a symbol and 1 for
    every later one; it allocates nodes for a first occurrence only, two of
    them, or one when the tree is fresh. *)
Theorem encoder_tells_first_occurrence (syms : list symbol) (s : symbol) :
  Forall (ordinary lz) syms → ordinary lz s →
  ∃ bits tree bits' tree',
    encode_all lz [] (HFinit lz []) syms = Some (bits, tree)
    ∧ HFencode lz bits tree s
      = Some (if Nat.eqb (occurrences (term_of_symbol s) syms) 0 then 0%Z else 1%Z,
              bits ++ bits', tree')
    ∧ length (heap tree')
      = length (heap tree)
        + (if Nat.eqb (occurrences (term_of_symbol s) syms) 0
           then (if Nat.eqb (length syms) 0 then 1 else 2) else 0).
Proof.
  intros Hall Hs.
  destruct (history_of_stream lz syms Hall) as (bits & tree & E & Hh & Hcase).
  destruct Hcase as [[-> ->] | [Hne Hok]].
  - destruct (history_first lz s [] Hs) as (bits' & tree' & E' & _ & _ & Hlen).
    exists [], (HFinit lz []), bits', tree'. simpl in E. injection E as <-.
    split; [reflexivity |]. split; [exact E' | exact Hlen].
  - destruct (history_step lz tree syms s bits Hok Hh Hs) as (bits' & tree' & E' & _ & _ & Hlen).
    exists bits, tree, bits', tree'. split; [exact E |]. split; [exact E' |].
    rewrite Hlen. destruct syms; [congruence | reflexivity].
Qed.


(** X6: the table and the leaves agree. A term the table knows is bound to
    a leaf other than the escape leaf, and that leaf holds the term; every
    leaf other than the escape leaf is the leaf of a term the table knows;
    no two terms share a leaf. *)
Theorem table_is_the_leaves (syms : list symbol) :
  Forall (ordinary lz) syms →
  ∃ bits tree e,
    encode_all lz [] (HFinit lz []) syms = Some (bits, tree)
    ∧ top tree = Some e
    ∧ (∀ t n, known_leaf lz tree t = Some n →
              n ≠ e ∧ low_of (heap tree) n = None ∧ high_of (heap tree) n = None
              ∧ term_of (heap tree) n = Some t)
    ∧ (∀ q, q < length (heap tree) → low_of (heap tree) q = None →
            q = e ∨ ∃ t, known_leaf lz tree t = Some q)
    ∧ (∀ t1 t2 n, known_leaf lz tree t1 = Some n → known_leaf lz tree t2 = Some n →
                  t1 = t2).
Proof.
  intros Hall. destruct (history_of_stream lz syms Hall) as (bits & tree & E & Hh & Hcase).
  destruct Hh as (_ & _ & _ & Hleaves).
  destruct Hcase as [[-> ->] | [_ (r & e & _ & Ht & _ & _ & _ & _ & Htbl & _)]].
  - exists [], (HFinit lz []), 1. split; [reflexivity |]. split; [reflexivity |].
    split; [intros t n H; discriminate |]. split; [| intros t1 t2 n H; discriminate].
    intros q Hq Hl. destruct (Hleaves q Hq Hl) as [H | H]; [| right; exact H].
    left. simpl in H. congruence.
  - exists bits, tree, e. split; [exact E |]. split; [exact Ht |].
    destruct Htbl as (_ & _ & _ & Hte & Hent). split; [| split].
    + intros t n Hk. destruct (Hent t n Hk) as (Hl & Hh & Htm & Hne).
      split; [| auto]. intros ->. congruence.
    + intros q Hq Hl. destruct (Hleaves q Hq Hl) as [H | H]; [| right; exact H].
      left. congruence.
    + intros t1 t2 n H1 H2. destruct (Hent t1 n H1) as (_ & _ & Hm1 & _).
      destruct (Hent t2 n H2) as (_ & _ & Hm2 & _). congruence.
Qed.

(** X7: the code [HFwriteCode] writes for a leaf is appended to the stream
    whatever the stream holds, and it leads the descent of the decoders
    from the root to that leaf, whatever follows it, which is left in the
    stream. *)
Theorem code_leads_to_leaf (syms : list symbol) :
  Forall (ordinary lz) syms →
  ∃ bits tree,
    encode_all lz [] (HFinit lz []) syms = Some (bits, tree)
    ∧ ∀ x, x < length (heap tree) → low_of (heap tree) x = None →
        ∃ code nd,
          heap tree !! x = Some nd
          ∧ (∀ bs, HFwriteCode lz tree bs x = Some (bs ++ code))
          ∧ (∀ rest, descend (heap tree) (code ++ rest) (codes tree)
                     = Some (walk_leaf x nd rest))
          ∧ (∀ rest t0, HFdecodeATerm lz (code ++ rest) tree t0
                        = decode_leaf_ATerm lz rest tree x nd)
          ∧ (∀ rest i0, HFdecodeIndex lz (code ++ rest) tree i0
                        = decode_leaf_Index lz rest tree x nd i0).
Proof.
  intros Hall. destruct (history_of_stream lz syms Hall) as (bits & tree & E & _ & Hcase).
  exists bits, tree. split; [exact E |]. intros x Hx Hl.
  assert (H : ∃ code nd, heap tree !! x = Some nd
            ∧ (∀ bs, HFwriteCode lz tree bs x = Some (bs ++ code))
            ∧ ∀ rest, descend (heap tree) (code ++ rest) (codes tree)
                      = Some (walk_leaf x nd rest)).
  { destruct Hcase as [[-> ->] | [_ Hok]].
    - destruct x as [| [| x]]; simpl in *; [discriminate | | lia].
      exists [false], (mk_HFnode None None (Some 0) 0%N ESCAPE_SEQUENCE).
      split; [reflexivity |]. split; [intros bs; reflexivity |].
      intros rest. apply (descend_fresh lz [] rest).
    - pose proof Hok as (r & e & Hc & _).
      destruct (code_of_leaf lz tree None r x Hok Hc Hx Hl)
        as (code & nd & End & _ & Hcode & Hdesc).
      exists code, nd. auto. }
  destruct H as (code & nd & End & Hcode & Hdesc). exists code, nd.
  split; [exact End |]. split; [exact Hcode |]. split; [exact Hdesc |]. split.
  - intros rest t0. apply (HFdecodeATerm_at_leaf lz _ _ _ _ _ _ (Hdesc rest)).
  - intros rest i0. apply (HFdecodeIndex_at_leaf lz _ _ _ _ _ _ (Hdesc rest)).
Qed.

(** X8: the codes are prefix-free: the code of a leaf never begins with the
    code of another leaf. *)
Theorem codes_are_prefix_free (syms : list symbol) :
  Forall (ordinary lz) syms →
  ∃ bits tree,
    encode_all lz [] (HFinit lz []) syms = Some (bits, tree)
    ∧ ∀ x y cx cy,
        x < length (heap tree) → y < length (heap tree) →
        low_of (heap tree) x = None → low_of (heap tree) y = None → x ≠ y →
        HFwriteCode lz tree [] x = Some cx → HFwriteCode lz tree [] y = Some cy →
        ∀ ext, cy ≠ cx ++ ext.
Proof.
  intros Hall. destruct (history_of_stream lz syms Hall) as (bits & tree & E & _ & Hcase).
  exists bits, tree. split; [exact E |].
  intros x y cx cy Hx Hy Hxl Hyl Hxy Ex Ey.
  destruct Hcase as [[-> ->] | [_ Hok]].
  - destruct x as [| [| x]], y as [| [| y]]; simpl in *; try discriminate; lia.
  - apply (codes_prefix_free_ok lz tree x y cx cy Hok); assumption.
Qed.

(** X10: once a symbol went through the engine, the descent of the decoders
    ends at a leaf, after the bits of a code, or with the stream; it never
    comes to a null child. *)
Theorem descent_never_null (syms : list symbol) :
  Forall (ordinary lz) syms → syms ≠ [] →
  ∃ bits tree,
    encode_all lz [] (HFinit lz []) syms = Some (bits, tree)
    ∧ ∀ fp,
        (∃ c nd code fp',
           fp = code ++ fp' ∧ heap tree !! c = Some nd ∧ is_leaf nd = true
           ∧ descend (heap tree) fp (codes tree) = Some (walk_leaf c nd fp'))
        ∨ descend (heap tree) fp (codes tree) = Some walk_exhausted.
Proof.
  intros Hall Hne. destruct (history_of_stream lz syms Hall) as (bits & tree & E & _ & Hcase).
  exists bits, tree. split; [exact E |]. intros fp.
  destruct Hcase as [[-> _] | [_ (r & e & Hc & _ & Htree & _)]]; [congruence |].
  rewrite Hc.
  destruct (descend_total (heap tree) r Htree fp r (ok_root_valid _ _ Htree))
    as [(c & nd & code & fp' & Ed & Ec & El & Efp) | Ed]; [left | right; exact Ed].
  exists c, nd, code, fp'. auto.
Qed.

(** X11: the round trip with the sentinels. Every stream of symbols other
    than the escape marker is encoded, null terms as the sentinel, and
    leaves the sibling order in its shape; the decoder answers every symbol
    in its place, a sentinel or a null term with 0 and a null term, the
    index [NO_INT] with 0 and that index, any other symbol with 1 and the
    symbol, goes on after a sentinel, leaves what follows in the stream and
    ends with the tree of the encoder, given a literal coder that reads
    back what is written. *)
Theorem round_trip_through_sentinels (syms : list symbol) (rest : BitStream) :
  Forall sendable syms →
  ∃ bits tree,
    encode_all lz [] (HFinit lz []) syms = Some (bits, tree)
    ∧ sibling_order_ok tree
    ∧ (Forall (λ s, reads_back lz (literal_of s)) syms →
       decode_all lz (bits ++ rest) (HFinit lz []) (map variant_of syms)
       = Some (map (received lz) syms, tree, rest)).
Proof.
  intros Hall. destruct syms as [| s syms].
  - exists [], (HFinit lz []). split; [reflexivity |].
    split; [apply HFinit_sibling_order |]. intros _. reflexivity.
  - apply Forall_cons in Hall as [Hs Hall].
    destruct (any_first_step lz s [] Hs) as (bits1 & tree1 & E1 & Hok1 & D1).
    destruct (any_stream_from lz syms tree1 ([] ++ bits1) Hok1 Hall)
      as (bits2 & tree2 & E2 & Hok2 & D2).
    exists (bits1 ++ bits2), tree2. split; [| split].
    + cbn [encode_all]. rewrite E1. cbn [mbind option_bind]. rewrite E2. reflexivity.
    + apply engine_ok_sibling_order, Hok2.
    + intros Hrb. apply Forall_cons in Hrb as [Hr Hrb].
      cbn [decode_all map]. rewrite <- app_assoc, (D1 Hr). cbn [mbind option_bind].
      cbn [d_rest d_tree d_ret d_out]. rewrite (D2 Hrb).
      destruct (received lz s). reflexivity.
Qed.

(** X12: the teardown deletes every node of the tree exactly once: the
    nodes [HFfreeLoop] deletes from the root, as [HFfree] has it do, are the
    nodes of the arena, in some order, and the recursion ends. *)
Theorem teardown_frees_every_node_once (syms : list symbol) :
  Forall (ordinary lz) syms →
  ∃ bits tree freed,
    encode_all lz [] (HFinit lz []) syms = Some (bits, tree)
    ∧ HFfree tree = Some freed
    ∧ freed ≡ₚ seq 0 (length (heap tree)).
Proof.
  intros Hall. destruct (history_of_stream lz syms Hall) as (bits & tree & E & _ & Hcase).
  destruct Hcase as [[-> ->] | [_ (r & e & Hc & _ & Htree & Hord & _)]].
  - exists [], (HFinit lz []), [1; 0]. split; [reflexivity |]. split; [reflexivity |].
    simpl. apply perm_swap.
  - destruct (HFfreeLoop_all (heap tree) (blockList tree) r
                (ok_root_valid _ _ Htree) (ok_root _ _ Htree) (ok_parent _ _ Htree)
                (ok_child _ _ Htree) (ok_distinct _ _ Htree) Hord) as (l & El & Hl).
    exists bits, tree, l. split; [exact E |]. split; [| exact Hl].
    unfold HFfree. rewrite Hc. exact El.
Qed.

(** X20: the statistics. Once symbols went through the engine, [HFstats]
    at the root, with level 0 and sum 0, leaves in the sum the weights of
    the leaves, each times the length of its code, and prints that sum
    divided by the number of symbols encoded: the average length of a code.
    This holds as long as the sum fits a [long] and the depth an [int]. On
    a tree no symbol went through the root weighs 0 and the division has no
    defined result. *)
Theorem HFstats_reports_average (p : CInts) (syms : list symbol) :
  Forall (ordinary lz) syms → (0 < long_bits p)%Z →
  ∃ bits tree,
    encode_all lz [] (HFinit lz []) syms = Some (bits, tree)
    ∧ (syms = [] → ∀ level sum, HFstats p tree (codes tree) level sum = None)
    ∧ (syms ≠ [] →
       (Z.of_nat (length (heap tree)) ≤ int_max p)%Z →
       (weighted_path_length tree < 2 ^ (long_bits p - 1))%Z →
       (Z.of_nat (length syms) < 2 ^ long_bits p)%Z →
       HFstats p tree (codes tree) 0 0
       = Some (weighted_path_length tree,
               [(weighted_path_length tree / Z.of_nat (length syms))%Z])).
Proof.
  intros Hall Hbits.
  destruct (history_of_stream lz syms Hall) as (bits & tree & E & Hh & Hcase).
  exists bits, tree. split; [exact E |].
  destruct Hcase as [[-> ->] | [Hne (r & e & Hc & _ & Htree & Hord & _)]].
  - split; [| congruence]. intros _ level sum. unfold HFstats. simpl.
    destruct (level <? int_max p)%Z; reflexivity.
  - split; [congruence |]. intros _ Hint Hsum Hn.
    destruct Hh as (_ & Hroot & _). pose proof (Hroot r Hc) as Hwr.
    destruct (HFfreeLoop_all (heap tree) (blockList tree) r
                (ok_root_valid _ _ Htree) (ok_root _ _ Htree) (ok_parent _ _ Htree)
                (ok_child _ _ Htree) (ok_distinct _ _ Htree) Hord) as (l & El & Hl).
    assert (Hrin : r ∈ blockList tree)
      by (apply (ord_all _ _ Hord), (ok_root_valid _ _ Htree)).
    apply list_elem_of_lookup in Hrin as [i Hi].
    pose proof (lookup_lt_Some _ _ _ Hi) as Hilt.
    rewrite (order_length _ _ Hord) in Hilt.
    assert (Hwpl : path_weights (heap tree) l = weighted_path_length tree)
      by apply (path_weights_perm _ _ _ Hl).
    pose proof (path_weights_nonneg (heap tree) l) as Hpos. rewrite Hwpl in Hpos.
    assert (Hlen : (0 < Z.of_nat (length syms))%Z) by (destruct syms; [congruence | simpl; lia]).
    assert (Hpow : (2 ^ (long_bits p - 1) ≤ 2 ^ long_bits p)%Z)
      by (apply Z.pow_le_mono_r; lia).
    unfold HFstats. rewrite Hc.
    rewrite <- (to_long_small p 0 Hbits) at 2
      by (split; [lia | apply Z.pow_pos_nonneg; lia]).
    rewrite (HFstats_rec_subtree p (heap tree) (blockList tree) r Hbits Htree Hord
               (length (heap tree)) r i 0%Z 0%Z l Hi Hilt El
               (code_length_root p (heap tree) (blockList tree) r Hbits Htree Hord));
      [| lia].
    cbv zeta.
    rewrite (proj2 (ok_root _ _ Htree r (ok_root_valid _ _ Htree)) eq_refl).
    rewrite Hwr, nat_N_Z, Z.add_0_l, Hwpl.
    rewrite (to_long_small p (weighted_path_length tree) Hbits) by lia.
    unfold to_ulong. rewrite !Z.mod_small by lia.
    destruct (Z.eqb_spec (Z.of_nat (length syms)) 0) as [E0 | _]; [lia |].
    rewrite to_long_small; [reflexivity | exact Hbits |].
    split; [apply Z.div_pos; lia |].
    apply Z.le_lt_trans with (weighted_path_length tree); [| lia].
    apply Z.div_le_upper_bound; [lia | nia].
Qed.

(** X21: the decoder of terms never gets stuck. Whatever the stream holds,
    any number of calls of [HFdecodeATerm] on a fresh engine return, each
    with its answer, without a null dereference and without a loop that
    does not end, and leave the sibling order in its shape, provided the
    literal coder never reads the escape marker. *)
Theorem HFdecodeATerm_never_stuck (n : nat) (fp : BitStream) :
  never_reads_escape lz →
  ∃ out tree' fp',
    decode_all lz fp (HFinit lz []) (replicate n as_term) = Some (out, tree', fp')
    ∧ length out = n ∧ sibling_order_ok tree'.
Proof.
  intros Hcoder.
  assert (Hfresh : engine_ok (HFinit lz []) None
                   ∨ ∃ buf, HFinit lz [] = with_buffer lz (HFinit lz []) buf).
  { right. exists (LZinit lz). reflexivity. }
  destruct (decode_terms_total lz Hcoder n fp (HFinit lz []) Hfresh)
    as (out & tree' & fp' & E & Hlen & Hfin).
  exists out, tree', fp'. split; [exact E |]. split; [exact Hlen |].
  destruct Hfin as [Hok | [buf ->]].
  - apply engine_ok_sibling_order, Hok.
  - apply (HFinit_sibling_order lz).
Qed.

(** X22: the decoder of indices never gets stuck either. Whatever the
    stream holds and whatever the literal coder reads, any number of calls
    of [HFdecodeIndex] on a fresh engine return, each with its answer, and
    leave the sibling order in its shape: every leaf the descent can reach
    holds the escape marker or an integer. *)
Theorem HFdecodeIndex_never_stuck (n : nat) (fp : BitStream) :
  ∃ out tree' fp',
    decode_all lz fp (HFinit lz []) (replicate n as_index) = Some (out, tree', fp')
    ∧ length out = n ∧ sibling_order_ok tree'.
Proof.
  assert (Hfresh : engine_ok (HFinit lz []) None ∧ ints_only (HFinit lz [])
                   ∨ ∃ buf, HFinit lz [] = with_buffer lz (HFinit lz []) buf).
  { right. exists (LZinit lz). reflexivity. }
  destruct (decode_indices_total lz n fp (HFinit lz []) Hfresh)
    as (out & tree' & fp' & E & Hlen & Hfin).
  exists out, tree', fp'. split; [exact E |]. split; [exact Hlen |].
  destruct Hfin as [Hok | [buf ->]].
  - apply engine_ok_sibling_order, Hok.
  - apply (HFinit_sibling_order lz).
Qed.

End StreamFacts.

Section FunctionFacts.

Variable lz : LiteralCoder.

(** X9: when the descent comes to a null child the decoders leave their
    loop and return 1: the output is what the caller passed, the tree is
    untouched, and the bits of the descent are consumed. *)
Theorem decoders_fall_through (tree : HFtree lz) (fp fp' : BitStream) :
  descend (heap tree) fp (codes tree) = Some (walk_null fp') →
  (∀ t0, HFdecodeATerm lz fp tree t0 = Some (mk_decoded 1%Z t0 tree fp'))
  ∧ (∀ i0, HFdecodeIndex lz fp tree i0 = Some (mk_decoded 1%Z i0 tree fp')).
Proof.
  intros H. split.
  - intros t0. unfold HFdecodeATerm. rewrite HFdecodeATerm_loop_descend, H. reflexivity.
  - intros i0. unfold HFdecodeIndex. rewrite HFdecodeIndex_loop_descend, H. reflexivity.
Qed.

(** X13: [HFwriteCode] only appends to the stream, and what it appends does
    not depend on the stream; [HFdumpCode] prints the same bits as the
    characters 0 and 1, after what the file holds, and fails where
    [HFwriteCode] does. *)
Theorem HFdumpCode_prints_the_code (tree : HFtree lz) (bs : BitStream) (fp : list ascii)
  (node : nat) :
  HFwriteCode lz tree bs node = (λ code, bs ++ code) <$> HFwriteCode lz tree [] node
  ∧ HFdumpCode tree fp node
    = (λ code, fp ++ code_chars code) <$> HFwriteCode lz tree [] node.
Proof.
  split; [apply HFwriteCode_rec_append | apply HFdumpCode_rec_chars].
Qed.


(** X15: the node [HFsuccessor] answers is never the current node, nor its
    parent, nor one of its children; both are nodes of the arena. *)
Theorem HFsuccessor_never_linked (tree : HFtree lz) (current s : nat) :
  HFsuccessor lz tree current = Some (Some s) →
  s ≠ current
  ∧ current < length (heap tree) ∧ s < length (heap tree)
  ∧ parent_of (heap tree) current ≠ Some s
  ∧ parent_of (heap tree) s ≠ Some current.
Proof.
  unfold HFsuccessor. intros (last & _ & H)%bind_Some.
  destruct (Nat.eqb last current) eqn:Elc; [discriminate |].
  apply Nat.eqb_neq in Elc.
  assert (Hlast : ∀ succ, last_unless_linked (heap tree) current last = Some (Some succ) →
            succ ≠ current
            ∧ current < length (heap tree) ∧ succ < length (heap tree)
            ∧ parent_of (heap tree) current ≠ Some succ
            ∧ parent_of (heap tree) succ ≠ Some current).
  { intros succ (b & Hb & E)%last_unless_linked_inv.
    destruct b; [discriminate |]. injection E as ->.
    split; [exact Elc | apply (linked_false _ _ _ Hb)]. }
  destruct (ptr_eqb (Some current) (Bprevious (blockList tree) last)) eqn:Ecp;
    [apply Hlast, H |].
  apply bind_Some in H as (b & Hb & H). destruct b; [apply Hlast, H |].
  injection H as H. rewrite H in Hb, Ecp.
  split; [| apply (linked_to_prelast_false _ _ _ Hb)].
  intros ->. simpl in Ecp. rewrite Nat.eqb_refl in Ecp. discriminate.
Qed.

(** X16: on a tree whose links agree, [HFswap] of two different nodes
    returns, and exchanges the two nodes: in the child slots that hold
    them, in the root pointer if it holds one of them, and by their parent
    links. No weight and no term moves, no node is added, and the links of
    the tree agree again. *)
Theorem HFswap_exchanges (tree : HFtree lz) (r c s : nat) :
  codes tree = Some r → tree_ok (heap tree) r →
  c < length (heap tree) → s < length (heap tree) → c ≠ s →
  ∃ tree', HFswap lz tree c s = Some tree'
           ∧ codes tree' = Some (exchange c s r)
           ∧ tree_ok (heap tree') (exchange c s r)
           ∧ top tree' = top tree ∧ terms tree' = terms tree
           ∧ blockList tree' = blockList tree ∧ buffer tree' = buffer tree
           ∧ length (heap tree') = length (heap tree)
           ∧ (∀ q, low_of (heap tree') q = exchange c s <$> low_of (heap tree) q)
           ∧ (∀ q, high_of (heap tree') q = exchange c s <$> high_of (heap tree) q)
           ∧ (∀ q, parent_of (heap tree') q =
                   if decide (q = c) then parent_of (heap tree) s
                   else if decide (q = s) then parent_of (heap tree) c
                   else parent_of (heap tree) q)
           ∧ (∀ q, weight (heap tree') q = weight (heap tree) q)
           ∧ (∀ q, term_of (heap tree') q = term_of (heap tree) q).
Proof.
  intros Hc Hok Hcv Hsv Hne.
  destruct (HFswap_spec lz tree r c s Hc Hok Hcv Hsv Hne)
    as (tree' & E & C' & T' & Tb' & B' & Bf' & Len' & L' & H' & P' & W' & Tm').
  exists tree'. split; [exact E |]. split; [exact C' |].
  split; [apply (exchanged_tree_ok _ _ r c s Hok Hcv Hsv Len' L' H' P') |].
  repeat (split; [assumption |]). exact Tm'.
Qed.

(** X17: [HFswap] undoes itself: on a tree whose links agree, exchanging
    two different nodes and exchanging them again gives back the tree,
    root pointer included. *)
Theorem HFswap_twice (tree : HFtree lz) (r c s : nat) :
  codes tree = Some r → tree_ok (heap tree) r →
  c < length (heap tree) → s < length (heap tree) → c ≠ s →
  ∃ tree', HFswap lz tree c s = Some tree' ∧ HFswap lz tree' c s = Some tree.
Proof.
  intros Hc Hok Hcv Hsv Hne.
  destruct (HFswap_twice_spec lz tree r c s Hc Hok Hcv Hsv Hne) as (tree' & E & _ & E').
  exists tree'. auto.
Qed.

(** X18: the first insertion. When the parent of the escape leaf has no
    high child, [HFadd] allocates one node, a leaf of weight 0 holding the
    term, makes it the high child of that parent, registers it in the
    sibling index, binds the term to it and returns it; no other node
    changes. *)
Theorem HFadd_bootstrap_case (tree : HFtree lz) (t : aterm) (e p : nat) (en pn : HFnode) :
  top tree = Some e → heap tree !! e = Some en → parent en = Some p →
  heap tree !! p = Some pn → high pn = None →
  ∃ tree',
    let n := length (heap tree) in
    HFadd lz tree t = Some (tree', n)
    ∧ length (heap tree') = S n
    ∧ heap tree' !! n = Some (mk_HFnode None None (Some p) 0%N t)
    ∧ heap tree' !! p = Some (set_high (Some n) pn)
    ∧ (∀ m, m < n → m ≠ p → heap tree' !! m = heap tree !! m)
    ∧ codes tree' = codes tree ∧ top tree' = top tree ∧ buffer tree' = buffer tree
    ∧ blockList tree' = BLinsert (blockList tree) n
    ∧ known_leaf lz tree' t = Some n.
Proof.
  intros Htop He Hpar Hp Hhigh. cbv zeta.
  assert (Hlp : p < length (heap tree)) by (eapply lookup_lt_Some, Hp).
  set (n := length (heap tree)) in *.
  set (leaf := mk_HFnode None None (Some p) 0%N t).
  assert (Hp1 : (heap tree ++ [leaf]) !! p = Some pn) by (rewrite lookup_app_l; assumption).
  eexists. split.
  { unfold HFadd. rewrite Htop. cbn [mbind option_bind]. rewrite He.
    cbn [mbind option_bind]. rewrite Hpar. cbn [mbind option_bind]. rewrite Hp.
    cbn [mbind option_bind]. rewrite Hhigh. fold n. fold leaf.
    rewrite (store_Some _ _ _ _ Hp1). cbn [mbind option_bind]. reflexivity. }
  cbn [heap codes top buffer blockList].
  split; [rewrite length_insert, length_app; simpl; lia |].
  split; [rewrite list_lookup_insert_ne by lia; apply list_lookup_middle; reflexivity |].
  split; [apply list_lookup_insert_eq; rewrite length_app; simpl; lia |].
  split.
  { intros m Hm Hmp. rewrite list_lookup_insert_ne by congruence.
    apply lookup_app_l. exact Hm. }
  split; [reflexivity |]. split; [symmetry; exact Htop |].
  split; [reflexivity |]. split; [reflexivity |].
  unfold known_leaf. cbn [terms]. rewrite HTknown_HTbind, aterm_eqb_refl. reflexivity.
Qed.

(** X19: [HFadd] binds the term it is given and no other: the table sends
    the term to the leaf returned, a new node past the old ones that holds
    the term, has no child and weighs 0, and sends every other term where
    it did. *)
Theorem HFadd_binds_only_the_new_term (tree tree' : HFtree lz) (t : aterm) (leaf : nat) :
  HFadd lz tree t = Some (tree', leaf) →
  known_leaf lz tree' t = Some leaf
  ∧ (∀ t', t' ≠ t → known_leaf lz tree' t' = known_leaf lz tree t')
  ∧ length (heap tree) ≤ leaf < length (heap tree')
  ∧ term_of (heap tree') leaf = Some t
  ∧ low_of (heap tree') leaf = None ∧ high_of (heap tree') leaf = None
  ∧ weight (heap tree') leaf = 0%N
  ∧ codes tree' = codes tree ∧ top tree' = top tree ∧ buffer tree' = buffer tree.
Proof.
  intros H. pose proof (HFadd_weights lz _ _ _ _ H) as (_ & Hge & _ & Hk).
  split; [exact Hk |].
  unfold HFadd in H.
  apply bind_Some in H as (tmp & Htop & H).
  apply bind_Some in H as (tmpn & Htmp & H).
  apply bind_Some in H as (p & Hpar & H).
  apply bind_Some in H as (pn & Hp & H).
  assert (Hpv : p < length (heap tree)) by (eapply lookup_lt_Some, Hp).
  assert (Hbind : ∀ (q : ptr) t', t' ≠ t →
            HTknown (HTbind (terms tree) t q) t' = HTknown (terms tree) t').
  { intros q t' Hne. rewrite HTknown_HTbind.
    rewrite aterm_eqb_neq by congruence. reflexivity. }
  set (n := length (heap tree)) in *.
  destruct (high pn) as [x |].
  - apply bind_Some in H as (h2 & H2 & H).
    apply bind_Some in H as (h3 & H3 & H).
    apply bind_Some in H as (h4 & H4 & H).
    apply bind_Some in H as (h6 & H6 & H).
    injection H as <- <-. cbn [heap codes top buffer terms]. unfold known_leaf. cbn [terms].
    pose proof (store_length _ _ _ _ H2) as L2. pose proof (store_length _ _ _ _ H3) as L3.
    pose proof (store_length _ _ _ _ H4) as L4. pose proof (store_length _ _ _ _ H6) as L6.
    rewrite length_app in L2, L6. simpl in L2, L6. fold n in L2.
    assert (E6 : h6 !! S n = Some (mk_HFnode None None (Some n) 0%N t)).
    { rewrite (store_lookup _ _ _ (S n) _ H6). rewrite decide_False by lia.
      apply list_lookup_middle. lia. }
    split; [intros t' Hne; apply Hbind, Hne |].
    split; [lia |].
    unfold term_of, low_of, high_of, weight. rewrite E6. simpl. auto 10.
  - apply bind_Some in H as (h2 & H2 & H).
    injection H as <- <-. cbn [heap codes top buffer terms]. unfold known_leaf. cbn [terms].
    pose proof (store_length _ _ _ _ H2) as L2. rewrite length_app in L2. simpl in L2.
    fold n in L2.
    assert (E2 : h2 !! n = Some (mk_HFnode None None (Some p) 0%N t)).
    { rewrite (store_lookup _ _ _ n _ H2). rewrite decide_False by lia.
      apply list_lookup_middle. reflexivity. }
    split; [intros t' Hne; apply Hbind, Hne |].
    split; [lia |].
    unfold term_of, low_of, high_of, weight. rewrite E2. simpl. auto 10.
Qed.

End FunctionFacts.

(** ** The statements at work on the small alphabet *)



Lemma two_nodes_per_term_witness :
  ∃ bits tree,
    encode_all demo_lz [] (HFinit demo_lz []) demo_stream = Some (bits, tree)
    ∧ length (heap tree) = 7.
Proof.
  apply (two_nodes_per_term demo_lz demo_stream).
  unfold demo_stream. repeat constructor; simpl; discriminate.
Defined.

Lemma encoder_tells_first_occurrence_witness :
  ∃ bits tree bits' tree',
    encode_all demo_lz [] (HFinit demo_lz []) demo_stream = Some (bits, tree)
    ∧ HFencode demo_lz bits tree (sym_index 2) = Some (1%Z, bits ++ bits', tree')
    ∧ length (heap tree') = length (heap tree) + 0.
Proof.
  apply (encoder_tells_first_occurrence demo_lz demo_stream (sym_index 2)).
  - unfold demo_stream. repeat constructor; simpl; discriminate.
  - simpl. discriminate.
Defined.


Lemma table_is_the_leaves_witness :
  ∃ bits tree e,
    encode_all demo_lz [] (HFinit demo_lz []) demo_stream = Some (bits, tree)
    ∧ top tree = Some e
    ∧ (∀ t n, known_leaf demo_lz tree t = Some n →
              n ≠ e ∧ low_of (heap tree) n = None ∧ high_of (heap tree) n = None
              ∧ term_of (heap tree) n = Some t)
    ∧ (∀ q, q < length (heap tree) → low_of (heap tree) q = None →
            q = e ∨ ∃ t, known_leaf demo_lz tree t = Some q)
    ∧ (∀ t1 t2 n, known_leaf demo_lz tree t1 = Some n →
                  known_leaf demo_lz tree t2 = Some n → t1 = t2).
Proof.
  apply (table_is_the_leaves demo_lz demo_stream).
  unfold demo_stream. repeat constructor; simpl; discriminate.
Defined.

Lemma code_leads_to_leaf_witness :
  ∃ bits tree,
    encode_all demo_lz [] (HFinit demo_lz []) demo_stream = Some (bits, tree)
    ∧ ∀ x, x < length (heap tree) → low_of (heap tree) x = None →
        ∃ code nd,
          heap tree !! x = Some nd
          ∧ (∀ bs, HFwriteCode demo_lz tree bs x = Some (bs ++ code))
          ∧ (∀ rest, descend (heap tree) (code ++ rest) (codes tree)
                     = Some (walk_leaf x nd rest))
          ∧ (∀ rest t0, HFdecodeATerm demo_lz (code ++ rest) tree t0
                        = decode_leaf_ATerm demo_lz rest tree x nd)
          ∧ (∀ rest i0, HFdecodeIndex demo_lz (code ++ rest) tree i0
                        = decode_leaf_Index demo_lz rest tree x nd i0).
Proof.
  apply (code_leads_to_leaf demo_lz demo_stream).
  unfold demo_stream. repeat constructor; simpl; discriminate.
Defined.

Lemma codes_are_prefix_free_witness :
  ∃ bits tree,
    encode_all demo_lz [] (HFinit demo_lz []) demo_stream = Some (bits, tree)
    ∧ ∀ x y cx cy,
        x < length (heap tree) → y < length (heap tree) →
        low_of (heap tree) x = None → low_of (heap tree) y = None → x ≠ y →
        HFwriteCode demo_lz tree [] x = Some cx → HFwriteCode demo_lz tree [] y = Some cy →
        ∀ ext, cy ≠ cx ++ ext.
Proof.
  apply (codes_are_prefix_free demo_lz demo_stream).
  unfold demo_stream. repeat constructor; simpl; discriminate.
Defined.

Lemma decoders_fall_through_witness :
  (∀ t0, HFdecodeATerm demo_lz [true; false] (HFinit demo_lz []) t0
         = Some (mk_decoded 1%Z t0 (HFinit demo_lz []) [false]))
  ∧ (∀ i0, HFdecodeIndex demo_lz [true; false] (HFinit demo_lz []) i0
           = Some (mk_decoded 1%Z i0 (HFinit demo_lz []) [false])).
Proof.
  apply (decoders_fall_through demo_lz (HFinit demo_lz []) [true; false] [false]).
  reflexivity.
Defined.

Lemma descent_never_null_witness :
  ∃ bits tree,
    encode_all demo_lz [] (HFinit demo_lz []) demo_stream = Some (bits, tree)
    ∧ ∀ fp,
        (∃ c nd code fp',
           fp = code ++ fp' ∧ heap tree !! c = Some nd ∧ is_leaf nd = true
           ∧ descend (heap tree) fp (codes tree) = Some (walk_leaf c nd fp'))
        ∨ descend (heap tree) fp (codes tree) = Some walk_exhausted.
Proof.
  apply (descent_never_null demo_lz demo_stream).
  - unfold demo_stream. repeat constructor; simpl; discriminate.
  - discriminate.
Defined.

Lemma round_trip_through_sentinels_witness :
  ∃ bits tree,
    encode_all demo_lz [] (HFinit demo_lz [])
      [sym_term (sym "A"); sym_term aterm_null; sym_index (-1); sym_term (sym "A");
       sym_term NO_ATERM; sym_index 2]
    = Some (bits, tree)
    ∧ decode_all demo_lz (bits ++ [true]) (HFinit demo_lz [])
        [as_term; as_term; as_index; as_term; as_term; as_index]
      = Some ([(1%Z, sym_term (sym "A")); (0%Z, sym_term aterm_null);
               (0%Z, sym_index (-1)); (1%Z, sym_term (sym "A"));
               (0%Z, sym_term aterm_null); (1%Z, sym_index 2)], tree, [true]).
Proof.
  destruct (round_trip_through_sentinels demo_lz
              [sym_term (sym "A"); sym_term aterm_null; sym_index (-1); sym_term (sym "A");
               sym_term NO_ATERM; sym_index 2] [true])
    as (bits & tree & E & _ & D).
  - repeat constructor; discriminate.
  - exists bits, tree. split; [exact E |]. apply D.
    repeat constructor; intros [] t0 rest; reflexivity.
Defined.

Lemma teardown_frees_every_node_once_witness :
  ∃ bits tree freed,
    encode_all demo_lz [] (HFinit demo_lz []) demo_stream = Some (bits, tree)
    ∧ HFfree tree = Some freed
    ∧ freed ≡ₚ seq 0 (length (heap tree)).
Proof.
  apply (teardown_frees_every_node_once demo_lz demo_stream).
  unfold demo_stream. repeat constructor; simpl; discriminate.
Defined.


Lemma HFsuccessor_never_linked_witness :
  4 ≠ 6 ∧ 6 < 7 ∧ 4 < 7
  ∧ parent_of (heap demo_after_ABC) 6 ≠ Some 4
  ∧ parent_of (heap demo_after_ABC) 4 ≠ Some 6.
Proof.
  apply (HFsuccessor_never_linked demo_lz demo_after_ABC 6 4). reflexivity.
Defined.

Lemma HFswap_exchanges_witness :
  ∃ tree',
    HFswap demo_lz (after_first demo_lz (sym "A") tt) 1 2 = Some tree'
    ∧ low_of (heap tree') 0 = Some 2 ∧ high_of (heap tree') 0 = Some 1.
Proof.
  destruct (after_first_ok demo_lz (sym "A") tt) as (r & e & Hc & _ & Htree & _);
    [discriminate |].
  destruct (HFswap_exchanges demo_lz (after_first demo_lz (sym "A") tt) r 1 2 Hc Htree)
    as (tree' & E & _ & _ & _ & _ & _ & _ & _ & Hl & Hh & _);
    [simpl; lia | simpl; lia | discriminate |].
  exists tree'. split; [exact E |]. split; [apply (Hl 0) | apply (Hh 0)].
Defined.

Lemma HFswap_twice_witness :
  ∃ tree',
    HFswap demo_lz (after_first demo_lz (sym "A") tt) 1 2 = Some tree'
    ∧ HFswap demo_lz tree' 1 2 = Some (after_first demo_lz (sym "A") tt).
Proof.
  destruct (after_first_ok demo_lz (sym "A") tt) as (r & e & Hc & _ & Htree & _);
    [discriminate |].
  apply (HFswap_twice demo_lz (after_first demo_lz (sym "A") tt) r 1 2 Hc Htree);
    [simpl; lia | simpl; lia | discriminate].
Defined.

Lemma HFadd_bootstrap_case_witness :
  ∃ tree',
    HFadd demo_lz (HFinit demo_lz []) (sym "A") = Some (tree', 2)
    ∧ heap tree' !! 2 = Some (mk_HFnode None None (Some 0) 0%N (sym "A"))
    ∧ known_leaf demo_lz tree' (sym "A") = Some 2.
Proof.
  destruct (HFadd_bootstrap_case demo_lz (HFinit demo_lz []) (sym "A") 1 0
              (mk_HFnode None None (Some 0) 0%N ESCAPE_SEQUENCE)
              (mk_HFnode None (Some 1) None 0%N aterm_null)
              eq_refl eq_refl eq_refl eq_refl eq_refl)
    as (tree' & E & _ & Hn & _ & _ & _ & _ & _ & _ & Hk).
  exists tree'. split; [exact E |]. split; [exact Hn | exact Hk].
Defined.

Lemma HFadd_binds_only_the_new_term_witness :
  ∃ tree' leaf,
    HFadd demo_lz demo_after_ABC NO_ATERM = Some (tree', leaf)
    ∧ known_leaf demo_lz tree' NO_ATERM = Some leaf
    ∧ known_leaf demo_lz tree' (sym "B") = known_leaf demo_lz demo_after_ABC (sym "B").
Proof.
  destruct (HFadd demo_lz demo_after_ABC NO_ATERM) as [[tree' leaf] |] eqn:E;
    [| vm_compute in E; discriminate].
  destruct (HFadd_binds_only_the_new_term demo_lz demo_after_ABC tree' NO_ATERM leaf E)
    as (Hk & Hother & _).
  exists tree', leaf. split; [reflexivity |]. split; [exact Hk |].
  apply Hother. discriminate.
Defined.

Lemma HFstats_reports_average_witness :
  ∃ bits tree,
    encode_all demo_lz [] (HFinit demo_lz []) demo_stream = Some (bits, tree)
    ∧ HFstats (mk_CInts 64 2147483647) tree (codes tree) 0 0
      = Some (weighted_path_length tree, [(weighted_path_length tree / 4)%Z]).
Proof.
  destruct (HFstats_reports_average demo_lz (mk_CInts 64 2147483647) demo_stream)
    as (bits & tree & E & _ & H).
  - unfold demo_stream. repeat constructor; simpl; discriminate.
  - reflexivity.
  - exists bits, tree. split; [exact E |].
    vm_compute in E. injection E as <- <-.
    apply H; [discriminate | vm_compute; discriminate | reflexivity | reflexivity].
Defined.

Lemma HFdecodeATerm_never_stuck_witness :
  ∃ out tree' fp',
    decode_all plain_lz [false; true; true; true; false; false; true; false; true; true]
      (HFinit plain_lz []) (replicate 4 as_term)
    = Some (out, tree', fp')
    ∧ length out = 4 ∧ sibling_order_ok tree'.
Proof.
  apply (HFdecodeATerm_never_stuck plain_lz 4).
  intros fp buf t0 t buf' fp' H. simpl in H. unfold dict_readATerm in H.
  destruct (read_unary fp) as [[[| [| k]] rest] |]; simpl in H; try discriminate;
    injection H; intros; subst; discriminate.
Defined.
